(** * flight_planner.py: itinerary search over a flight schedule

    A shallow embedding of [src/flight_planner.py] and the properties of
    its search engine, its loaders and its time helpers.

    Conventions of the embedding.
    - Python [int] is [Z]; Python [str] is [string] (the model covers
      ASCII text: characters are compared by code, and the whitespace
      and digit classes are the ASCII ones).
    - A call that may raise returns a [res]: [Ok v] or [Raise e].
    - [Dict[str, ...]] is a [gmap string ...]; the [dict] of a CSV row,
      whose order shows in a message, is an association list.
    - A [while] loop takes a [fuel : nat] and answers [None] when the
      fuel is used up before the loop has finished. *)

From Stdlib Require Import ZArith Lia Ascii String DecimalString.
From stdpp Require Import gmap strings list fin_maps.

Local Open Scope Z_scope.

(* ------------------------------------------------------------------ *)
(** ** Exceptions and the error monad *)
(* ------------------------------------------------------------------ *)

Inductive exn : Type :=
  | ValueError (msg : string)
  | TypeError (msg : string)
  | KeyError (msg : string)
  | IndexError (msg : string)
  | AttributeError (msg : string).

Inductive res (A : Type) : Type :=
  | Ok (a : A)
  | Raise (e : exn).
Arguments Ok {A} a.
Arguments Raise {A} e.

Global Instance res_ret : MRet res := fun A a => Ok a.

Global Instance res_bind : MBind res := fun A B k m =>
  match m with
  | Ok a => k a
  | Raise e => Raise e
  end.

Global Instance exn_eq_dec : EqDecision exn.
Proof. solve_decision. Defined.

Global Instance res_eq_dec {A : Type} `{EqDecision A} : EqDecision (res A).
Proof. solve_decision. Defined.

Definition is_ok {A : Type} (m : res A) : bool :=
  match m with Ok _ => true | Raise _ => false end.

(* ------------------------------------------------------------------ *)
(** ** The string methods the source calls *)
(* ------------------------------------------------------------------ *)

Module Py.

(** [str.isspace] on one ASCII character: TAB, LF, VT, FF, CR, the
    four separators FS, GS, RS, US and the space. *)
Definition isspace (c : ascii) : bool :=
  let n := nat_of_ascii c in
  (((9 <=? n) && (n <=? 13)) || ((28 <=? n) && (n <=? 32)))%nat.

Fixpoint lstrip (s : string) : string :=
  match s with
  | EmptyString => EmptyString
  | String c s' => if isspace c then lstrip s' else s
  end.

Fixpoint rev_onto (s acc : string) : string :=
  match s with
  | EmptyString => acc
  | String c s' => rev_onto s' (String c acc)
  end.

Definition reverse (s : string) : string := rev_onto s EmptyString.

Definition rstrip (s : string) : string := reverse (lstrip (reverse s)).

(** [s.strip()] *)
Definition strip (s : string) : string := rstrip (lstrip s).

(** [s.split(sep)] for a separator of one character: the result
    always has at least one part. *)
Fixpoint split (sep : ascii) (s : string) : list string :=
  match s with
  | EmptyString => [EmptyString]
  | String c s' =>
      if Ascii.eqb c sep then EmptyString :: split sep s'
      else match split sep s' with
           | p :: ps => String c p :: ps
           | [] => [String c EmptyString]
           end
  end.

(** The word in progress at the front of [s] and the words after it. *)
Fixpoint split_ws_go (s : string) : string * list string :=
  match s with
  | EmptyString => (EmptyString, [])
  | String c s' =>
      let '(w, ws) := split_ws_go s' in
      if isspace c
      then (EmptyString, match w with EmptyString => ws | _ => w :: ws end)
      else (String c w, ws)
  end.

(** [s.split()]: the maximal runs of non-whitespace characters. *)
Definition split_ws (s : string) : list string :=
  let '(w, ws) := split_ws_go s in
  match w with EmptyString => ws | _ => w :: ws end.

(** [s.startswith(p)] *)
Fixpoint startswith (p s : string) : bool :=
  match p, s with
  | EmptyString, _ => true
  | String a p', String b s' => Ascii.eqb a b && startswith p' s'
  | String _ _, EmptyString => false
  end.

Definition digit (c : ascii) : option Z :=
  let n := nat_of_ascii c in
  if ((48 <=? n) && (n <=? 57))%nat then Some (Z.of_nat (n - 48)) else None.

(** [str(n)] for an integer (one of at most 4300 digits, which CPython
    converts without complaint). *)
Definition str (z : Z) : string := NilZero.string_of_int (Z.to_int z).

(** [sep.join(parts)] *)
Fixpoint join (sep : string) (parts : list string) : string :=
  match parts with
  | [] => EmptyString
  | [p] => p
  | p :: ps => p +:+ sep +:+ join sep ps
  end.

Definition hex_digit (n : nat) : ascii :=
  ascii_of_nat (if (n <? 10)%nat then 48 + n else 87 + n).

(** One character of [repr(s)] between the quotes [quote]: the quote
    and the backslash are escaped, TAB, LF and CR have their letters,
    and a character that is not printable shows its code. *)
Definition repr_char (quote c : ascii) : string :=
  let n := nat_of_ascii c in
  if Ascii.eqb c quote || Ascii.eqb c "092"%char
  then String "092"%char (String c EmptyString)
  else if (n =? 9)%nat then String "092"%char "t"
  else if (n =? 10)%nat then String "092"%char "n"
  else if (n =? 13)%nat then String "092"%char "r"
  else if (n <? 32)%nat || ((127 <=? n) && (n <=? 160))%nat || (n =? 173)%nat
  then String "092"%char
         (String "x" (String (hex_digit (n / 16))
                        (String (hex_digit (n mod 16)) EmptyString)))
  else String c EmptyString.

Fixpoint repr_chars (quote : ascii) (s : string) : string :=
  match s with
  | EmptyString => EmptyString
  | String c s' => repr_char quote c +:+ repr_chars quote s'
  end.

Fixpoint contains (c : ascii) (s : string) : bool :=
  match s with
  | EmptyString => false
  | String c' s' => Ascii.eqb c' c || contains c s'
  end.

(** [repr(s)] for a string: in single quotes, unless the string holds
    a single quote and no double quote. *)
Definition repr (s : string) : string :=
  let quote :=
    if contains "'"%char s && negb (contains "034"%char s)
    then "034"%char else "'"%char in
  String quote (repr_chars quote s) +:+ String quote EmptyString.

(** The whitespace that [int] skips around the digits of an ASCII
    string: TAB, LF, VT, FF, CR and the space. Unlike [str.strip] it
    does not skip the four separators FS, GS, RS, US. *)
Definition isspace_c (c : ascii) : bool :=
  let n := nat_of_ascii c in
  (((9 <=? n) && (n <=? 13)) || (n =? 32))%nat.

Fixpoint lstrip_c (s : string) : string :=
  match s with
  | EmptyString => EmptyString
  | String c s' => if isspace_c c then lstrip_c s' else s
  end.

(** The scan of [int] over digits and underscores: the value and the
    number of the digits read, and the text from the first character
    that is neither. An underscore after an underscore, or one that
    ends the run, fails the scan. *)
Fixpoint scan_digits (acc count : Z) (after_underscore : bool) (s : string)
  : option (Z * Z * string) :=
  match s with
  | EmptyString => if after_underscore then None else Some (acc, count, s)
  | String c s' =>
      match digit c with
      | Some d => scan_digits (10 * acc + d) (count + 1) false s'
      | None =>
          if Ascii.eqb c "_"%char
          then if after_underscore then None else scan_digits acc count true s'
          else if after_underscore then None else Some (acc, count, s)
      end
  end.

Definition MAX_STR_DIGITS : Z := 4300.

(** [int(s)] for a string, as CPython 3.11 reads it: whitespace, an
    optional sign, digits with single underscores between them,
    whitespace. A literal of more than 4300 digits is refused, and it
    is refused before what follows its digits is looked at. The
    message of an invalid literal shows the first 200 characters of
    its [repr]. *)
Definition int (s : string) : res Z :=
  let invalid :=
    Raise (ValueError ("invalid literal for int() with base 10: "
                       +:+ String.substring 0 200 (repr s))) in
  let t := lstrip_c s in
  let '(neg, body) :=
    match t with
    | String "-"%char r => (true, r)
    | String "+"%char r => (false, r)
    | _ => (false, t)
    end in
  match body with
  | String "_"%char _ => invalid
  | _ =>
      match scan_digits 0 0 false body with
      | None => invalid
      | Some (n, count, rest) =>
          if MAX_STR_DIGITS <? count
          then Raise (ValueError
                        ("Exceeds the limit (4300 digits) for integer string "
                         +:+ "conversion: value has " +:+ str count
                         +:+ " digits; use sys.set_int_max_str_digits() "
                         +:+ "to increase the limit"))
          else if count =? 0 then invalid
          else match lstrip_c rest with
               | EmptyString => Ok (if neg then - n else n)
               | _ => invalid
               end
      end
  end.

(** [f"{z:02d}"]: zero padded to width two; the sign counts for the
    width. *)
Definition fmt_02d (z : Z) : string :=
  let s := str z in
  if (String.length s <? 2)%nat then "0" +:+ s else s.

End Py.

(* ------------------------------------------------------------------ *)
(** ** Constants & types *)
(* ------------------------------------------------------------------ *)

Definition MIN_LAYOVER_MINUTES : Z := 60.

Module Flight.

Record t : Type := mk {
  origin : string;
  dest : string;
  flight_number : string;
  depart : Z;   (* minutes since midnight *)
  arrive : Z;   (* minutes since midnight *)
  economy : Z;
  business : Z;
  first : Z
}.

(** The dataclass is declared with [eq] (the default): [==] compares
    the fields. *)
Global Instance eq_dec : EqDecision t.
Proof. solve_decision. Defined.

(** [order] is not requested in the decorator, so [<] between two
    flights raises. *)
Definition no_order : exn :=
  TypeError "'<' not supported between instances of 'Flight' and 'Flight'".

Definition lt (a b : t) : res bool := Raise no_order.

(** The cabin is a [str] at run time. *)
Definition price_for (self : t) (cabin : string) : res Z :=
  if String.eqb cabin "economy" then Ok (economy self)
  else if String.eqb cabin "business" then Ok (business self)
  else if String.eqb cabin "first" then Ok (first self)
  else Raise (ValueError ("Unknown cabin: " +:+ cabin)).

End Flight.

Abbreviation Flight := Flight.t.

Module Itinerary.

Record t : Type := mk { flights : list Flight }.

Definition is_empty (self : t) : bool :=
  match flights self with [] => true | _ => false end.

Definition origin (self : t) : option string :=
  Flight.origin <$> head (flights self).

Definition dest (self : t) : option string :=
  Flight.dest <$> last (flights self).

Definition depart_time (self : t) : option Z :=
  Flight.depart <$> head (flights self).

Definition arrive_time (self : t) : option Z :=
  Flight.arrive <$> last (flights self).

(** [sum(f.price_for(cabin) for f in self.flights)] *)
Fixpoint sum_prices (cabin : string) (fs : list Flight) : res Z :=
  match fs with
  | [] => Ok 0
  | f :: fs' =>
      p ← Flight.price_for f cabin;
      rest ← sum_prices cabin fs';
      Ok (p + rest)
  end.

Definition total_price (self : t) (cabin : string) : res Z :=
  sum_prices cabin (flights self).

Definition num_stops (self : t) : Z :=
  Z.max 0 (Z.of_nat (length (flights self)) - 1).

End Itinerary.

Abbreviation Itinerary := Itinerary.t.

Abbreviation Graph := (gmap string (list Flight)).

(* ------------------------------------------------------------------ *)
(** ** Time helpers *)
(* ------------------------------------------------------------------ *)

Definition parse_time (hhmm : string) : res Z :=
  match Py.split ":"%char (Py.strip hhmm) with
  | [hour; minute] =>
      match Py.int hour, Py.int minute with
      | Ok hour, Ok minute =>
          if (0 <=? hour) && (hour <? 24) && (0 <=? minute) && (minute <? 60)
          then Ok (hour * 60 + minute)
          else Raise (ValueError ("Hour or minute out of range: " +:+ hhmm))
      | _, _ => Raise (ValueError ("Invalid hour/minute in time: " +:+ hhmm))
      end
  | _ => Raise (ValueError ("Invalid time format: " +:+ hhmm))
  end.

Definition format_time (minutes : Z) : string :=
  let hour := minutes / 60 in
  let minute := minutes mod 60 in
  Py.fmt_02d hour +:+ ":" +:+ Py.fmt_02d minute.

(* ------------------------------------------------------------------ *)
(** ** Loading flights from files *)
(* ------------------------------------------------------------------ *)

Definition parse_flight_line_txt (line : string) : res (option Flight) :=
  let line := Py.strip line in
  if String.eqb line "" || Py.startswith "#" line then Ok None
  else
    match Py.split_ws line with
    | [origin; dest; num; depart; arrive; econ; biz; first] =>
        depart_min ← parse_time depart;
        arrive_min ← parse_time arrive;
        if arrive_min <=? depart_min
        then Raise (ValueError ("Arrival must be after departure: " +:+ line))
        else
          economy ← Py.int econ;
          business ← Py.int biz;
          first ← Py.int first;
          Ok (Some (Flight.mk origin dest num depart_min arrive_min
                              economy business first))
    | parts =>
        Raise (ValueError ("Expected 8 fields, got "
                           +:+ Py.str (Z.of_nat (length parts)) +:+ ": " +:+ line))
    end.

(** The loop of [load_flights_txt] over the lines of the file, numbered
    from [lineno]. A flight object is truthy, so every parsed flight is
    appended. Only a [ValueError] is caught and raised again with the
    position in front. *)
Fixpoint load_lines (path : string) (lineno : Z) (lines : list string)
    (flights : list Flight) : res (list Flight) :=
  match lines with
  | [] => Ok flights
  | line :: rest =>
      match parse_flight_line_txt line with
      | Ok (Some flight) => load_lines path (lineno + 1) rest (flights ++ [flight])
      | Ok None => load_lines path (lineno + 1) rest flights
      | Raise (ValueError e) =>
          Raise (ValueError (path +:+ ":" +:+ Py.str lineno +:+ ": " +:+ e))
      | Raise e => Raise e
      end
  end.

(** The file is given by its lines. *)
Definition load_flights_txt (path : string) (lines : list string)
  : res (list Flight) :=
  load_lines path 1 lines [].

(** What [csv.DictReader] makes of the records that [csv.reader]
    yields: the first record is the header, and each later record
    becomes a [dict] from the field names to its fields. *)
Module csv.

(** A value in the [dict] of a row: a field of the record; [None]
    (the [restval]) for a column that the record is too short to
    fill; and, under the key [None] (the [restkey]), the list of the
    fields that the record has beyond the header. *)
Inductive value : Type :=
  | Str (s : string)
  | NoneV
  | Rest (fields : list string).

(** A [dict] in the order of insertion. A key is a field name or [None]. *)
Definition dict : Type := list (option string * value).

(** [d[k] = v]: a key that is present keeps its place. *)
Fixpoint setitem (d : dict) (k : option string) (v : value) : dict :=
  match d with
  | [] => [(k, v)]
  | (k', v') :: d' =>
      if decide (k' = k) then (k', v) :: d' else (k', v') :: setitem d' k v
  end.

(** [d.get(k)] *)
Fixpoint getitem (d : dict) (k : option string) : option value :=
  match d with
  | [] => None
  | (k', v) :: d' => if decide (k' = k) then Some v else getitem d' k
  end.

(** [DictReader.__next__] on a record with fields:
    [dict(zip(fieldnames, row))], then the fields beyond the header
    under [restkey], or [restval] for the columns left over. *)
Definition row_dict (fieldnames row : list string) : dict :=
  let d := foldl (fun d kv => setitem d (Some kv.1) (Str kv.2)) []
                 (zip fieldnames row) in
  if (length fieldnames <? length row)%nat
  then setitem d None (Rest (drop (length fieldnames) row))
  else foldl (fun d key => setitem d (Some key) NoneV) d
             (drop (length row) fieldnames).

(** The rows of the reader: a record without fields (a blank line) is
    passed over. *)
Definition rows (fieldnames : list string) (records : list (list string))
  : list dict :=
  row_dict fieldnames <$> filter (fun record => record ≠ []) records.

Definition repr_value (v : value) : string :=
  match v with
  | Str s => Py.repr s
  | NoneV => "None"
  | Rest fields => "[" +:+ Py.join ", " (Py.repr <$> fields) +:+ "]"
  end.

Definition repr_key (k : option string) : string :=
  match k with
  | Some s => Py.repr s
  | None => "None"
  end.

(** [repr(d)], which is what [f"{row}"] shows. *)
Definition repr_dict (d : dict) : string :=
  "{" +:+ Py.join ", " ((fun kv => repr_key kv.1 +:+ ": " +:+ repr_value kv.2) <$> d)
  +:+ "}".

(** [repr] of a set of strings that is iterated in the order [order]. *)
Definition repr_set (order : list string) : string :=
  "{" +:+ Py.join ", " (Py.repr <$> order) +:+ "}".

Definition type_name (v : value) : string :=
  match v with
  | Str _ => "str"
  | NoneV => "NoneType"
  | Rest _ => "list"
  end.

End csv.

Definition required_cols : list string :=
  ["origin"; "dest"; "flight_number"; "depart"; "arrive";
   "economy"; "business"; "first"].

(** [row[col]] *)
Definition row_get (row : csv.dict) (col : string) : res csv.value :=
  match csv.getitem row (Some col) with
  | Some v => Ok v
  | None => Raise (KeyError (Py.repr col))
  end.

(** [parse_time(v)] on a value of a row: [parse_time] starts with
    [v.strip()], which only a string has. *)
Definition parse_time_value (v : csv.value) : res Z :=
  match v with
  | csv.Str s => parse_time s
  | _ => Raise (AttributeError ("'" +:+ csv.type_name v
                                +:+ "' object has no attribute 'strip'"))
  end.

(** [int(v)] on a value of a row. *)
Definition int_value (v : csv.value) : res Z :=
  match v with
  | csv.Str s => Py.int s
  | _ => Raise (TypeError ("int() argument must be a string, a bytes-like object "
                           +:+ "or a real number, not '" +:+ csv.type_name v +:+ "'"))
  end.

(** The body of the [for row in reader] loop up to the call of
    [Flight]: the arguments of the call, evaluated in the order of the
    source. *)
Definition flight_args (row : csv.dict)
  : res (csv.value * csv.value * csv.value * Z * Z * Z * Z * Z) :=
  depart ← row_get row "depart" ≫= parse_time_value;
  arrive ← row_get row "arrive" ≫= parse_time_value;
  if arrive <=? depart
  then Raise (ValueError ("Arrival must be after departure: " +:+ csv.repr_dict row))
  else
    origin ← row_get row "origin";
    dest ← row_get row "dest";
    flight_number ← row_get row "flight_number";
    economy ← row_get row "economy" ≫= int_value;
    business ← row_get row "business" ≫= int_value;
    first ← row_get row "first" ≫= int_value;
    Ok (origin, dest, flight_number, depart, arrive, economy, business, first).

(** The flight of a row. The dataclass checks no types: a record too
    short to fill one of the three text columns gives a flight whose
    field is [None]. Such a flight is outside the type [Flight] of
    this model, and the answer is then [None]. *)
Definition flight_of_row (row : csv.dict) : option (res Flight) :=
  match flight_args row with
  | Raise e => Some (Raise e)
  | Ok (csv.Str origin, csv.Str dest, csv.Str flight_number,
        depart, arrive, economy, business, first) =>
      Some (Ok (Flight.mk origin dest flight_number depart arrive
                          economy business first))
  | Ok _ => None
  end.

Fixpoint load_rows (rows : list csv.dict) (flights : list Flight)
  : option (res (list Flight)) :=
  match rows with
  | [] => Some (Ok flights)
  | row :: rest =>
      match flight_of_row row with
      | Some (Ok flight) => load_rows rest (flights ++ [flight])
      | Some (Raise e) => Some (Raise e)
      | None => None
      end
  end.

(** The file is given by the records that [csv.reader] yields for it,
    the header first. The message about missing columns shows the set
    [required_cols]; the order in which a set of strings is iterated
    depends on the hash seed of the process, and [set_order] is that
    order. An empty file has no field names. *)
Definition load_flights_csv (set_order : list string) (records : list (list string))
  : option (res (list Flight)) :=
  let fieldnames := match records with [] => [] | header :: _ => header end in
  if forallb (fun c => bool_decide (c ∈ fieldnames)) required_cols
  then load_rows (csv.rows fieldnames (tail records)) []
  else Some (Raise (ValueError ("Missing required CSV columns: "
                                +:+ csv.repr_set set_order))).

(* ------------------------------------------------------------------ *)
(** ** Graph construction *)
(* ------------------------------------------------------------------ *)

Definition graph_get (g : Graph) (airport : string) : list Flight :=
  default [] (g !! airport).

Definition build_graph (flights : list Flight) : Graph :=
  foldl (fun g f => <[Flight.origin f := graph_get g (Flight.origin f) ++ [f]]> g)
        ∅ flights.

(* ------------------------------------------------------------------ *)
(** ** The heap queue of the standard library *)
(* ------------------------------------------------------------------ *)

(** [heapq] keeps a binary heap in a list: the children of the item at
    [k] are at [2*k+1] and [2*k+2]. Items are compared with [<] only,
    and a comparison may raise. *)
Module heapq.
Section heapq.
Context {A : Type} (lt : A → A → res bool).

Definition getitem (heap : list A) (k : nat) : res A :=
  match heap !! k with
  | Some x => Ok x
  | None => Raise (IndexError "list index out of range")
  end.

(** The loop of [_siftdown]: [newitem] moves towards the root while
    it is smaller than the parent. The parent of [pos] is below
    [pos], so [pos] itself bounds the number of rounds; [fuel] starts
    there. *)
Fixpoint siftdown_loop (fuel : nat) (heap : list A) (startpos pos : nat)
    (newitem : A) : res (list A) :=
  match fuel with
  | O => Ok (<[pos := newitem]> heap)
  | S fuel' =>
      if decide (startpos < pos)%nat then
        let parentpos := ((pos - 1) / 2)%nat in
        parent ← getitem heap parentpos;
        b ← lt newitem parent;
        if b : bool
        then siftdown_loop fuel' (<[pos := parent]> heap) startpos parentpos newitem
        else Ok (<[pos := newitem]> heap)
      else Ok (<[pos := newitem]> heap)
  end.

Definition siftdown (heap : list A) (startpos pos : nat) : res (list A) :=
  newitem ← getitem heap pos;
  siftdown_loop pos heap startpos pos newitem.

(** The loop of [_siftup]: the smaller child moves up until a leaf is
    reached; the answer is the heap and the position of the hole. A
    child is beyond its parent, so [endpos - pos] bounds the number
    of rounds. *)
Fixpoint siftup_loop (fuel : nat) (heap : list A) (endpos pos : nat)
    : res (list A * nat) :=
  match fuel with
  | O => Ok (heap, pos)
  | S fuel' =>
      let childpos := (2 * pos + 1)%nat in
      if decide (childpos < endpos)%nat then
        let rightpos := (childpos + 1)%nat in
        childpos ←
          (if decide (rightpos < endpos)%nat then
             l ← getitem heap childpos;
             r ← getitem heap rightpos;
             b ← lt l r;
             Ok (if b : bool then childpos else rightpos)
           else Ok childpos);
        child ← getitem heap childpos;
        siftup_loop fuel' (<[pos := child]> heap) endpos childpos
      else Ok (heap, pos)
  end.

Definition siftup (heap : list A) (pos : nat) : res (list A) :=
  let endpos := length heap in
  let startpos := pos in
  newitem ← getitem heap pos;
  '(heap, pos) ← siftup_loop (endpos - pos) heap endpos pos;
  siftdown (<[pos := newitem]> heap) startpos pos.

Definition heappush (heap : list A) (item : A) : res (list A) :=
  siftdown (heap ++ [item]) 0 (length heap).

(** The answer is the popped item and the heap that is left. *)
Definition heappop (heap : list A) : res (A * list A) :=
  match last heap with
  | None => Raise (IndexError "pop from empty list")
  | Some lastelt =>
      match removelast heap with
      | [] => Ok (lastelt, [])
      | returnitem :: rest =>
          heap ← siftup (lastelt :: rest) 0;
          Ok (returnitem, heap)
      end
  end.

End heapq.
End heapq.

(* ------------------------------------------------------------------ *)
(** ** Comparison of the queue entries *)
(* ------------------------------------------------------------------ *)

(** [p < q] on two lists of flights: the first position where they
    differ (by [==]) decides, with [<] on the two flights there; a
    proper prefix is smaller. *)
Fixpoint path_lt (p q : list Flight) : res bool :=
  match p, q with
  | [], [] => Ok false
  | [], _ :: _ => Ok true
  | _ :: _, [] => Ok false
  | a :: p', b :: q' =>
      if decide (a = b) then path_lt p' q' else Flight.lt a b
  end.

(** [<] on the tuples [(current_time, airport, path)]. *)
Definition earliest_lt (x y : Z * string * list Flight) : res bool :=
  let '(t1, a1, p1) := x in
  let '(t2, a2, p2) := y in
  if negb (t1 =? t2) then Ok (t1 <? t2)
  else if negb (String.eqb a1 a2) then Ok (String.ltb a1 a2)
  else path_lt p1 p2.

(** [<] on the tuples [(total_price, current_time, airport, path)]. *)
Definition cheapest_lt (x y : Z * Z * string * list Flight) : res bool :=
  let '(c1, t1, a1, p1) := x in
  let '(c2, t2, a2, p2) := y in
  if negb (c1 =? c2) then Ok (c1 <? c2)
  else earliest_lt (t1, a1, p1) (t2, a2, p2).

(* ------------------------------------------------------------------ *)
(** ** Search functions *)
(* ------------------------------------------------------------------ *)

(** What one round of the [while heap] loop does. *)
Inductive round (St : Type) : Type :=
  | Finished (result : option Itinerary)     (* [return], or the heap is empty *)
  | Skipped (st : St)                        (* [continue]: a stale entry *)
  | Expanded (airport : string) (st : St).   (* [visited[airport]] is set *)
Arguments Finished {St} result.
Arguments Skipped {St} st.
Arguments Expanded {St} airport st.

(** [while heap: body], run for at most [fuel] rounds. *)
Fixpoint while_loop {St : Type} (body : St → res (round St)) (fuel : nat) (st : St)
  : option (res (option Itinerary)) :=
  match fuel with
  | O => None
  | S fuel' =>
      match body st with
      | Raise e => Some (Raise e)
      | Ok (Finished r) => Some (Ok r)
      | Ok (Skipped st') | Ok (Expanded _ st') => while_loop body fuel' st'
      end
  end.

(** The airports in the order in which the first [fuel] rounds of the
    loop expand them. *)
Fixpoint expansions {St : Type} (body : St → res (round St)) (fuel : nat) (st : St)
  : list string :=
  match fuel with
  | O => []
  | S fuel' =>
      match body st with
      | Ok (Skipped st') => expansions body fuel' st'
      | Ok (Expanded a st') => a :: expansions body fuel' st'
      | _ => []
      end
  end.

Definition layover_ok (path : list Flight) (current_time : Z) (f : Flight) : bool :=
  match path with
  | [] => current_time <=? Flight.depart f
  | _ => current_time + MIN_LAYOVER_MINUTES <=? Flight.depart f
  end.

(** [airport in visited and visited[airport] <= key] *)
Definition seen_no_worse (visited : gmap string Z) (airport : string) (key : Z) : bool :=
  match visited !! airport with
  | Some v => v <=? key
  | None => false
  end.

Definition nonempty {X : Type} (l : list X) : bool :=
  match l with [] => false | _ => true end.

(** The [for f in graph.get(airport, [])] loop of the earliest search. *)
Fixpoint earliest_push (heap : list (Z * string * list Flight))
    (current_time : Z) (path : list Flight) (fs : list Flight)
  : res (list (Z * string * list Flight)) :=
  match fs with
  | [] => Ok heap
  | f :: fs' =>
      if layover_ok path current_time f then
        heap ← heapq.heappush earliest_lt heap
                 (Flight.arrive f, Flight.dest f, path ++ [f]);
        earliest_push heap current_time path fs'
      else earliest_push heap current_time path fs'
  end.

Definition earliest_round (graph : Graph) (dest : string)
    (st : list (Z * string * list Flight) * gmap string Z)
  : res (round (list (Z * string * list Flight) * gmap string Z)) :=
  let '(heap, visited) := st in
  match heap with
  | [] => Ok (Finished None)
  | _ =>
      '(current_time, airport, path, heap) ← heapq.heappop earliest_lt heap;
      if bool_decide (airport = dest) && nonempty path
      then Ok (Finished (Some (Itinerary.mk path)))
      else if seen_no_worse visited airport current_time
      then Ok (Skipped (heap, visited))
      else
        heap ← earliest_push heap current_time path (graph_get graph airport);
        Ok (Expanded airport (heap, <[airport := current_time]> visited))
  end.

Definition earliest_loop (fuel : nat) (graph : Graph) (dest : string)
    (st : list (Z * string * list Flight) * gmap string Z)
  : option (res (option Itinerary)) :=
  while_loop (earliest_round graph dest) fuel st.

Definition find_earliest_itinerary (fuel : nat) (graph : Graph)
    (start dest : string) (earliest_departure : Z)
  : option (res (option Itinerary)) :=
  earliest_loop fuel graph dest ([(earliest_departure, start, [])], ∅).

(** The [for f in graph.get(airport, [])] loop of the cheapest search. *)
Fixpoint cheapest_push (cabin : string) (heap : list (Z * Z * string * list Flight))
    (total_price current_time : Z) (path : list Flight) (fs : list Flight)
  : res (list (Z * Z * string * list Flight)) :=
  match fs with
  | [] => Ok heap
  | f :: fs' =>
      if layover_ok path current_time f then
        price ← Flight.price_for f cabin;
        heap ← heapq.heappush cheapest_lt heap
                 (total_price + price, Flight.arrive f, Flight.dest f, path ++ [f]);
        cheapest_push cabin heap total_price current_time path fs'
      else cheapest_push cabin heap total_price current_time path fs'
  end.

Definition cheapest_round (graph : Graph) (dest : string) (cabin : string)
    (st : list (Z * Z * string * list Flight) * gmap string Z)
  : res (round (list (Z * Z * string * list Flight) * gmap string Z)) :=
  let '(heap, visited) := st in
  match heap with
  | [] => Ok (Finished None)
  | _ =>
      '(total_price, current_time, airport, path, heap) ←
         heapq.heappop cheapest_lt heap;
      if bool_decide (airport = dest) && nonempty path
      then Ok (Finished (Some (Itinerary.mk path)))
      else if seen_no_worse visited airport total_price
      then Ok (Skipped (heap, visited))
      else
        heap ← cheapest_push cabin heap total_price current_time path
                 (graph_get graph airport);
        Ok (Expanded airport (heap, <[airport := total_price]> visited))
  end.

Definition cheapest_loop (fuel : nat) (graph : Graph) (dest : string) (cabin : string)
    (st : list (Z * Z * string * list Flight) * gmap string Z)
  : option (res (option Itinerary)) :=
  while_loop (cheapest_round graph dest cabin) fuel st.

Definition find_cheapest_itinerary (fuel : nat) (graph : Graph)
    (start dest : string) (earliest_departure : Z) (cabin : string)
  : option (res (option Itinerary)) :=
  cheapest_loop fuel graph dest cabin ([(0, earliest_departure, start, [])], ∅).

Definition earliest_expansions (fuel : nat) (graph : Graph) (dest : string)
    (st : list (Z * string * list Flight) * gmap string Z) : list string :=
  expansions (earliest_round graph dest) fuel st.

Definition cheapest_expansions (fuel : nat) (graph : Graph) (dest : string)
    (cabin : string) (st : list (Z * Z * string * list Flight) * gmap string Z)
  : list string :=
  expansions (cheapest_round graph dest cabin) fuel st.

(* ------------------------------------------------------------------ *)
(** ** Formatting the comparison table *)
(* ------------------------------------------------------------------ *)

Module ComparisonRow.

Record t : Type := mk {
  mode : string;
  cabin : option string;
  itinerary : option Itinerary;
  note : string
}.

End ComparisonRow.

Abbreviation ComparisonRow := ComparisonRow.t.

(** [c * n] for a string of one character. *)
Fixpoint repeat_char (c : ascii) (n : nat) : string :=
  match n with
  | O => EmptyString
  | S n' => String c (repeat_char c n')
  end.

(** [f"{s:width}"] for a string [s]: spaces are added on the right up
    to the width; a longer string is left as it is. *)
Definition pad (width : nat) (s : string) : string :=
  s +:+ repeat_char " " (width - String.length s).

(** [sep.join(lines)] *)
Fixpoint join (sep : string) (lines : list string) : string :=
  match lines with
  | [] => EmptyString
  | [l] => l
  | l :: rest => l +:+ sep +:+ join sep rest
  end.





(** The truth value of [row.cabin]: [None] and the empty string are
    false. *)
Definition cabin_given (cabin : option string) : option string :=
  match cabin with
  | Some EmptyString | None => None
  | Some c => Some c
  end.

(** [format_time] applied to a property of an itinerary, which is
    [None] on an itinerary without flights: the division then raises. *)
Definition format_time_of (time : option Z) : res string :=
  match time with
  | Some minutes => Ok (format_time minutes)
  | None => Raise (TypeError "unsupported operand type(s) for //: 'NoneType' and 'int'")
  end.

Definition header : string :=
  pad 20 "Mode" +:+ " " +:+ pad 10 "Cabin" +:+ " " +:+ pad 6 "Dep" +:+ " "
  +:+ pad 6 "Arr" +:+ " " +:+ pad 10 "Duration" +:+ " " +:+ pad 5 "Stops" +:+ " "
  +:+ pad 12 "Total Price" +:+ " " +:+ "Note".

(** The body of the [for row in rows] loop: the line of one row. *)
Definition table_line (row : ComparisonRow) : res string :=
  '(dep, arr, dur, stops, price) ←
    match ComparisonRow.itinerary row with
    | None => Ok ("N/A", "N/A", "N/A", "N/A", "N/A")
    | Some itin =>
        dep ← format_time_of (Itinerary.depart_time itin);
        arr ← format_time_of (Itinerary.arrive_time itin);
        duration_min ←
          match Itinerary.arrive_time itin, Itinerary.depart_time itin with
          | Some a, Some d => Ok (a - d)
          | _, _ => Raise (TypeError "unsupported operand type(s) for -")
          end;
        let dur := Py.str (duration_min / 60) +:+ "h"
                   +:+ Py.str (duration_min mod 60) +:+ "m" in
        let stops := Py.str (Itinerary.num_stops itin) in
        price ←
          match cabin_given (ComparisonRow.cabin row) with
          | Some cabin =>
              total ← Itinerary.total_price itin cabin;
              Ok (Py.str total)
          | None => Ok "N/A"
          end;
        Ok (dep, arr, dur, stops, price)
    end;
  let cabin_str := default "-" (cabin_given (ComparisonRow.cabin row)) in
  Ok (pad 20 (ComparisonRow.mode row) +:+ " " +:+ pad 10 cabin_str +:+ " "
      +:+ pad 6 dep +:+ " " +:+ pad 6 arr +:+ " " +:+ pad 10 dur +:+ " "
      +:+ pad 5 stops +:+ " " +:+ pad 12 price +:+ " " +:+ ComparisonRow.note row).

Fixpoint table_lines (rows : list ComparisonRow) : res (list string) :=
  match rows with
  | [] => Ok []
  | row :: rest =>
      line ← table_line row;
      lines ← table_lines rest;
      Ok (line :: lines)
  end.

(** The list [lines] at the end of [format_comparison_table]. *)
Definition comparison_lines (origin dest : string) (earliest_departure : Z)
    (rows : list ComparisonRow) : res (list string) :=
  body ← table_lines rows;
  Ok (("Route: " +:+ origin +:+ " -> " +:+ dest +:+ "  Earliest: "
       +:+ format_time earliest_departure)
      :: "" :: header :: repeat_char "-" (String.length header) :: body).

Definition format_comparison_table (origin dest : string) (earliest_departure : Z)
    (rows : list ComparisonRow) : res string :=
  lines ← comparison_lines origin dest earliest_departure rows;
  Ok (join (String "010" EmptyString) lines).

(* ------------------------------------------------------------------ *)
(** ** CLI wiring *)
(* ------------------------------------------------------------------ *)





(* ------------------------------------------------------------------ *)
(** ** What the searches are meant to compute *)
(* ------------------------------------------------------------------ *)

(** Adjacent legs connect, and the next leg leaves no sooner than the
    minimum layover after the previous one lands. *)
Fixpoint legs_chain (fs : list Flight) : Prop :=
  match fs with
  | a :: ((b :: _) as rest) =>
      Flight.dest a = Flight.origin b
      ∧ Flight.arrive a + MIN_LAYOVER_MINUTES ≤ Flight.depart b
      ∧ legs_chain rest
  | _ => True
  end.

(** An itinerary from [start] to [dest] that respects the earliest
    departure and the layovers. It has at least one leg. *)
Record itinerary_ok (start dest : string) (earliest_departure : Z)
    (fs : list Flight) : Prop := {
  ok_origin : Flight.origin <$> head fs = Some start;
  ok_dest : Flight.dest <$> last fs = Some dest;
  ok_first : ∀ f, head fs = Some f → earliest_departure ≤ Flight.depart f;
  ok_chain : legs_chain fs
}.

(** Every leg is a flight the graph lists under its origin. *)
Definition in_graph (g : Graph) (fs : list Flight) : Prop :=
  Forall (fun f => f ∈ graph_get g (Flight.origin f)) fs.

(** The record invariants of a loaded flight. *)
Definition times_valid (f : Flight) : Prop :=
  0 ≤ Flight.depart f ∧ Flight.depart f < Flight.arrive f ∧ Flight.arrive f < 1440.

Definition prices_nonneg (f : Flight) : Prop :=
  0 ≤ Flight.economy f ∧ 0 ≤ Flight.business f ∧ 0 ≤ Flight.first f.

Definition known_cabin (cabin : string) : Prop :=
  cabin = "economy" ∨ cabin = "business" ∨ cabin = "first".

(** Minutes since midnight of [h:m]. *)
Definition hm (h m : Z) : Z := h * 60 + m.

(* ------------------------------------------------------------------ *)
(** ** Schedules used as examples *)
(* ------------------------------------------------------------------ *)

Module Ex.

(** The schedule of the concrete scenario: A->B->C with a layover of
    exactly 60 minutes, and a direct A->C. *)
Definition ab : Flight := Flight.mk "A" "B" "F1" (hm 8 0) (hm 10 0) 100 200 300.
Definition bc : Flight := Flight.mk "B" "C" "F2" (hm 11 0) (hm 13 0) 50 100 150.
Definition ac : Flight := Flight.mk "A" "C" "F3" (hm 9 0) (hm 15 0) 200 250 300.
Definition scenario : Graph := build_graph [ab; bc; ac].

(** A round trip A->B->A. *)
Definition ba : Flight := Flight.mk "B" "A" "F4" (hm 11 0) (hm 12 0) 80 90 95.
Definition round_trip : Graph := build_graph [ab; ba].

(** Two flights that land in B at the same minute. *)
Definition ab' : Flight := Flight.mk "A" "B" "F5" (hm 8 30) (hm 10 0) 100 220 320.
Definition same_arrival : Graph := build_graph [ab; ab'].

(** A cheap flight that lands late and a dear one that lands early;
    only the early one connects to B->C. *)
Definition ab_cheap : Flight := Flight.mk "A" "B" "L1" (hm 8 0) (hm 12 0) 10 10 10.
Definition ab_early : Flight := Flight.mk "A" "B" "L2" (hm 8 0) (hm 9 0) 50 50 50.
Definition bc_early : Flight := Flight.mk "B" "C" "L3" (hm 10 0) (hm 11 0) 10 10 10.
Definition ac_dear : Flight := Flight.mk "A" "C" "L4" (hm 8 0) (hm 14 0) 100 100 100.
Definition late_bargain : Graph := build_graph [ab_cheap; ab_early; bc_early; ac_dear].
Definition no_direct : Graph := build_graph [ab_cheap; ab_early; bc_early].

(** A flight that lands before it leaves, with a negative price. *)
Definition loop_back : Flight := Flight.mk "A" "A" "X1" 100 0 (-1) (-1) (-1).
Definition backwards : Graph := build_graph [loop_back].

(** Flights with sound times, one of which has a negative price. *)
Definition ab5 : Flight := Flight.mk "A" "B" "R1" (hm 8 0) (hm 9 0) 5 5 5.
Definition ac6 : Flight := Flight.mk "A" "C" "R2" (hm 8 0) (hm 8 30) 6 6 6.
Definition cb_rebate : Flight := Flight.mk "C" "B" "R3" (hm 9 30) (hm 10 0) (-3) 1 1.
Definition rebate : Graph := build_graph [ab5; ac6; cb_rebate].

End Ex.

(** Files used as examples of loading. *)
Module ExLoad.
Definition path : string := "flights.txt".
Definition header : list string :=
  ["origin"; "dest"; "flight_number"; "depart"; "arrive";
   "economy"; "business"; "first"].
Definition good_record : list string :=
  ["ICN"; "SFO"; "KE23"; "08:00"; "19:30"; "500"; "1500"; "3000"].
Definition late_record : list string :=
  ["ICN"; "SFO"; "KE23"; "10:00"; "09:00"; "500"; "1500"; "3000"].
Definition out_of_range_record : list string :=
  ["ICN"; "SFO"; "KE23"; "25:00"; "19:30"; "500"; "1500"; "3000"].
(** An order in which the set of the required columns may be iterated. *)
Definition set_order : list string :=
  ["first"; "origin"; "arrive"; "dest"; "economy"; "depart";
   "flight_number"; "business"].
End ExLoad.

(* ------------------------------------------------------------------ *)
(** ** Fare lookup *)
(* ------------------------------------------------------------------ *)

(** C8. For each of the three cabins [price_for] answers the price
    field of that cabin, and for any other cabin value it raises a
    [ValueError] that names the value: there is no default price. *)
Theorem price_for_closed_set (f : Flight) (cabin : string) :
  Flight.price_for f "economy" = Ok (Flight.economy f)
  ∧ Flight.price_for f "business" = Ok (Flight.business f)
  ∧ Flight.price_for f "first" = Ok (Flight.first f)
  ∧ (¬ known_cabin cabin →
     Flight.price_for f cabin = Raise (ValueError ("Unknown cabin: " +:+ cabin))).
Proof.
  repeat split; try reflexivity.
  intros Hunknown. unfold Flight.price_for.
  destruct (String.eqb_spec cabin "economy") as [->|_].
  { exfalso. apply Hunknown. left. reflexivity. }
  destruct (String.eqb_spec cabin "business") as [->|_].
  { exfalso. apply Hunknown. right. left. reflexivity. }
  destruct (String.eqb_spec cabin "first") as [->|_].
  { exfalso. apply Hunknown. right. right. reflexivity. }
  reflexivity.
Qed.

Lemma price_for_closed_set_witness :
  ¬ known_cabin "premium"
  ∧ Flight.price_for Ex.ab "premium" = Raise (ValueError "Unknown cabin: premium").
Proof.
  assert (Hunknown : ¬ known_cabin "premium").
  { intros [H|[H|H]]; discriminate H. }
  split; [exact Hunknown|].
  exact (proj2 (proj2 (proj2 (price_for_closed_set Ex.ab "premium"))) Hunknown).
Defined.

(* ------------------------------------------------------------------ *)
(** ** Time helpers *)
(* ------------------------------------------------------------------ *)

Definition round_trips_at (n : nat) : bool :=
  bool_decide (parse_time (format_time (Z.of_nat n)) = Ok (Z.of_nat n)).

Lemma round_trips_all_day : forallb round_trips_at (seq 0 1440) = true.
Proof. vm_compute. reflexivity. Qed.

(** C9. Formatting a minute count of the day and parsing the text back
    gives the minute count again; neither function raises. *)
Theorem parse_format_time (m : Z) :
  0 ≤ m < 1440 → parse_time (format_time m) = Ok m.
Proof.
  intros Hm.
  pose proof round_trips_all_day as Hall.
  rewrite forallb_forall in Hall.
  specialize (Hall (Z.to_nat m)).
  unfold round_trips_at in Hall.
  rewrite Z2Nat.id in Hall by lia.
  eapply bool_decide_unpack, Is_true_true, Hall.
  apply in_seq. lia.
Qed.

Lemma parse_format_time_witness :
  0 ≤ 605 < 1440 ∧ parse_time (format_time 605) = Ok 605.
Proof. split; [lia | apply (parse_format_time 605); lia]. Defined.

(* ------------------------------------------------------------------ *)
(** ** Loading *)
(* ------------------------------------------------------------------ *)

Ltac unfold_bind := unfold mbind, res_bind in *.

(** The text of a time of day, in the words of the claim: an hour and
    a minute, written as integers on the two sides of one colon, the
    hour in [0,24) and the minute in [0,60); [t] is its minute of the
    day. *)
Definition time_text (s : string) (t : Z) : Prop :=
  ∃ hour minute h m,
    Py.split ":" (Py.strip s) = [hour; minute]
    ∧ Py.int hour = Ok h ∧ Py.int minute = Ok m
    ∧ 0 ≤ h < 24 ∧ 0 ≤ m < 60
    ∧ t = h * 60 + m.




Definition has_required_cols (fieldnames : list string) : Prop :=
  ∀ c, c ∈ required_cols → c ∈ fieldnames.

Lemma parse_time_ok_iff (s : string) (t : Z) :
  parse_time s = Ok t ↔ time_text s t.
Proof.
  unfold parse_time, time_text. split.
  - intros H.
    destruct (Py.split ":" (Py.strip s)) as [|hour [|minute [|? ?]]];
      try discriminate H.
    destruct (Py.int hour) as [h|] eqn:Hh; destruct (Py.int minute) as [m|] eqn:Hm;
      try discriminate H.
    destruct ((0 <=? h) && (h <? 24) && (0 <=? m) && (m <? 60)) eqn:Hrange;
      [|discriminate H].
    injection H as <-. exists hour, minute, h, m.
    repeat (apply andb_prop in Hrange as [Hrange ?]).
    repeat split; try done; lia.
  - intros (hour & minute & h & m & -> & -> & -> & Hh & Hm & ->).
    replace ((0 <=? h) && (h <? 24) && (0 <=? m) && (m <? 60)) with true; [done|].
    symmetry. repeat (apply andb_true_intro; split); lia.
Qed.


Lemma parse_time_range (hhmm : string) (t : Z) :
  parse_time hhmm = Ok t → 0 ≤ t < 1440.
Proof.
  intros (hour & minute & h & m & _ & _ & _ & Hh & Hm & ->)%parse_time_ok_iff.
  lia.
Qed.




Lemma parse_flight_line_txt_times (line : string) (f : Flight) :
  parse_flight_line_txt line = Ok (Some f) → times_valid f.
Proof.
  unfold parse_flight_line_txt. intros H.
  destruct (_ || _); [discriminate|].
  repeat (case_match; try discriminate). subst.
  unfold_bind.
  destruct (parse_time _) as [dep|] eqn:Hdep in H; [|discriminate].
  destruct (parse_time _) as [arr|] eqn:Harr in H; [|discriminate].
  destruct (arr <=? dep) eqn:Hle; [discriminate|].
  repeat (case_match; try discriminate). simplify_eq.
  apply parse_time_range in Hdep, Harr.
  unfold times_valid; simpl. lia.
Qed.

Lemma load_lines_ok (path : string) (lines : list string) :
  ∀ (lineno : Z) (acc flights : list Flight),
    load_lines path lineno lines acc = Ok flights →
    Forall times_valid acc →
    Forall times_valid flights
    ∧ ∀ line, line ∈ lines → is_ok (parse_flight_line_txt line) = true.
Proof.
  induction lines as [|l lines IH]; intros lineno acc flights H Hacc; simpl in H.
  - simplify_eq. split; [done|]. intros line Hin. by apply elem_of_nil in Hin.
  - destruct (parse_flight_line_txt l) as [[f|]|e] eqn:Hl.
    + apply IH in H as [Hfl Hall].
      * split; [done|]. intros line [->|Hin]%elem_of_cons; [by rewrite Hl|auto].
      * apply Forall_app. split; [done|].
        apply Forall_singleton. by eapply parse_flight_line_txt_times.
    + apply IH in H as [Hfl Hall]; [|done].
      split; [done|]. intros line [->|Hin]%elem_of_cons; [by rewrite Hl|auto].
    + destruct e; discriminate.
Qed.

Lemma load_lines_first_error (path : string) (pre : list string) :
  ∀ (lineno : Z) (acc : list Flight) (bad : string) (post : list string)
    (msg : string),
    Forall (fun line => is_ok (parse_flight_line_txt line) = true) pre →
    parse_flight_line_txt bad = Raise (ValueError msg) →
    load_lines path lineno (pre ++ bad :: post) acc
    = Raise (ValueError (path +:+ ":"
                         +:+ Py.str (lineno + Z.of_nat (length pre))
                         +:+ ": " +:+ msg)).
Proof.
  induction pre as [|l pre IH]; intros lineno acc bad post msg Hall Hbad;
    cbn [app load_lines].
  - rewrite Hbad. cbn [length]. by rewrite Z.add_0_r.
  - apply Forall_cons in Hall as [Hl Hall].
    replace (lineno + Z.of_nat (length (l :: pre)))
      with (lineno + 1 + Z.of_nat (length pre)) by (cbn [length]; lia).
    destruct (parse_flight_line_txt l) as [[f|]|e]; [| |discriminate Hl];
      by rewrite (IH _ _ _ _ _ Hall Hbad).
Qed.








Lemma load_rows_all_ok (rows : list csv.dict) :
  ∀ (acc : list Flight) (flights : list Flight),
    Forall2 (fun row flight => flight_of_row row = Some (Ok flight)) rows flights →
    load_rows rows acc = Some (Ok (acc ++ flights)).
Proof.
  induction rows as [|r rows IH]; intros acc flights Hall.
  - apply Forall2_nil_inv_l in Hall as ->. simpl. by rewrite app_nil_r.
  - apply Forall2_cons_inv_l in Hall as (f & fs & Hr & Hall & ->).
    simpl. rewrite Hr. rewrite (IH _ _ Hall). by rewrite <- app_assoc.
Qed.

Lemma load_rows_first_error (pre : list csv.dict) :
  ∀ (acc : list Flight) (bad : csv.dict) (post : list csv.dict) (e : exn),
    Forall (fun row => ∃ flight, flight_of_row row = Some (Ok flight)) pre →
    flight_of_row bad = Some (Raise e) →
    load_rows (pre ++ bad :: post) acc = Some (Raise e).
Proof.
  induction pre as [|r pre IH]; intros acc bad post e Hall Hbad; simpl.
  - by rewrite Hbad.
  - apply Forall_cons in Hall as [[f Hr] Hall]. rewrite Hr. by apply IH.
Qed.

Lemma required_cols_check (fieldnames : list string) :
  forallb (fun c => bool_decide (c ∈ fieldnames)) required_cols = true
  ↔ has_required_cols fieldnames.
Proof.
  rewrite forallb_forall. unfold has_required_cols. split.
  - intros H c Hc. apply list_elem_of_In, H in Hc.
    by apply bool_decide_eq_true in Hc.
  - intros H c Hc. apply list_elem_of_In, H in Hc.
    by apply bool_decide_eq_true.
Qed.















(* ------------------------------------------------------------------ *)
(** ** The heap queue keeps its items and its order *)
(* ------------------------------------------------------------------ *)

Lemma take_out_insert {A : Type} (l : list A) :
  ∀ (j : nat) (x y : A), l !! j = Some y → y :: <[j := x]> l ≡ₚ x :: l.
Proof.
  induction l as [|a l IH]; intros [|j] x y Hj; simplify_eq/=.
  - apply perm_swap.
  - rewrite perm_swap. rewrite (IH j x y Hj). apply perm_swap.
Qed.

Lemma insert_swap_perm {A : Type} (l : list A) (i j : nat) (x y : A) :
  l !! i = Some x → l !! j = Some y → <[j := x]> (<[i := y]> l) ≡ₚ l.
Proof.
  intros Hi Hj. destruct (decide (i = j)) as [->|Hne].
  - simplify_eq. rewrite list_insert_insert_eq. by rewrite list_insert_id.
  - apply (Permutation_cons_inv (a := y)).
    rewrite (take_out_insert (<[i := y]> l) j x y)
      by (by rewrite list_lookup_insert_ne).
    by apply take_out_insert.
Qed.

Section heap_facts.
Context {A : Type} (lt : A → A → res bool) (R : A → A → Prop).
Hypothesis R_refl : ∀ a, R a a.
Hypothesis R_trans : ∀ a b c, R a b → R b c → R a c.
Hypothesis lt_true : ∀ a b, lt a b = Ok true → R a b.
Hypothesis lt_false : ∀ a b, lt a b = Ok false → R b a.

(** An exception that leaves the queue comes from a comparison. *)
Definition lt_raises (e : exn) : Prop := ∃ a b, lt a b = Raise e.

Definition child_of (p k : nat) : Prop := (k = 2 * p + 1 ∨ k = 2 * p + 2)%nat.

(** The heap invariant: no item is before its parent in the order. *)
Definition heap_ordered (h : list A) : Prop :=
  ∀ p k x y, child_of p k → h !! p = Some x → h !! k = Some y → R x y.

(** The invariant while the item at [pos] is in transit: the pairs
    away from [pos] are in order, and so is every child of [pos] with
    the parent of [pos]. *)
Definition hole_ok (h : list A) (pos : nat) : Prop :=
  (∀ p k x y, child_of p k → p ≠ pos → k ≠ pos →
              h !! p = Some x → h !! k = Some y → R x y)
  ∧ (∀ g k x y, child_of g pos → child_of pos k →
                h !! g = Some x → h !! k = Some y → R x y).

Definition below (item : A) (h : list A) (pos : nat) : Prop :=
  ∀ k y, child_of pos k → h !! k = Some y → R item y.

Lemma parent_child (pos : nat) : (0 < pos)%nat → child_of ((pos - 1) / 2) pos.
Proof.
  intros Hpos. unfold child_of.
  pose proof (Nat.div_mod_eq (pos - 1) 2) as Hdiv.
  pose proof (Nat.mod_upper_bound (pos - 1) 2) as Hmod.
  lia.
Qed.

Lemma heap_ordered_hole (h : list A) (pos : nat) :
  heap_ordered h → hole_ok h pos.
Proof.
  intros Hord. split.
  - intros p k x y Hc _ _. by apply Hord.
  - intros g k x y Hg Hk Hx Hy.
    destruct (lookup_lt_is_Some_2 h pos) as [z Hz].
    { apply lookup_lt_Some in Hy. unfold child_of in Hk. lia. }
    eapply R_trans; [by eapply (Hord g pos)|by eapply (Hord pos k)].
Qed.

(** Putting an item into the hole that fits between the parent and
    the children restores the order. *)
Lemma fill_hole (h : list A) (pos : nat) (item : A) :
  hole_ok h pos →
  below item h pos →
  (∀ g x, child_of g pos → h !! g = Some x → R x item) →
  heap_ordered (<[pos := item]> h).
Proof.
  intros [Haway _] Hbelow Habove p k x y Hc Hp Hk.
  apply list_lookup_insert_Some in Hp, Hk.
  destruct Hp as [(-> & -> & Hlen)|[Hp1 Hp2]];
    destruct Hk as [(Hk0 & -> & _)|[Hk1 Hk2]].
  - unfold child_of in Hc. lia.
  - by eapply Hbelow.
  - subst k. by eapply Habove.
  - by eapply Haway.
Qed.

(** One round of [_siftdown]: the parent comes down into the hole. *)
Lemma hole_up (h : list A) (pos p : nat) (parent item : A) :
  child_of p pos →
  h !! p = Some parent →
  (pos < length h)%nat →
  hole_ok h pos →
  below item h pos →
  R item parent →
  hole_ok (<[pos := parent]> h) p ∧ below item (<[pos := parent]> h) p.
Proof.
  intros Hc Hp Hlen [Haway Hgrand] Hbelow Hitem.
  assert (Hne : p ≠ pos) by (unfold child_of in Hc; lia).
  split; [split|].
  - intros q k x y Hqk Hq Hk Hx Hy.
    apply list_lookup_insert_Some in Hx, Hy.
    destruct Hx as [(-> & -> & _)|[Hx1 Hx2]];
      destruct Hy as [(Hk0 & -> & _)|[Hy1 Hy2]].
    + unfold child_of in Hqk. lia.
    + by eapply (Hgrand p k).
    + subst k. unfold child_of in Hc, Hqk. lia.
    + by eapply Haway.
  - intros g k x y Hg Hk Hx Hy.
    assert (Hgne : g ≠ pos) by (unfold child_of in Hc, Hg; lia).
    rewrite list_lookup_insert_ne in Hx by done.
    assert (Hgp : R x parent) by (by eapply (Haway g p)).
    apply list_lookup_insert_Some in Hy.
    destruct Hy as [(_ & -> & _)|[Hy1 Hy2]]; [done|].
    eapply R_trans; [exact Hgp|]. by eapply (Haway p k).
  - intros k y Hk Hy.
    apply list_lookup_insert_Some in Hy.
    destruct Hy as [(_ & -> & _)|[Hy1 Hy2]]; [done|].
    eapply R_trans; [exact Hitem|]. by eapply (Haway p k).
Qed.

(** One round of [_siftup]: the smaller child comes up into the hole. *)
Lemma hole_down (h : list A) (pos c : nat) (child : A) :
  child_of pos c →
  h !! c = Some child →
  (∀ s y, child_of pos s → h !! s = Some y → R child y) →
  hole_ok h pos →
  hole_ok (<[pos := child]> h) c.
Proof.
  intros Hc Hchild Hmin [Haway Hgrand].
  assert (Hne : c ≠ pos) by (unfold child_of in Hc; lia).
  assert (Hlen : (pos < length h)%nat).
  { apply lookup_lt_Some in Hchild. unfold child_of in Hc. lia. }
  split.
  - intros q k x y Hqk Hq Hk Hx Hy.
    apply list_lookup_insert_Some in Hx, Hy.
    destruct Hx as [(-> & -> & _)|[Hx1 Hx2]];
      destruct Hy as [(Hk0 & -> & _)|[Hy1 Hy2]].
    + unfold child_of in Hqk. lia.
    + by eapply Hmin.
    + subst k. by eapply (Hgrand q c).
    + by eapply Haway.
  - intros g k x y Hg Hk Hx Hy.
    assert (g = pos) as -> by (unfold child_of in Hc, Hg; lia).
    rewrite list_lookup_insert_eq in Hx by done. simplify_eq.
    rewrite list_lookup_insert_ne in Hy by (unfold child_of in Hc, Hk; lia).
    eapply (Haway c k); try done. unfold child_of in Hc, Hk; lia.
Qed.

Lemma siftdown_loop_spec (fuel : nat) :
  ∀ (heap : list A) (pos : nat) (item : A),
    (pos < length heap)%nat →
    (pos ≤ fuel)%nat →
    match heapq.siftdown_loop lt fuel heap 0 pos item with
    | Ok h' =>
        h' ≡ₚ <[pos := item]> heap
        ∧ (hole_ok heap pos → below item heap pos → heap_ordered h')
    | Raise e => lt_raises e
    end.
Proof.
  induction fuel as [|fuel IH]; intros heap pos item Hlen Hfuel;
    cbn [heapq.siftdown_loop].
  - split; [done|]. intros Hhole Hbelow.
    apply fill_hole; [done..|]. intros g x Hg. unfold child_of in Hg. lia.
  - destruct (decide (0 < pos)%nat) as [Hpos|Hpos]; last first.
    { split; [done|]. intros Hhole Hbelow.
      apply fill_hole; [done..|]. intros g x Hg. unfold child_of in Hg. lia. }
    pose proof (parent_child pos Hpos) as Hchild.
    set (p := ((pos - 1) / 2)%nat) in *.
    assert (Hp : (p < pos)%nat) by (unfold child_of in Hchild; lia).
    destruct (lookup_lt_is_Some_2 heap p) as [parent Hparent]; [lia|].
    unfold heapq.getitem. rewrite Hparent. unfold_bind.
    destruct (lt item parent) as [[|]|e] eqn:Hlt.
    + specialize (IH (<[pos := parent]> heap) p item).
      rewrite length_insert in IH.
      specialize (IH ltac:(lia) ltac:(lia)).
      destruct (heapq.siftdown_loop _ _ _ _ _ _) as [h'|e]; [|done].
      destruct IH as [Hperm Hord]. split.
      * rewrite Hperm.
        rewrite <- (list_insert_insert_eq heap pos parent item).
        apply insert_swap_perm.
        -- by apply list_lookup_insert_eq.
        -- rewrite list_lookup_insert_ne by lia. done.
      * intros Hhole Hbelow.
        destruct (hole_up heap pos p parent item) as [Hhole' Hbelow']; auto.
    + split; [done|]. intros Hhole Hbelow.
      apply fill_hole; [done..|]. intros g x Hg Hx.
      assert (g = p) as -> by (unfold child_of in Hg, Hchild; lia).
      simplify_eq. auto.
    + by exists item, parent.
Qed.

Lemma siftdown_spec (heap : list A) (pos : nat) (item : A) :
  heap !! pos = Some item →
  match heapq.siftdown lt heap 0 pos with
  | Ok h' =>
      h' ≡ₚ heap ∧ (hole_ok heap pos → below item heap pos → heap_ordered h')
  | Raise e => lt_raises e
  end.
Proof.
  intros Hitem. unfold heapq.siftdown, heapq.getitem. rewrite Hitem. simpl.
  unfold_bind.
  pose proof (siftdown_loop_spec pos heap pos item) as Hspec.
  apply lookup_lt_Some in Hitem as Hlen.
  specialize (Hspec Hlen ltac:(lia)).
  destruct (heapq.siftdown_loop _ _ _ _ _ _) as [h'|e]; [|done].
  by rewrite list_insert_id in Hspec.
Qed.

Lemma heappush_spec (heap : list A) (item : A) :
  match heapq.heappush lt heap item with
  | Ok h' => h' ≡ₚ item :: heap ∧ (heap_ordered heap → heap_ordered h')
  | Raise e => lt_raises e
  end.
Proof.
  unfold heapq.heappush.
  pose proof (siftdown_spec (heap ++ [item]) (length heap) item) as Hspec.
  rewrite lookup_app_r, Nat.sub_diag in Hspec by lia.
  specialize (Hspec eq_refl).
  destruct (heapq.siftdown _ _ _ _) as [h'|e]; [|done].
  destruct Hspec as [Hperm Hord]. split.
  - rewrite Hperm. by rewrite Permutation_app_comm.
  - intros Hheap. apply Hord.
    + split.
      * intros p k x y Hc Hp Hk Hx Hy.
        apply lookup_lt_Some in Hx as Hpl, Hy as Hkl.
        rewrite length_app in Hpl, Hkl. simpl in Hpl, Hkl.
        rewrite lookup_app_l in Hx, Hy by lia. by eapply Hheap.
      * intros g k x y _ Hk _ Hy. apply lookup_lt_Some in Hy.
        rewrite length_app in Hy. simpl in Hy. unfold child_of in Hk. lia.
    + intros k y Hk Hy. apply lookup_lt_Some in Hy.
      rewrite length_app in Hy. simpl in Hy. unfold child_of in Hk. lia.
Qed.

Lemma siftup_loop_spec (fuel : nat) :
  ∀ (heap : list A) (pos : nat),
    (pos < length heap)%nat →
    (length heap - pos ≤ fuel)%nat →
    match heapq.siftup_loop lt fuel heap (length heap) pos with
    | Ok (h', pos') =>
        length h' = length heap
        ∧ (pos' < length heap)%nat
        ∧ (∀ x, <[pos' := x]> h' ≡ₚ <[pos := x]> heap)
        ∧ (hole_ok heap pos →
           hole_ok h' pos' ∧ ∀ k, child_of pos' k → (length heap ≤ k)%nat)
    | Raise e => lt_raises e
    end.
Proof.
  induction fuel as [|fuel IH]; intros heap pos Hlen Hfuel;
    cbn [heapq.siftup_loop]; [lia|].
  destruct (decide (2 * pos + 1 < length heap)%nat) as [Hleft|Hleft]; last first.
  { split; [done|]. split; [done|]. split; [done|].
    intros Hhole. split; [done|]. intros k Hk. unfold child_of in Hk. lia. }
  destruct (lookup_lt_is_Some_2 heap (2 * pos + 1)) as [l Hl]; [lia|].
  unfold_bind.
  (* the smaller child [c] at [cpos] *)
  assert (Hpick :
    match
      (if decide (2 * pos + 1 + 1 < length heap)%nat
       then match heapq.getitem heap (2 * pos + 1) with
            | Ok l => match heapq.getitem heap (2 * pos + 1 + 1) with
                      | Ok r => match lt l r with
                                | Ok b => Ok (if b : bool then (2 * pos + 1)%nat
                                              else (2 * pos + 1 + 1)%nat)
                                | Raise e => Raise e
                                end
                      | Raise e => Raise e
                      end
            | Raise e => Raise e
            end
       else Ok (2 * pos + 1)%nat)
    with
    | Ok cpos =>
        child_of pos cpos
        ∧ ∃ c, heap !! cpos = Some c
               ∧ ∀ s y, child_of pos s → heap !! s = Some y → R c y
    | Raise e => lt_raises e
    end).
  { destruct (decide (2 * pos + 1 + 1 < length heap)%nat) as [Hright|Hright].
    - destruct (lookup_lt_is_Some_2 heap (2 * pos + 1 + 1)) as [r Hr]; [lia|].
      unfold heapq.getitem. rewrite Hl, Hr.
      destruct (lt l r) as [[|]|e] eqn:Hlt; [| |by exists l, r].
      + split; [left; lia|]. exists l. split; [done|].
        intros s y [->| ->] Hy; simplify_eq; [done|].
        replace (2 * pos + 2)%nat with (2 * pos + 1 + 1)%nat in Hy by lia.
        simplify_eq. auto.
      + split; [right; lia|]. exists r. split; [done|].
        intros s y [->| ->] Hy; simplify_eq; [auto|].
        replace (2 * pos + 2)%nat with (2 * pos + 1 + 1)%nat in Hy by lia.
        simplify_eq. done.
    - split; [left; lia|]. exists l. split; [done|].
      intros s y [->| ->] Hy; simplify_eq; [done|].
      apply lookup_lt_Some in Hy. lia. }
  destruct (if decide (2 * pos + 1 + 1 < length heap)%nat then _ else _)
    as [cpos|e]; [|done].
  destruct Hpick as (Hc & c & Hcpos & Hmin).
  unfold heapq.getitem. rewrite Hcpos.
  apply lookup_lt_Some in Hcpos as Hclen.
  assert (Hcne : cpos ≠ pos) by (unfold child_of in Hc; lia).
  specialize (IH (<[pos := c]> heap) cpos).
  rewrite length_insert in IH.
  specialize (IH Hclen ltac:(unfold child_of in Hc; lia)).
  destruct (heapq.siftup_loop _ _ _ _ _) as [[h' pos']|e]; [|done].
  destruct IH as (Hlen' & Hpos' & Hperm & Hord).
  split; [done|]. split; [done|]. split.
  - intros x. rewrite Hperm.
    rewrite <- (list_insert_insert_eq heap pos c x).
    apply insert_swap_perm.
    + by apply list_lookup_insert_eq.
    + by rewrite list_lookup_insert_ne.
  - intros Hhole. apply Hord. by eapply hole_down.
Qed.

Lemma hole_ok_insert (h : list A) (pos : nat) (x : A) :
  hole_ok h pos → hole_ok (<[pos := x]> h) pos.
Proof.
  intros [Haway Hgrand]. split.
  - intros p k a b Hc Hp Hk Ha Hb.
    rewrite list_lookup_insert_ne in Ha, Hb by done. by eapply Haway.
  - intros g k a b Hg Hk Ha Hb.
    rewrite list_lookup_insert_ne in Ha, Hb by (unfold child_of in *; lia).
    by eapply Hgrand.
Qed.

Lemma siftup_spec (heap : list A) :
  heap ≠ [] →
  match heapq.siftup lt heap 0 with
  | Ok h' => h' ≡ₚ heap ∧ (hole_ok heap 0 → heap_ordered h')
  | Raise e => lt_raises e
  end.
Proof.
  intros Hne. destruct heap as [|item heap]; [done|].
  unfold heapq.siftup. cbn [heapq.getitem lookup list_lookup]. unfold_bind.
  pose proof (siftup_loop_spec (length (item :: heap) - 0) (item :: heap) 0)
    as Hloop.
  specialize (Hloop ltac:(simpl; lia) ltac:(lia)).
  destruct (heapq.siftup_loop _ _ _ _ _) as [[h1 p1]|e]; [|done].
  destruct Hloop as (Hlen1 & Hp1 & Hperm1 & Hord1).
  pose proof (siftdown_spec (<[p1 := item]> h1) p1 item) as Hdown.
  rewrite list_lookup_insert_eq in Hdown by lia.
  specialize (Hdown eq_refl).
  destruct (heapq.siftdown _ _ _ _) as [h'|e]; [|done].
  destruct Hdown as [Hperm Hord]. split.
  - rewrite Hperm, Hperm1. done.
  - intros Hhole. destruct (Hord1 Hhole) as [Hhole1 Hleaf].
    apply Hord.
    + by apply hole_ok_insert.
    + intros k y Hk Hy. apply lookup_lt_Some in Hy.
      rewrite length_insert, Hlen1 in Hy. apply Hleaf in Hk. lia.
Qed.

Lemma root_least (h : list A) (root : A) :
  heap_ordered h → h !! 0%nat = Some root → ∀ y, y ∈ h → R root y.
Proof.
  intros Hord Hroot y [k Hk]%list_elem_of_lookup.
  revert y Hk. induction (lt_wf k) as [k _ IH]. intros y Hk.
  destruct k as [|k]; [by simplify_eq|].
  pose proof (parent_child (S k) ltac:(lia)) as Hc.
  destruct (lookup_lt_is_Some_2 h ((S k - 1) / 2)) as [z Hz].
  { apply lookup_lt_Some in Hk. unfold child_of in Hc. lia. }
  eapply R_trans; [|by eapply Hord].
  eapply IH; [|done]. unfold child_of in Hc. lia.
Qed.

Lemma heappop_spec (heap : list A) :
  heap ≠ [] →
  match heapq.heappop lt heap with
  | Ok (x, h') =>
      heap ≡ₚ x :: h'
      ∧ (heap_ordered heap → heap_ordered h' ∧ ∀ y, y ∈ heap → R x y)
  | Raise e => lt_raises e
  end.
Proof.
  intros Hne. unfold heapq.heappop.
  destruct (exists_last Hne) as (front & lastelt & ->).
  rewrite last_snoc, removelast_last.
  destruct front as [|returnitem rest].
  - split; [done|]. intros _. split.
    + intros p k x y _ Hx. done.
    + intros y ->%list_elem_of_singleton. done.
  - unfold_bind.
    pose proof (siftup_spec (lastelt :: rest) ltac:(done)) as Hup.
    destruct (heapq.siftup _ _ _) as [h'|e]; [|done].
    destruct Hup as [Hperm Hord]. split.
    + rewrite Hperm. simpl. apply perm_skip. symmetry.
      apply Permutation_cons_append.
    + intros Hheap. split.
      * apply Hord.
        change (lastelt :: rest) with (<[0%nat := lastelt]> (returnitem :: rest)).
        apply hole_ok_insert, heap_ordered_hole.
        intros p k x y Hc Hx Hy.
        eapply Hheap; [done| |]; by apply lookup_app_l_Some.
      * by apply root_least.
Qed.

End heap_facts.

(* ------------------------------------------------------------------ *)
(** ** The graph lists each flight under its origin *)
(* ------------------------------------------------------------------ *)

Lemma graph_get_insert (g : Graph) (a b : string) (fs : list Flight) :
  graph_get (<[a := fs]> g) b = if decide (a = b) then fs else graph_get g b.
Proof.
  unfold graph_get. destruct (decide (a = b)) as [->|Hne].
  - by rewrite lookup_insert_eq.
  - by rewrite lookup_insert_ne.
Qed.

Lemma build_graph_from (flights : list Flight) :
  ∀ (g : Graph) (a : string) (f : Flight),
    f ∈ graph_get
          (foldl (fun g f => <[Flight.origin f := graph_get g (Flight.origin f) ++ [f]]> g)
                 g flights) a
    ↔ f ∈ graph_get g a ∨ (f ∈ flights ∧ Flight.origin f = a).
Proof.
  induction flights as [|f' flights IH]; intros g a f; simpl.
  - rewrite elem_of_nil. tauto.
  - rewrite IH, graph_get_insert, elem_of_cons.
    destruct (decide (Flight.origin f' = a)) as [<-|Hne].
    + rewrite elem_of_app, list_elem_of_singleton. split.
      * intros [[H| ->]|[H1 H2]]; auto.
      * intros [H|[[->|H1] H2]]; auto.
    + split.
      * intros [H|[H1 H2]]; auto.
      * intros [H|[[->|H1] H2]]; auto; done.
Qed.

Lemma elem_of_build_graph (flights : list Flight) (a : string) (f : Flight) :
  f ∈ graph_get (build_graph flights) a ↔ f ∈ flights ∧ Flight.origin f = a.
Proof.
  unfold build_graph. rewrite build_graph_from.
  unfold graph_get at 1. rewrite lookup_empty. simpl. rewrite elem_of_nil. tauto.
Qed.

(** Every flight is listed under its own origin. *)
Definition well_keyed (g : Graph) : Prop :=
  ∀ a f, f ∈ graph_get g a → Flight.origin f = a.

Lemma build_graph_well_keyed (flights : list Flight) : well_keyed (build_graph flights).
Proof. intros a f Hin. by apply elem_of_build_graph in Hin as [_ ?]. Qed.

(* ------------------------------------------------------------------ *)
(** ** The paths the searches build *)
(* ------------------------------------------------------------------ *)

(** [route g start ed path airport time]: the search can hold [path],
    which ends in [airport] at [time]. *)
Inductive route (g : Graph) (start : string) (ed : Z)
  : list Flight → string → Z → Prop :=
  | route_nil : route g start ed [] start ed
  | route_snoc (path : list Flight) (airport : string) (time : Z) (f : Flight) :
      route g start ed path airport time →
      f ∈ graph_get g airport →
      layover_ok path time f = true →
      route g start ed (path ++ [f]) (Flight.dest f) (Flight.arrive f).

Lemma legs_chain_snoc (fs : list Flight) (f : Flight) :
  legs_chain (fs ++ [f])
  ↔ legs_chain fs
    ∧ ∀ l, last fs = Some l →
           Flight.dest l = Flight.origin f
           ∧ Flight.arrive l + MIN_LAYOVER_MINUTES ≤ Flight.depart f.
Proof.
  induction fs as [|a [|b fs] IH].
  - simpl. split; [|done]. intros _. split; [done|]. intros l Hl. discriminate Hl.
  - simpl. split.
    + intros (? & ? & _). split; [done|]. intros l [= <-]. done.
    + intros [_ H]. destruct (H a eq_refl). done.
  - change (legs_chain ((a :: b :: fs) ++ [f]))
      with (Flight.dest a = Flight.origin b
            ∧ Flight.arrive a + MIN_LAYOVER_MINUTES ≤ Flight.depart b
            ∧ legs_chain ((b :: fs) ++ [f])).
    change (legs_chain (a :: b :: fs))
      with (Flight.dest a = Flight.origin b
            ∧ Flight.arrive a + MIN_LAYOVER_MINUTES ≤ Flight.depart b
            ∧ legs_chain (b :: fs)).
    rewrite IH, last_cons_cons. tauto.
Qed.

Lemma route_end (g : Graph) (start : string) (ed : Z)
    (path : list Flight) (airport : string) (time : Z) :
  route g start ed path airport time →
  match last path with
  | Some l => Flight.dest l = airport ∧ Flight.arrive l = time
  | None => airport = start ∧ time = ed
  end.
Proof. intros [|p a t f _ _ _]; [done|]. by rewrite last_snoc. Qed.

Lemma layover_ok_spec (path : list Flight) (time : Z) (f : Flight) :
  layover_ok path time f = true
  ↔ match path with
    | [] => time ≤ Flight.depart f
    | _ => time + MIN_LAYOVER_MINUTES ≤ Flight.depart f
    end.
Proof. unfold layover_ok. destruct path; apply Z.leb_le. Qed.

(** A path of the search is an itinerary in the sense of the
    specification, provided the graph lists flights under their
    origins. *)
Lemma route_itinerary (g : Graph) (start : string) (ed : Z)
    (path : list Flight) (airport : string) (time : Z) :
  well_keyed g →
  route g start ed path airport time →
  path ≠ [] →
  itinerary_ok start airport ed path ∧ in_graph g path.
Proof.
  intros Hkeyed Hroute. induction Hroute as [|p a t f Hp IH Hf Hlay]; [done|].
  intros _. pose proof (route_end _ _ _ _ _ _ Hp) as Hend.
  apply layover_ok_spec in Hlay. apply Hkeyed in Hf as Horigin.
  destruct p as [|f0 p].
  - destruct Hend as [-> ->]. split; [split|]; simpl.
    + by rewrite Horigin.
    + done.
    + intros ? [= <-]. done.
    + done.
    + apply Forall_singleton. by rewrite Horigin.
  - destruct (IH ltac:(done)) as [[Ho Hd Hfirst Hchain] Hin].
    destruct (last (f0 :: p)) as [l|] eqn:Hlast; [|by destruct Hend].
    destruct Hend as [Hdest Harr]. split; [split|].
    + done.
    + by rewrite last_snoc.
    + done.
    + apply legs_chain_snoc. split; [done|]. rewrite Hlast.
      intros ? [= <-]. split; [congruence|lia].
    + apply Forall_app. split; [done|]. apply Forall_singleton. by rewrite Horigin.
Qed.

(* ------------------------------------------------------------------ *)
(** ** The comparisons of the queue entries *)
(* ------------------------------------------------------------------ *)

Definition time_le (x y : Z * string * list Flight) : Prop := x.1.1 ≤ y.1.1.

Definition price_le (x y : Z * Z * string * list Flight) : Prop :=
  x.1.1.1 ≤ y.1.1.1.

Lemma path_lt_raises (p q : list Flight) (e : exn) :
  path_lt p q = Raise e → e = Flight.no_order.
Proof.
  revert q. induction p as [|a p IH]; intros [|b q] H; simpl in H; try discriminate.
  destruct (decide (a = b)); [eauto|]. unfold Flight.lt in H. congruence.
Qed.

Lemma earliest_lt_true x y : earliest_lt x y = Ok true → time_le x y.
Proof.
  destruct x as [[t1 a1] p1], y as [[t2 a2] p2]. unfold earliest_lt, time_le. simpl.
  destruct (t1 =? t2) eqn:Ht; simpl; [lia|]. intros [= H]. lia.
Qed.

Lemma earliest_lt_false x y : earliest_lt x y = Ok false → time_le y x.
Proof.
  destruct x as [[t1 a1] p1], y as [[t2 a2] p2]. unfold earliest_lt, time_le. simpl.
  destruct (t1 =? t2) eqn:Ht; simpl; [lia|]. intros [= H]. lia.
Qed.

Lemma earliest_lt_raises (e : exn) : lt_raises earliest_lt e → e = Flight.no_order.
Proof.
  intros ([[t1 a1] p1] & [[t2 a2] p2] & H). unfold earliest_lt in H.
  repeat (case_match; try discriminate). by eapply path_lt_raises.
Qed.

Lemma cheapest_lt_true x y : cheapest_lt x y = Ok true → price_le x y.
Proof.
  destruct x as [[[c1 t1] a1] p1], y as [[[c2 t2] a2] p2].
  unfold cheapest_lt, price_le. simpl.
  destruct (c1 =? c2) eqn:Hc; simpl; [lia|]. intros [= H]. lia.
Qed.

Lemma cheapest_lt_false x y : cheapest_lt x y = Ok false → price_le y x.
Proof.
  destruct x as [[[c1 t1] a1] p1], y as [[[c2 t2] a2] p2].
  unfold cheapest_lt, price_le. simpl.
  destruct (c1 =? c2) eqn:Hc; simpl; [lia|]. intros [= H]. lia.
Qed.

Lemma cheapest_lt_raises (e : exn) : lt_raises cheapest_lt e → e = Flight.no_order.
Proof.
  intros ([[[c1 t1] a1] p1] & [[[c2 t2] a2] p2] & H). unfold cheapest_lt in H.
  case_match; [discriminate|].
  apply earliest_lt_raises. by exists (t1, a1, p1), (t2, a2, p2).
Qed.

Lemma time_le_refl x : time_le x x.
Proof. unfold time_le. lia. Qed.

Lemma time_le_trans x y z : time_le x y → time_le y z → time_le x z.
Proof. unfold time_le. lia. Qed.

Lemma price_le_refl x : price_le x x.
Proof. unfold price_le. lia. Qed.

Lemma price_le_trans x y z : price_le x y → price_le y z → price_le x z.
Proof. unfold price_le. lia. Qed.

(** A pop takes one item out; on an ordered heap it is a least one. *)
Definition popped {X : Type} (R : X → X → Prop) (heap : list X) (x : X)
    (rest : list X) : Prop :=
  heap ≡ₚ x :: rest
  ∧ (heap_ordered R heap → heap_ordered R rest ∧ ∀ y, y ∈ heap → R x y).

(** Pushes add the new items and keep the order. *)
Definition pushed {X : Type} (R : X → X → Prop) (heap : list X) (new : list X)
    (heap' : list X) : Prop :=
  heap' ≡ₚ new ++ heap ∧ (heap_ordered R heap → heap_ordered R heap').

Lemma earliest_heappop (heap : list (Z * string * list Flight)) :
  heap ≠ [] →
  match heapq.heappop earliest_lt heap with
  | Ok (x, rest) => popped time_le heap x rest
  | Raise e => e = Flight.no_order
  end.
Proof.
  intros Hne.
  pose proof (heappop_spec earliest_lt time_le time_le_refl time_le_trans
                earliest_lt_true earliest_lt_false heap Hne) as H.
  destruct (heapq.heappop _ _) as [[x rest]|e]; [done|].
  by apply earliest_lt_raises.
Qed.

Lemma earliest_heappush (heap : list (Z * string * list Flight)) item :
  match heapq.heappush earliest_lt heap item with
  | Ok heap' => pushed time_le heap [item] heap'
  | Raise e => e = Flight.no_order
  end.
Proof.
  pose proof (heappush_spec earliest_lt time_le time_le_trans
                earliest_lt_true earliest_lt_false heap item) as H.
  destruct (heapq.heappush _ _ _) as [heap'|e]; [done|].
  by apply earliest_lt_raises.
Qed.

Lemma cheapest_heappop (heap : list (Z * Z * string * list Flight)) :
  heap ≠ [] →
  match heapq.heappop cheapest_lt heap with
  | Ok (x, rest) => popped price_le heap x rest
  | Raise e => e = Flight.no_order
  end.
Proof.
  intros Hne.
  pose proof (heappop_spec cheapest_lt price_le price_le_refl price_le_trans
                cheapest_lt_true cheapest_lt_false heap Hne) as H.
  destruct (heapq.heappop _ _) as [[x rest]|e]; [done|].
  by apply cheapest_lt_raises.
Qed.

Lemma cheapest_heappush (heap : list (Z * Z * string * list Flight)) item :
  match heapq.heappush cheapest_lt heap item with
  | Ok heap' => pushed price_le heap [item] heap'
  | Raise e => e = Flight.no_order
  end.
Proof.
  pose proof (heappush_spec cheapest_lt price_le price_le_trans
                cheapest_lt_true cheapest_lt_false heap item) as H.
  destruct (heapq.heappush _ _ _) as [heap'|e]; [done|].
  by apply cheapest_lt_raises.
Qed.

(* ------------------------------------------------------------------ *)
(** ** One round of the earliest-arrival loop *)
(* ------------------------------------------------------------------ *)

(** The entries that the expansion of [(time, _, path)] pushes. *)
Definition earliest_new (time : Z) (path : list Flight) (fs : list Flight)
  : list (Z * string * list Flight) :=
  (fun f => (Flight.arrive f, Flight.dest f, path ++ [f]))
    <$> List.filter (layover_ok path time) fs.

Lemma pushed_nil {X : Type} (R : X → X → Prop) (heap : list X) : pushed R heap [] heap.
Proof. by split. Qed.

Lemma pushed_cons {X : Type} (R : X → X → Prop) (heap heap1 heap2 : list X)
    (x : X) (new : list X) :
  pushed R heap [x] heap1 → pushed R heap1 new heap2 → pushed R heap (x :: new) heap2.
Proof.
  intros [Hp1 Ho1] [Hp2 Ho2]. split; [|auto].
  rewrite Hp2, Hp1. simpl. by rewrite Permutation_middle.
Qed.

Lemma earliest_push_spec (time : Z) (path : list Flight) (fs : list Flight) :
  ∀ heap,
    match earliest_push heap time path fs with
    | Ok heap' => pushed time_le heap (earliest_new time path fs) heap'
    | Raise e => e = Flight.no_order
    end.
Proof.
  induction fs as [|f fs IH]; intros heap; simpl.
  - apply pushed_nil.
  - unfold earliest_new. simpl. destruct (layover_ok path time f); [|apply IH].
    unfold_bind.
    pose proof (earliest_heappush heap (Flight.arrive f, Flight.dest f, path ++ [f]))
      as Hpush.
    destruct (heapq.heappush _ _ _) as [heap1|e]; [|done].
    specialize (IH heap1).
    destruct (earliest_push heap1 time path fs) as [heap2|e]; [|done].
    simpl. by eapply pushed_cons.
Qed.

Lemma earliest_round_spec (g : Graph) (dest : string)
    (heap : list (Z * string * list Flight)) (visited : gmap string Z) :
  match earliest_round g dest (heap, visited) with
  | Raise e => e = Flight.no_order
  | Ok (Finished None) => heap = []
  | Ok (Finished (Some it)) =>
      ∃ t rest, popped time_le heap (t, dest, Itinerary.flights it) rest
                ∧ Itinerary.flights it ≠ []
  | Ok (Skipped (heap', visited')) =>
      ∃ t a p, popped time_le heap (t, a, p) heap'
               ∧ visited' = visited
               ∧ ¬ (a = dest ∧ p ≠ [])
               ∧ ∃ v, visited !! a = Some v ∧ v ≤ t
  | Ok (Expanded a (heap', visited')) =>
      ∃ t p rest, popped time_le heap (t, a, p) rest
                  ∧ pushed time_le rest (earliest_new t p (graph_get g a)) heap'
                  ∧ visited' = <[a := t]> visited
                  ∧ ¬ (a = dest ∧ p ≠ [])
                  ∧ ∀ v, visited !! a = Some v → t < v
  end.
Proof.
  unfold earliest_round. destruct heap as [|x heap]; [done|].
  pose proof (earliest_heappop (x :: heap) ltac:(done)) as Hpop.
  unfold_bind. destruct (heapq.heappop _ _) as [[[[t a] p] rest]|e]; [|done].
  destruct (bool_decide (a = dest) && nonempty p) eqn:Hfound.
  { apply andb_true_iff in Hfound as [->%bool_decide_eq_true Hp].
    exists t, rest. split; [done|]. simpl. by destruct p. }
  assert (Hnot : ¬ (a = dest ∧ p ≠ [])).
  { intros [-> Hp]. rewrite bool_decide_eq_true_2 in Hfound by done.
    by destruct p. }
  unfold seen_no_worse. destruct (visited !! a) as [v|] eqn:Hv.
  - destruct (v <=? t) eqn:Hle.
    + exists t, a, p. do 3 (split; [done|]). exists v. split; [done|lia].
    + pose proof (earliest_push_spec t p (graph_get g a) rest) as Hpush.
      destruct (earliest_push _ _ _ _) as [heap'|e]; [|done].
      exists t, p, rest. do 4 (split; [done|]). intros v' ?. simplify_eq. lia.
  - pose proof (earliest_push_spec t p (graph_get g a) rest) as Hpush.
    destruct (earliest_push _ _ _ _) as [heap'|e]; [|done].
    exists t, p, rest. do 4 (split; [done|]). intros v' ?. simplify_eq.
Qed.

Lemma elem_of_earliest_new (time : Z) (path fs : list Flight) x :
  x ∈ earliest_new time path fs
  ↔ ∃ f, x = (Flight.arrive f, Flight.dest f, path ++ [f])
         ∧ f ∈ fs ∧ layover_ok path time f = true.
Proof.
  unfold earliest_new. rewrite list_elem_of_fmap.
  split; intros (f & -> & Hf); exists f; (split; [done|]).
  - apply list_elem_of_In, filter_In in Hf as [Hf ?]. by apply list_elem_of_In in Hf.
  - destruct Hf as [Hf ?]. apply list_elem_of_In, filter_In.
    by apply list_elem_of_In in Hf.
Qed.

Lemma popped_elem {X : Type} (R : X → X → Prop) (heap rest : list X) (x y : X) :
  popped R heap x rest → y ∈ heap ↔ y = x ∨ y ∈ rest.
Proof. intros [Hperm _]. rewrite Hperm. apply elem_of_cons. Qed.

Lemma pushed_elem {X : Type} (R : X → X → Prop) (heap new heap' : list X) (y : X) :
  pushed R heap new heap' → y ∈ heap' ↔ y ∈ new ∨ y ∈ heap.
Proof. intros [Hperm _]. rewrite Hperm. apply elem_of_app. Qed.

(** The rule by which a property of a loop is shown: it holds of the
    state before the first round, and every round keeps it or ends the
    loop with a result of the wanted kind. *)
Lemma while_loop_ind {St : Type} (body : St → res (round St))
    (Inv : St → Prop) (Post : res (option Itinerary) → Prop) :
  (∀ st, Inv st →
         match body st with
         | Raise e => Post (Raise e)
         | Ok (Finished r) => Post (Ok r)
         | Ok (Skipped st') | Ok (Expanded _ st') => Inv st'
         end) →
  ∀ fuel st, Inv st →
             match while_loop body fuel st with
             | Some r => Post r
             | None => True
             end.
Proof.
  intros Hround. induction fuel as [|fuel IH]; intros st Hst; simpl; [done|].
  specialize (Hround st Hst).
  destruct (body st) as [[r|st'|a st']|e];
    [done|by apply IH|by apply IH|done].
Qed.

Section earliest_facts.
Context (g : Graph) (start dest : string) (ed : Z).

Local Abbreviation state := (list (Z * string * list Flight) * gmap string Z)%type.

(** Every entry of the queue holds a path the search has built. *)
Definition earliest_routes (st : state) : Prop :=
  ∀ t a p, (t, a, p) ∈ st.1 → route g start ed p a t.

Lemma earliest_routes_init : earliest_routes ([(ed, start, [])], ∅).
Proof.
  intros t a p Hin. simpl in Hin.
  apply list_elem_of_singleton in Hin. simplify_eq. constructor.
Qed.

Lemma earliest_routes_round (st : state) :
  earliest_routes st →
  match earliest_round g dest st with
  | Raise e => True
  | Ok (Finished None) => True
  | Ok (Finished (Some it)) =>
      Itinerary.flights it ≠ []
      ∧ ∃ t, route g start ed (Itinerary.flights it) dest t
  | Ok (Skipped st') | Ok (Expanded _ st') => earliest_routes st'
  end.
Proof.
  destruct st as [heap visited]. intros Hroutes.
  pose proof (earliest_round_spec g dest heap visited) as Hspec.
  destruct (earliest_round g dest (heap, visited))
    as [[[it|]|[heap' visited']|a [heap' visited']]|e]; try done.
  - destruct Hspec as (t & rest & Hpop & Hne). split; [done|]. exists t.
    apply Hroutes. simpl. rewrite (popped_elem _ _ _ _ _ Hpop). by left.
  - destruct Hspec as (t & a & p & Hpop & _). intros t' a' p' Hin.
    apply Hroutes. simpl in *. rewrite (popped_elem _ _ _ _ _ Hpop). by right.
  - destruct Hspec as (t & p & rest & Hpop & Hpush & _). intros t' a' p' Hin.
    simpl in *. rewrite (pushed_elem _ _ _ _ _ Hpush) in Hin.
    destruct Hin as [Hin|Hin].
    + apply elem_of_earliest_new in Hin as (f & [= -> -> ->] & Hf & Hlay).
      eapply route_snoc; [|done..].
      apply Hroutes. simpl. rewrite (popped_elem _ _ _ _ _ Hpop). by left.
    + apply Hroutes. simpl. rewrite (popped_elem _ _ _ _ _ Hpop). by right.
Qed.

Lemma earliest_returns_route (fuel : nat) (it : Itinerary) :
  find_earliest_itinerary fuel g start dest ed = Some (Ok (Some it)) →
  Itinerary.flights it ≠ []
  ∧ ∃ t, route g start ed (Itinerary.flights it) dest t.
Proof.
  intros Hfind.
  pose proof (while_loop_ind (earliest_round g dest) earliest_routes
    (fun r => match r with
              | Ok (Some it) =>
                  Itinerary.flights it ≠ []
                  ∧ ∃ t, route g start ed (Itinerary.flights it) dest t
              | _ => True
              end)) as Hind.
  unfold find_earliest_itinerary, earliest_loop in Hfind.
  specialize (Hind ltac:(
    intros st Hst; pose proof (earliest_routes_round st Hst) as H;
    destruct (earliest_round g dest st) as [[[?|]|?|? ?]|?]; done)
    fuel _ earliest_routes_init).
  by rewrite Hfind in Hind.
Qed.

End earliest_facts.

(* ------------------------------------------------------------------ *)
(** ** One round of the cheapest-price loop *)
(* ------------------------------------------------------------------ *)

Definition unknown_cabin (cabin : string) : exn :=
  ValueError ("Unknown cabin: " +:+ cabin).

Lemma price_for_raises (f : Flight) (cabin : string) (e : exn) :
  Flight.price_for f cabin = Raise e → e = unknown_cabin cabin.
Proof.
  unfold Flight.price_for, unknown_cabin.
  repeat case_match; intros Hraise; by simplify_eq.
Qed.

Lemma price_for_unknown (f : Flight) (cabin : string) :
  ¬ known_cabin cabin → Flight.price_for f cabin = Raise (unknown_cabin cabin).
Proof.
  intros Hunknown. unfold Flight.price_for, unknown_cabin.
  destruct (String.eqb_spec cabin "economy") as [->|_].
  { exfalso. apply Hunknown. by left. }
  destruct (String.eqb_spec cabin "business") as [->|_].
  { exfalso. apply Hunknown. right. by left. }
  destruct (String.eqb_spec cabin "first") as [->|_].
  { exfalso. apply Hunknown. right. by right. }
  reflexivity.
Qed.

(** The entries that the expansion of [(total_price, time, _, path)]
    pushes. *)
Definition cheapest_new (cabin : string) (total_price time : Z)
    (path : list Flight) (fs : list Flight) : list (Z * Z * string * list Flight) :=
  omap (fun f =>
          if layover_ok path time f then
            match Flight.price_for f cabin with
            | Ok price =>
                Some (total_price + price, Flight.arrive f, Flight.dest f, path ++ [f])
            | Raise _ => None
            end
          else None) fs.

Lemma elem_of_cheapest_new (cabin : string) (total_price time : Z)
    (path fs : list Flight) x :
  x ∈ cheapest_new cabin total_price time path fs
  ↔ ∃ f price,
      x = (total_price + price, Flight.arrive f, Flight.dest f, path ++ [f])
      ∧ f ∈ fs ∧ layover_ok path time f = true
      ∧ Flight.price_for f cabin = Ok price.
Proof.
  unfold cheapest_new. rewrite list_elem_of_omap. split.
  - intros (f & Hf & Hx). exists f.
    destruct (layover_ok path time f); [|done].
    destruct (Flight.price_for f cabin) as [price|]; [|done].
    exists price. by simplify_eq.
  - intros (f & price & -> & Hf & Hlay & Hprice). exists f.
    by rewrite Hlay, Hprice.
Qed.

Lemma length_cheapest_new (cabin : string) (total_price time : Z)
    (path fs : list Flight) :
  (length (cheapest_new cabin total_price time path fs) ≤ length fs)%nat.
Proof.
  unfold cheapest_new, omap. induction fs as [|f fs IH]; simpl; [done|].
  destruct (layover_ok path time f); [|lia].
  destruct (Flight.price_for f cabin); simpl; lia.
Qed.

Lemma length_earliest_new (time : Z) (path fs : list Flight) :
  (length (earliest_new time path fs) ≤ length fs)%nat.
Proof.
  unfold earliest_new. rewrite length_fmap. apply filter_length_le.
Qed.

Lemma cheapest_push_spec (cabin : string) (total_price time : Z)
    (path : list Flight) (fs : list Flight) :
  ∀ heap,
    match cheapest_push cabin heap total_price time path fs with
    | Ok heap' =>
        pushed price_le heap (cheapest_new cabin total_price time path fs) heap'
    | Raise e => e = Flight.no_order ∨ e = unknown_cabin cabin
    end.
Proof.
  induction fs as [|f fs IH]; intros heap; simpl.
  - apply pushed_nil.
  - unfold cheapest_new. simpl. destruct (layover_ok path time f); [|apply IH].
    unfold_bind.
    destruct (Flight.price_for f cabin) as [price|e] eqn:Hprice.
    2:{ right. by eapply price_for_raises. }
    pose proof (cheapest_heappush heap
      (total_price + price, Flight.arrive f, Flight.dest f, path ++ [f])) as Hpush.
    destruct (heapq.heappush _ _ _) as [heap1|e]; [|by left].
    specialize (IH heap1).
    destruct (cheapest_push cabin heap1 total_price time path fs) as [heap2|e];
      [|done].
    simpl. by eapply pushed_cons.
Qed.

Lemma cheapest_round_spec (g : Graph) (dest cabin : string)
    (heap : list (Z * Z * string * list Flight)) (visited : gmap string Z) :
  match cheapest_round g dest cabin (heap, visited) with
  | Raise e => e = Flight.no_order ∨ e = unknown_cabin cabin
  | Ok (Finished None) => heap = []
  | Ok (Finished (Some it)) =>
      ∃ c t rest, popped price_le heap (c, t, dest, Itinerary.flights it) rest
                  ∧ Itinerary.flights it ≠ []
  | Ok (Skipped (heap', visited')) =>
      ∃ c t a p, popped price_le heap (c, t, a, p) heap'
                 ∧ visited' = visited
                 ∧ ¬ (a = dest ∧ p ≠ [])
                 ∧ ∃ v, visited !! a = Some v ∧ v ≤ c
  | Ok (Expanded a (heap', visited')) =>
      ∃ c t p rest,
        popped price_le heap (c, t, a, p) rest
        ∧ pushed price_le rest (cheapest_new cabin c t p (graph_get g a)) heap'
        ∧ visited' = <[a := c]> visited
        ∧ ¬ (a = dest ∧ p ≠ [])
        ∧ ∀ v, visited !! a = Some v → c < v
  end.
Proof.
  unfold cheapest_round. destruct heap as [|x heap]; [done|].
  pose proof (cheapest_heappop (x :: heap) ltac:(done)) as Hpop.
  unfold_bind. destruct (heapq.heappop _ _) as [[[[[c t] a] p] rest]|e]; [|by left].
  destruct (bool_decide (a = dest) && nonempty p) eqn:Hfound.
  { apply andb_true_iff in Hfound as [->%bool_decide_eq_true Hp].
    exists c, t, rest. split; [done|]. simpl. by destruct p. }
  assert (Hnot : ¬ (a = dest ∧ p ≠ [])).
  { intros [-> Hp]. rewrite bool_decide_eq_true_2 in Hfound by done.
    by destruct p. }
  unfold seen_no_worse. destruct (visited !! a) as [v|] eqn:Hv.
  - destruct (v <=? c) eqn:Hle.
    + exists c, t, a, p. do 3 (split; [done|]). exists v. split; [done|lia].
    + pose proof (cheapest_push_spec cabin c t p (graph_get g a) rest) as Hpush.
      destruct (cheapest_push _ _ _ _ _ _) as [heap'|e]; [|done].
      exists c, t, p, rest. do 4 (split; [done|]). intros v' ?. simplify_eq. lia.
  - pose proof (cheapest_push_spec cabin c t p (graph_get g a) rest) as Hpush.
    destruct (cheapest_push _ _ _ _ _ _) as [heap'|e]; [|done].
    exists c, t, p, rest. do 4 (split; [done|]). intros v' ?. simplify_eq.
Qed.

Lemma sum_prices_snoc (cabin : string) (path : list Flight) (f : Flight) (c price : Z) :
  Itinerary.sum_prices cabin path = Ok c →
  Flight.price_for f cabin = Ok price →
  Itinerary.sum_prices cabin (path ++ [f]) = Ok (c + price).
Proof.
  revert c. induction path as [|f0 path IH]; intros c Hsum Hprice; simpl in *.
  - simplify_eq. rewrite Hprice. simpl. f_equal. lia.
  - unfold_bind. destruct (Flight.price_for f0 cabin) as [p0|]; [|done].
    destruct (Itinerary.sum_prices cabin path) as [c0|]; [|done].
    simplify_eq. rewrite (IH c0 eq_refl Hprice). f_equal. lia.
Qed.

Section cheapest_facts.
Context (g : Graph) (start dest : string) (ed : Z) (cabin : string).

Local Abbreviation state :=
  (list (Z * Z * string * list Flight) * gmap string Z)%type.

(** Every entry of the queue holds a path the search has built,
    together with its price. *)
Definition cheapest_routes (st : state) : Prop :=
  ∀ c t a p, (c, t, a, p) ∈ st.1 →
             route g start ed p a t ∧ Itinerary.sum_prices cabin p = Ok c.

Lemma cheapest_routes_init : cheapest_routes ([(0, ed, start, [])], ∅).
Proof.
  intros c t a p Hin. simpl in Hin.
  apply list_elem_of_singleton in Hin. simplify_eq. split; [constructor|done].
Qed.

Lemma cheapest_routes_round (st : state) :
  cheapest_routes st →
  match cheapest_round g dest cabin st with
  | Raise e => True
  | Ok (Finished None) => True
  | Ok (Finished (Some it)) =>
      Itinerary.flights it ≠ []
      ∧ ∃ t, route g start ed (Itinerary.flights it) dest t
  | Ok (Skipped st') | Ok (Expanded _ st') => cheapest_routes st'
  end.
Proof.
  destruct st as [heap visited]. intros Hroutes.
  pose proof (cheapest_round_spec g dest cabin heap visited) as Hspec.
  destruct (cheapest_round g dest cabin (heap, visited))
    as [[[it|]|[heap' visited']|a [heap' visited']]|e]; try done.
  - destruct Hspec as (c & t & rest & Hpop & Hne). split; [done|]. exists t.
    eapply Hroutes. simpl. rewrite (popped_elem _ _ _ _ _ Hpop). by left.
  - destruct Hspec as (c & t & a & p & Hpop & _). intros c' t' a' p' Hin.
    apply Hroutes. simpl in *. rewrite (popped_elem _ _ _ _ _ Hpop). by right.
  - destruct Hspec as (c & t & p & rest & Hpop & Hpush & _).
    intros c' t' a' p' Hin.
    simpl in *. rewrite (pushed_elem _ _ _ _ _ Hpush) in Hin.
    destruct Hin as [Hin|Hin].
    + apply elem_of_cheapest_new in Hin
        as (f & price & [= -> -> -> ->] & Hf & Hlay & Hprice).
      destruct (Hroutes c t a p) as [Hroute Hsum].
      { simpl. rewrite (popped_elem _ _ _ _ _ Hpop). by left. }
      split; [by eapply route_snoc|by apply sum_prices_snoc].
    + apply Hroutes. simpl. rewrite (popped_elem _ _ _ _ _ Hpop). by right.
Qed.

Lemma cheapest_returns_route (fuel : nat) (it : Itinerary) :
  find_cheapest_itinerary fuel g start dest ed cabin = Some (Ok (Some it)) →
  Itinerary.flights it ≠ []
  ∧ ∃ t, route g start ed (Itinerary.flights it) dest t.
Proof.
  intros Hfind.
  pose proof (while_loop_ind (cheapest_round g dest cabin) cheapest_routes
    (fun r => match r with
              | Ok (Some it) =>
                  Itinerary.flights it ≠ []
                  ∧ ∃ t, route g start ed (Itinerary.flights it) dest t
              | _ => True
              end)) as Hind.
  unfold find_cheapest_itinerary, cheapest_loop in Hfind.
  specialize (Hind ltac:(
    intros st Hst; pose proof (cheapest_routes_round st Hst) as H;
    destruct (cheapest_round g dest cabin st) as [[[?|]|?|? ?]|?]; done)
    fuel _ cheapest_routes_init).
  by rewrite Hfind in Hind.
Qed.

End cheapest_facts.

(* ------------------------------------------------------------------ *)
(** ** What a returned itinerary satisfies *)
(* ------------------------------------------------------------------ *)

Lemma returned_itinerary_ok (g : Graph) (start dest : string) (ed : Z)
    (cabin : string) (fuel : nat) (it : Itinerary) :
  well_keyed g →
  find_earliest_itinerary fuel g start dest ed = Some (Ok (Some it))
  ∨ find_cheapest_itinerary fuel g start dest ed cabin = Some (Ok (Some it)) →
  itinerary_ok start dest ed (Itinerary.flights it)
  ∧ in_graph g (Itinerary.flights it).
Proof.
  intros Hkeyed [Hfind|Hfind].
  - apply earliest_returns_route in Hfind as (Hne & t & Hroute).
    by eapply route_itinerary.
  - apply cheapest_returns_route in Hfind as (Hne & t & Hroute).
    by eapply route_itinerary.
Qed.

(** C3. An itinerary that either search returns for a route graph
    starts at [start] and ends at [dest]; its first leg departs at or
    after the earliest departure; each later leg departs from the
    airport where the previous one landed, at least 60 minutes after
    the landing (exactly 60 is enough); and its legs are flights of the
    schedule. *)
Theorem returned_itinerary_respects_constraints (flights : list Flight)
    (start dest : string) (earliest_departure : Z) (cabin : string)
    (fuel : nat) (it : Itinerary) :
  find_earliest_itinerary fuel (build_graph flights) start dest earliest_departure
  = Some (Ok (Some it))
  ∨ find_cheapest_itinerary fuel (build_graph flights) start dest
      earliest_departure cabin
    = Some (Ok (Some it)) →
  itinerary_ok start dest earliest_departure (Itinerary.flights it)
  ∧ Forall (fun f => f ∈ flights) (Itinerary.flights it).
Proof.
  intros Hfind.
  apply returned_itinerary_ok in Hfind as [Hok Hin];
    [|apply build_graph_well_keyed].
  split; [done|].
  eapply Forall_impl; [exact Hin|].
  intros f Hf. simpl in Hf. by apply elem_of_build_graph in Hf as [? _].
Qed.

Lemma returned_itinerary_respects_constraints_witness :
  find_earliest_itinerary 4 (build_graph [Ex.ab; Ex.bc; Ex.ac]) "A" "C" (hm 7 0)
  = Some (Ok (Some (Itinerary.mk [Ex.ab; Ex.bc])))
  ∧ Flight.arrive Ex.ab + MIN_LAYOVER_MINUTES = Flight.depart Ex.bc
  ∧ itinerary_ok "A" "C" (hm 7 0) [Ex.ab; Ex.bc]
  ∧ Forall (fun f => f ∈ [Ex.ab; Ex.bc; Ex.ac]) [Ex.ab; Ex.bc].
Proof.
  assert (Hfind :
    find_earliest_itinerary 4 (build_graph [Ex.ab; Ex.bc; Ex.ac]) "A" "C" (hm 7 0)
    = Some (Ok (Some (Itinerary.mk [Ex.ab; Ex.bc])))) by (vm_compute; reflexivity).
  split; [exact Hfind|]. split; [reflexivity|].
  exact (returned_itinerary_respects_constraints _ _ _ _ "economy" _ _
           (or_introl Hfind)).
Defined.

(** C4, as the searches have it. When [start] and [dest] are the same
    airport, neither search returns a zero-length itinerary: an
    itinerary that is returned has at least one leg, leaves [start] and
    comes back to it. *)
Theorem same_airport_itinerary_is_round_trip (flights : list Flight)
    (start : string) (earliest_departure : Z) (cabin : string)
    (fuel : nat) (it : Itinerary) :
  find_earliest_itinerary fuel (build_graph flights) start start earliest_departure
  = Some (Ok (Some it))
  ∨ find_cheapest_itinerary fuel (build_graph flights) start start
      earliest_departure cabin
    = Some (Ok (Some it)) →
  Itinerary.is_empty it = false
  ∧ Itinerary.origin it = Some start
  ∧ Itinerary.dest it = Some start.
Proof.
  intros Hfind.
  apply returned_itinerary_ok in Hfind as [[Ho Hd _ _] _];
    [|apply build_graph_well_keyed].
  unfold Itinerary.is_empty, Itinerary.origin, Itinerary.dest.
  split; [|done]. by destruct (Itinerary.flights it).
Qed.

Lemma same_airport_itinerary_is_round_trip_witness :
  find_cheapest_itinerary 4 (build_graph [Ex.ab; Ex.ba]) "A" "A" (hm 7 0) "first"
  = Some (Ok (Some (Itinerary.mk [Ex.ab; Ex.ba])))
  ∧ Itinerary.is_empty (Itinerary.mk [Ex.ab; Ex.ba]) = false
  ∧ Itinerary.origin (Itinerary.mk [Ex.ab; Ex.ba]) = Some "A"
  ∧ Itinerary.dest (Itinerary.mk [Ex.ab; Ex.ba]) = Some "A".
Proof.
  assert (Hfind :
    find_cheapest_itinerary 4 (build_graph [Ex.ab; Ex.ba]) "A" "A" (hm 7 0) "first"
    = Some (Ok (Some (Itinerary.mk [Ex.ab; Ex.ba])))) by (vm_compute; reflexivity).
  split; [exact Hfind|].
  exact (same_airport_itinerary_is_round_trip _ _ _ _ _ _ (or_intror Hfind)).
Defined.

(** C4 fails as stated: with [start = dest = A] and the flights A->B
    and B->A, both searches return the round trip, not absence. *)
Lemma same_airport_returns_round_trip :
  find_earliest_itinerary 4 Ex.round_trip "A" "A" (hm 7 0)
  = Some (Ok (Some (Itinerary.mk [Ex.ab; Ex.ba])))
  ∧ find_cheapest_itinerary 4 Ex.round_trip "A" "A" (hm 7 0) "economy"
    = Some (Ok (Some (Itinerary.mk [Ex.ab; Ex.ba]))).
Proof. split; vm_compute; reflexivity. Qed.

(* ------------------------------------------------------------------ *)
(** ** Where the searches fall short *)
(* ------------------------------------------------------------------ *)

Ltac solve_itinerary_ok :=
  split; [reflexivity | reflexivity
         | intros ? [= <-]; vm_compute; discriminate
         | vm_compute; intuition (try reflexivity; discriminate)].

Ltac solve_in_graph :=
  unfold in_graph; repeat constructor;
  apply bool_decide_unpack; vm_compute; exact I.

(** C10. Two entries with the same arrival time and the same airport
    are ordered by their paths, and two paths that differ in a flight
    are ordered by [<] on flights, which the class does not define.
    The schedule has two flights from A that land in B at 10:00: the
    second push compares the two entries and the search raises. *)
Theorem equal_entries_are_not_comparable :
  earliest_lt (hm 10 0, "B", [Ex.ab']) (hm 10 0, "B", [Ex.ab]) = Raise Flight.no_order
  ∧ heapq.heappush earliest_lt [(hm 10 0, "B", [Ex.ab])] (hm 10 0, "B", [Ex.ab'])
    = Raise Flight.no_order
  ∧ ∀ n, find_earliest_itinerary (2 + n) Ex.same_arrival "A" "B" (hm 7 0)
         = Some (Raise Flight.no_order).
Proof.
  split; [reflexivity|]. split; [reflexivity|].
  intros n. vm_compute. reflexivity.
Qed.

(** C2. The flight A->B of 08:00 is an itinerary from A to B, yet the
    earliest-arrival search raises instead of returning one, because
    another flight lands in B at the same minute. *)
Theorem earliest_raises_despite_itinerary :
  itinerary_ok "A" "B" (hm 7 0) [Ex.ab]
  ∧ in_graph Ex.same_arrival [Ex.ab]
  ∧ ∀ n, find_earliest_itinerary (2 + n) Ex.same_arrival "A" "B" (hm 7 0)
         = Some (Raise Flight.no_order).
Proof.
  split; [solve_itinerary_ok|]. split; [solve_in_graph|].
  intros n. vm_compute. reflexivity.
Qed.

(** C5. No itinerary leads from A to Z in the schedule with the two
    flights to B, yet both searches raise instead of returning
    absence. *)
Theorem unreachable_destination_raises :
  (∀ fs, in_graph Ex.same_arrival fs → ¬ itinerary_ok "A" "Z" (hm 7 0) fs)
  ∧ (∀ n, find_earliest_itinerary (2 + n) Ex.same_arrival "A" "Z" (hm 7 0)
          = Some (Raise Flight.no_order))
  ∧ (∀ n, find_cheapest_itinerary (2 + n) Ex.same_arrival "A" "Z" (hm 7 0) "economy"
          = Some (Raise Flight.no_order)).
Proof.
  split; [|split; intros n; vm_compute; reflexivity].
  intros fs Hin [_ Hdest _ _].
  destruct (last fs) as [l|] eqn:Hlast; [|discriminate].
  apply last_Some_elem_of in Hlast.
  unfold in_graph in Hin. rewrite Forall_forall in Hin.
  specialize (Hin l Hlast). unfold Ex.same_arrival in Hin.
  apply elem_of_build_graph in Hin as [Hl _].
  simpl in Hdest. injection Hdest as Hdest.
  apply elem_of_cons in Hl as [->|Hl]; [discriminate|].
  apply list_elem_of_singleton in Hl as ->. discriminate.
Qed.

(** C1. From A to C the schedule has the itinerary A->B (the early,
    dear flight) then B->C for 60 in economy. The cheapest search pops
    the late, cheap flight to B first, marks B with its price, and then
    drops the early flight to B as dominated, although only the early
    one connects. It returns the direct flight for 100; without the
    direct flight it returns absence. *)
Theorem cheapest_misses_cheaper_connection :
  itinerary_ok "A" "C" (hm 7 0) [Ex.ab_early; Ex.bc_early]
  ∧ in_graph Ex.late_bargain [Ex.ab_early; Ex.bc_early]
  ∧ in_graph Ex.no_direct [Ex.ab_early; Ex.bc_early]
  ∧ Itinerary.total_price (Itinerary.mk [Ex.ab_early; Ex.bc_early]) "economy" = Ok 60
  ∧ Itinerary.total_price (Itinerary.mk [Ex.ac_dear]) "economy" = Ok 100
  ∧ (∀ n, find_cheapest_itinerary (4 + n) Ex.late_bargain "A" "C" (hm 7 0) "economy"
          = Some (Ok (Some (Itinerary.mk [Ex.ac_dear]))))
  ∧ (∀ n, find_cheapest_itinerary (4 + n) Ex.no_direct "A" "C" (hm 7 0) "economy"
          = Some (Ok None)).
Proof.
  split; [solve_itinerary_ok|]. split; [solve_in_graph|]. split; [solve_in_graph|].
  split; [reflexivity|]. split; [reflexivity|].
  split; intros n; vm_compute; reflexivity.
Qed.

Lemma backwards_loops (fuel : nat) :
  ∀ (c v : Z) (path : list Flight) (visited : gmap string Z),
    visited !! "A" = Some v →
    c < v →
    path ≠ [] →
    cheapest_loop fuel Ex.backwards "Z" "economy" ([(c, 0, "A", path)], visited)
    = None.
Proof.
  induction fuel as [|fuel IH]; intros c v path visited Hv Hc Hpath; [done|].
  assert (Hround :
    cheapest_round Ex.backwards "Z" "economy" ([(c, 0, "A", path)], visited)
    = Ok (Expanded "A" ([(c + -1, 0, "A", path ++ [Ex.loop_back])],
                        <["A" := c]> visited))).
  { unfold cheapest_round. cbn [heapq.heappop last removelast].
    unfold mbind, res_bind.
    rewrite bool_decide_eq_false_2 by discriminate. cbn [andb].
    unfold seen_no_worse. rewrite Hv.
    replace (v <=? c) with false by (symmetry; apply Z.leb_gt; lia).
    replace (graph_get Ex.backwards "A") with [Ex.loop_back]
      by (vm_compute; reflexivity).
    cbn [cheapest_push]. unfold layover_ok.
    destruct path as [|f0 path]; [done|]. reflexivity. }
  unfold cheapest_loop. cbn [while_loop]. rewrite Hround.
  apply (IH (c + -1) c).
  - apply lookup_insert_eq.
  - lia.
  - by destruct path.
Qed.

(** A [Graph] made by hand may hold what no loader makes. The graph
    with the one flight A->A that lands before it leaves and costs -1
    keeps the cheapest search going for ever: every round pops the
    only entry, finds it cheaper than the price recorded for A, and
    pushes the next one. On the same graph the earliest-arrival search
    expands A twice. *)
Lemma cheapest_search_runs_for_ever :
  (∀ fuel, find_cheapest_itinerary fuel Ex.backwards "A" "Z" 50 "economy" = None)
  ∧ earliest_expansions 4 Ex.backwards "Z" ([(50, "A", [])], ∅) = ["A"; "A"].
Proof.
  split; [|vm_compute; reflexivity].
  intros [|fuel]; [done|].
  unfold find_cheapest_itinerary, cheapest_loop. cbn [while_loop].
  replace (cheapest_round Ex.backwards "Z" "economy" ([(0, 50, "A", [])], ∅))
    with (Ok (Expanded "A" ([(-1, 0, "A", [Ex.loop_back])],
                            ({["A" := 0]} : gmap string Z))))
    by (vm_compute; reflexivity).
  apply (backwards_loops fuel (-1) 0); [apply lookup_singleton_eq|lia|done].
Qed.

(** C6 fails where it gives its reason. On a schedule that the loaders
    accept, whose flights arrive after they depart and one of whose
    prices is negative, the cheapest search expands B twice: B is
    reached for 5 with the direct flight, and later for 3 through C.
    The search ends all the same, here with absence after six
    rounds. *)
Lemma cheapest_expands_airport_twice :
  load_flights_txt "rebate.txt"
    ["A B R1 08:00 09:00 5 5 5"; "A C R2 08:00 08:30 6 6 6";
     "C B R3 09:30 10:00 -3 1 1"]
  = Ok [Ex.ab5; Ex.ac6; Ex.cb_rebate]
  ∧ Forall (fun f => Flight.depart f < Flight.arrive f)
      [Ex.ab5; Ex.ac6; Ex.cb_rebate]
  ∧ cheapest_expansions 6 Ex.rebate "Z" "economy" ([(0, hm 7 0, "A", [])], ∅)
    = ["A"; "B"; "C"; "B"]
  ∧ ¬ NoDup (cheapest_expansions 6 Ex.rebate "Z" "economy"
               ([(0, hm 7 0, "A", [])], ∅))
  ∧ find_cheapest_itinerary 6 Ex.rebate "A" "Z" (hm 7 0) "economy" = Some (Ok None).
Proof.
  assert (Hexp : cheapest_expansions 6 Ex.rebate "Z" "economy"
                   ([(0, hm 7 0, "A", [])], ∅) = ["A"; "B"; "C"; "B"])
    by (vm_compute; reflexivity).
  split; [vm_compute; reflexivity|].
  split; [repeat constructor|].
  split; [exact Hexp|].
  split; [|vm_compute; reflexivity].
  rewrite Hexp. intros Hnodup.
  apply NoDup_cons in Hnodup as [_ Hnodup].
  apply NoDup_cons in Hnodup as [Hnotin _].
  apply Hnotin. rewrite !elem_of_cons. tauto.
Qed.

(* ------------------------------------------------------------------ *)
(** ** Each airport is expanded once, and the loops end *)
(* ------------------------------------------------------------------ *)

(** The number of flights that leave the airports of [l] that are not
    in [visited]. *)
Definition unseen_at (visited : gmap string Z) (kv : string * list Flight) : nat :=
  match visited !! kv.1 with
  | None => length kv.2
  | Some _ => O
  end.

Definition unseen_in (visited : gmap string Z) (l : list (string * list Flight)) : nat :=
  sum_list (unseen_at visited <$> l).

Definition unseen_flights (g : Graph) (visited : gmap string Z) : nat :=
  unseen_in visited (map_to_list g).

(** Fuel that is enough for either search on [g]: one round for the
    first entry and one for each flight. *)
Definition enough_fuel (g : Graph) : nat := (2 + unseen_flights g ∅)%nat.

Lemma unseen_in_cons (visited : gmap string Z) kv (l : list (string * list Flight)) :
  unseen_in visited (kv :: l) = (unseen_at visited kv + unseen_in visited l)%nat.
Proof. reflexivity. Qed.

Lemma unseen_in_insert (visited : gmap string Z) (a : string) (t : Z)
    (l : list (string * list Flight)) :
  NoDup l.*1 →
  visited !! a = None →
  (∀ fs, (a, fs) ∈ l →
         (unseen_in (<[a := t]> visited) l + length fs)%nat = unseen_in visited l)
  ∧ (a ∉ l.*1 → unseen_in (<[a := t]> visited) l = unseen_in visited l).
Proof.
  intros Hnodup Ha. induction l as [|[k fs0] l IH].
  - split; [|done]. intros fs Hin. by apply elem_of_nil in Hin.
  - rewrite fmap_cons in Hnodup. apply NoDup_cons in Hnodup as [Hk Hl].
    destruct (IH Hl) as [IH1 IH2]. rewrite !unseen_in_cons. split.
    + intros fs [Heq|Hin]%elem_of_cons.
      * injection Heq as <- <-. unfold unseen_at at 1 2. simpl.
        rewrite lookup_insert_eq, Ha, (IH2 Hk). lia.
      * assert (Hne : a ≠ k).
        { intros ->. apply Hk. apply list_elem_of_fmap. by exists (k, fs). }
        unfold unseen_at at 1 2. simpl.
        rewrite lookup_insert_ne by done. rewrite <- (IH1 fs Hin). lia.
    + rewrite fmap_cons. intros Hnot.
      apply not_elem_of_cons in Hnot as [Hne Hnot].
      unfold unseen_at at 1 2. simpl.
      rewrite lookup_insert_ne by done. by rewrite (IH2 Hnot).
Qed.

Lemma unseen_flights_insert (g : Graph) (visited : gmap string Z) (a : string) (t : Z) :
  visited !! a = None →
  (unseen_flights g (<[a := t]> visited) + length (graph_get g a))%nat
  = unseen_flights g visited.
Proof.
  intros Ha. unfold unseen_flights, graph_get.
  destruct (unseen_in_insert visited a t (map_to_list g)) as [H1 H2];
    [apply NoDup_fst_map_to_list|done|].
  destruct (g !! a) as [fs|] eqn:Hg; simpl.
  - apply H1. by apply elem_of_map_to_list.
  - rewrite H2; [lia|]. intros [[k fs] [Hk Hin]]%list_elem_of_fmap.
    simpl in Hk. subst k. apply elem_of_map_to_list in Hin. congruence.
Qed.

Section label_setting.
Context {X : Type} (key : X → Z) (airport : X → string) (g : Graph).
Context (new : X → list X).
Context (body : list X * gmap string Z → res (round (list X * gmap string Z))).

Definition key_le (x y : X) : Prop := key x ≤ key y.

(** The entries an expansion pushes are not before the expanded one. *)
Hypothesis new_key : ∀ x y, y ∈ new x → key x ≤ key y.
Hypothesis new_length : ∀ x, (length (new x) ≤ length (graph_get g (airport x)))%nat.

Hypothesis body_spec : ∀ heap visited,
  match body (heap, visited) with
  | Ok (Skipped (heap', visited')) =>
      ∃ x, popped key_le heap x heap' ∧ visited' = visited
  | Ok (Expanded a (heap', visited')) =>
      ∃ x rest, airport x = a
                ∧ popped key_le heap x rest
                ∧ pushed key_le rest (new x) heap'
                ∧ visited' = <[a := key x]> visited
                ∧ ∀ v, visited !! a = Some v → key x < v
  | _ => True
  end.

(** The heap is in order and no entry is before a recorded label. *)
Definition label_inv (st : list X * gmap string Z) : Prop :=
  heap_ordered key_le st.1
  ∧ ∀ a v, st.2 !! a = Some v → ∀ x, x ∈ st.1 → v ≤ key x.

Definition potential (st : list X * gmap string Z) : nat :=
  (length st.1 + unseen_flights g st.2)%nat.

Lemma label_inv_round (st : list X * gmap string Z) :
  label_inv st →
  match body st with
  | Ok (Skipped st') => label_inv st' ∧ st'.2 = st.2 ∧ (potential st' < potential st)%nat
  | Ok (Expanded a st') =>
      label_inv st' ∧ st.2 !! a = None ∧ (∃ t, st'.2 = <[a := t]> st.2)
      ∧ (potential st' < potential st)%nat
  | _ => True
  end.
Proof.
  destruct st as [heap visited]. intros [Hord Hmono]. simpl in *.
  pose proof (body_spec heap visited) as Hspec.
  destruct (body (heap, visited)) as [[r|[heap' visited']|a [heap' visited']]|e];
    try done.
  - destruct Hspec as (x & [Hperm Hpop] & ->).
    destruct (Hpop Hord) as [Hord' Hmin]. unfold potential. simpl.
    split; [split|split]; try done.
    + intros a v Hv y Hy. apply (Hmono a v Hv). rewrite Hperm. by right.
    + rewrite Hperm. simpl. lia.
  - destruct Hspec as (x & rest & <- & [Hperm Hpop] & [Hperm' Hpush] & -> & Hlt).
    destruct (Hpop Hord) as [Hord' Hmin].
    assert (Hx : x ∈ heap) by (rewrite Hperm; by left).
    assert (Hfresh : visited !! airport x = None).
    { destruct (visited !! airport x) as [v|] eqn:Hv; [|done].
      specialize (Hlt v eq_refl). specialize (Hmono _ _ Hv x Hx). lia. }
    unfold potential. simpl. split; [split|split; [done|split; [by eexists|]]].
    + auto.
    + intros a v Hv y Hy. simpl in Hv, Hy. rewrite Hperm' in Hy.
      assert (Hxy : key x ≤ key y).
      { apply elem_of_app in Hy as [Hy|Hy]; [by apply new_key|].
        apply Hmin. rewrite Hperm. by right. }
      apply lookup_insert_Some in Hv as [[_ <-]|[_ Hv]]; [done|].
      specialize (Hmono _ _ Hv x Hx). lia.
    + rewrite Hperm', Hperm, length_app. simpl.
      pose proof (unseen_flights_insert g visited (airport x) (key x) Hfresh).
      pose proof (new_length x). lia.
Qed.

Lemma expansions_fresh (fuel : nat) :
  ∀ st, label_inv st →
        NoDup (expansions body fuel st)
        ∧ ∀ a, a ∈ expansions body fuel st → st.2 !! a = None.
Proof.
  induction fuel as [|fuel IH]; intros st Hinv; simpl.
  - split; [constructor|]. intros a Ha. by apply elem_of_nil in Ha.
  - pose proof (label_inv_round st Hinv) as Hround.
    destruct (body st) as [[r|st'|a st']|e].
    + split; [constructor|]. intros a Ha. by apply elem_of_nil in Ha.
    + destruct Hround as (Hinv' & Hvis & _).
      destruct (IH st' Hinv') as [Hnodup Hfresh]. rewrite <- Hvis. done.
    + destruct Hround as (Hinv' & Ha & [t Hvis] & _).
      destruct (IH st' Hinv') as [Hnodup Hfresh]. split.
      * apply NoDup_cons. split; [|done]. intros Hin.
        apply Hfresh in Hin. rewrite Hvis, lookup_insert_eq in Hin. done.
      * intros b [->|Hb]%elem_of_cons; [done|].
        apply Hfresh in Hb. rewrite Hvis in Hb.
        apply lookup_insert_None in Hb. tauto.
    + split; [constructor|]. intros a Ha. by apply elem_of_nil in Ha.
Qed.

Lemma while_loop_ends (fuel : nat) :
  ∀ st, label_inv st → (potential st < fuel)%nat →
        is_Some (while_loop body fuel st).
Proof.
  induction fuel as [|fuel IH]; intros st Hinv Hfuel; [lia|]. simpl.
  pose proof (label_inv_round st Hinv) as Hround.
  destruct (body st) as [[r|st'|a st']|e]; [done| | |done].
  - destruct Hround as (Hinv' & _ & Hpot). apply IH; [done|lia].
  - destruct Hround as (Hinv' & _ & _ & Hpot). apply IH; [done|lia].
Qed.

End label_setting.

(** A flight that arrives after it departs and has no negative price. *)
Definition sound_flight (f : Flight) : Prop :=
  Flight.depart f < Flight.arrive f ∧ prices_nonneg f.

Definition sound_graph (g : Graph) : Prop :=
  ∀ a f, f ∈ graph_get g a → sound_flight f.

(** A graph all of whose flights arrive after they depart, as every
    flight does that a loader has made. *)
Definition timed_graph (g : Graph) : Prop :=
  ∀ a f, f ∈ graph_get g a → Flight.depart f < Flight.arrive f.

Lemma sound_timed (g : Graph) : sound_graph g → timed_graph g.
Proof. intros Hsound a f Hf. by destruct (Hsound a f Hf). Qed.

Lemma heap_ordered_singleton {X : Type} (R : X → X → Prop) (x : X) :
  heap_ordered R [x].
Proof.
  intros p k a b Hc _ Hk. apply lookup_lt_Some in Hk. simpl in Hk.
  unfold child_of in Hc. lia.
Qed.

Lemma price_for_nonneg (f : Flight) (cabin : string) (price : Z) :
  prices_nonneg f → Flight.price_for f cabin = Ok price → 0 ≤ price.
Proof.
  intros (? & ? & ?). unfold Flight.price_for.
  repeat case_match; intros Hprice; simplify_eq; done.
Qed.

Section timed_graph_facts.
Context (g : Graph) (dest : string).
Hypothesis g_timed : timed_graph g.

Definition earliest_key (x : Z * string * list Flight) : Z := x.1.1.
Definition earliest_airport (x : Z * string * list Flight) : string := x.1.2.
Definition earliest_successors (x : Z * string * list Flight)
  : list (Z * string * list Flight) :=
  earliest_new x.1.1 x.2 (graph_get g x.1.2).

Lemma earliest_successors_key x y :
  y ∈ earliest_successors x → earliest_key x ≤ earliest_key y.
Proof.
  destruct x as [[t a] p]. unfold earliest_successors, earliest_key. simpl.
  intros (f & -> & Hf & Hlay)%elem_of_earliest_new. simpl.
  apply layover_ok_spec in Hlay. pose proof (g_timed a f Hf) as Htime.
  unfold MIN_LAYOVER_MINUTES in Hlay. destruct p; lia.
Qed.

Lemma earliest_round_labels heap visited :
  match earliest_round g dest (heap, visited) with
  | Ok (Skipped (heap', visited')) =>
      ∃ x, popped (key_le earliest_key) heap x heap' ∧ visited' = visited
  | Ok (Expanded a (heap', visited')) =>
      ∃ x rest, earliest_airport x = a
                ∧ popped (key_le earliest_key) heap x rest
                ∧ pushed (key_le earliest_key) rest (earliest_successors x) heap'
                ∧ visited' = <[a := earliest_key x]> visited
                ∧ ∀ v, visited !! a = Some v → earliest_key x < v
  | _ => True
  end.
Proof.
  pose proof (earliest_round_spec g dest heap visited) as Hspec.
  destruct (earliest_round g dest (heap, visited))
    as [[r|[heap' visited']|a [heap' visited']]|e]; try done.
  - destruct Hspec as (t & a & p & Hpop & -> & _). by exists (t, a, p).
  - destruct Hspec as (t & p & rest & Hpop & Hpush & -> & _ & Hlt).
    by exists (t, a, p), rest.
Qed.

Lemma earliest_ends (start : string) (ed : Z) (n : nat) :
  is_Some (find_earliest_itinerary (enough_fuel g + n) g start dest ed).
Proof.
  unfold find_earliest_itinerary, earliest_loop.
  eapply (while_loop_ends earliest_key earliest_airport g earliest_successors).
  - apply earliest_successors_key.
  - intros [[t a] p]. apply length_earliest_new.
  - apply earliest_round_labels.
  - split; [apply heap_ordered_singleton|]. intros a v Hv. done.
  - unfold potential, enough_fuel. simpl. lia.
Qed.

Lemma earliest_expands_once (start : string) (ed : Z) (fuel : nat) :
  NoDup (earliest_expansions fuel g dest ([(ed, start, [])], ∅)).
Proof.
  unfold earliest_expansions.
  eapply (expansions_fresh earliest_key earliest_airport g earliest_successors).
  - apply earliest_successors_key.
  - intros [[t a] p]. apply length_earliest_new.
  - apply earliest_round_labels.
  - split; [apply heap_ordered_singleton|]. intros a v Hv. done.
Qed.

End timed_graph_facts.

Section sound_graph_facts.
Context (g : Graph) (dest : string).
Hypothesis g_sound : sound_graph g.
Context (cabin : string).

Definition cheapest_key (x : Z * Z * string * list Flight) : Z := x.1.1.1.
Definition cheapest_airport (x : Z * Z * string * list Flight) : string := x.1.2.
Definition cheapest_successors (x : Z * Z * string * list Flight)
  : list (Z * Z * string * list Flight) :=
  cheapest_new cabin x.1.1.1 x.1.1.2 x.2 (graph_get g x.1.2).

Lemma cheapest_successors_key x y :
  y ∈ cheapest_successors x → cheapest_key x ≤ cheapest_key y.
Proof.
  destruct x as [[[c t] a] p]. unfold cheapest_successors, cheapest_key. simpl.
  intros (f & price & -> & Hf & Hlay & Hprice)%elem_of_cheapest_new. simpl.
  destruct (g_sound a f Hf) as [_ Hnonneg].
  pose proof (price_for_nonneg f cabin price Hnonneg Hprice). lia.
Qed.

Lemma cheapest_round_labels heap visited :
  match cheapest_round g dest cabin (heap, visited) with
  | Ok (Skipped (heap', visited')) =>
      ∃ x, popped (key_le cheapest_key) heap x heap' ∧ visited' = visited
  | Ok (Expanded a (heap', visited')) =>
      ∃ x rest, cheapest_airport x = a
                ∧ popped (key_le cheapest_key) heap x rest
                ∧ pushed (key_le cheapest_key) rest (cheapest_successors x) heap'
                ∧ visited' = <[a := cheapest_key x]> visited
                ∧ ∀ v, visited !! a = Some v → cheapest_key x < v
  | _ => True
  end.
Proof.
  pose proof (cheapest_round_spec g dest cabin heap visited) as Hspec.
  destruct (cheapest_round g dest cabin (heap, visited))
    as [[r|[heap' visited']|a [heap' visited']]|e]; try done.
  - destruct Hspec as (c & t & a & p & Hpop & -> & _). by exists (c, t, a, p).
  - destruct Hspec as (c & t & p & rest & Hpop & Hpush & -> & _ & Hlt).
    by exists (c, t, a, p), rest.
Qed.

Lemma cheapest_ends (start : string) (ed : Z) (n : nat) :
  is_Some (find_cheapest_itinerary (enough_fuel g + n) g start dest ed cabin).
Proof.
  unfold find_cheapest_itinerary, cheapest_loop.
  eapply (while_loop_ends cheapest_key cheapest_airport g cheapest_successors).
  - apply cheapest_successors_key.
  - intros [[[c t] a] p]. apply length_cheapest_new.
  - apply cheapest_round_labels.
  - split; [apply heap_ordered_singleton|]. intros a v Hv. done.
  - unfold potential, enough_fuel. simpl. lia.
Qed.

Lemma cheapest_expands_once (start : string) (ed : Z) (fuel : nat) :
  NoDup (cheapest_expansions fuel g dest cabin ([(0, ed, start, [])], ∅)).
Proof.
  unfold cheapest_expansions.
  eapply (expansions_fresh cheapest_key cheapest_airport g cheapest_successors).
  - apply cheapest_successors_key.
  - intros [[[c t] a] p]. apply length_cheapest_new.
  - apply cheapest_round_labels.
  - split; [apply heap_ordered_singleton|]. intros a v Hv. done.
Qed.

End sound_graph_facts.

(* ------------------------------------------------------------------ *)
(** ** The loops end whatever the prices are *)
(* ------------------------------------------------------------------ *)

(** All the flights of the graph. *)
Definition flights_of (g : Graph) : list Flight := mjoin (map_to_list g).*2.

(** The number of the flights that land after [t]. *)
Definition later (g : Graph) (t : Z) : nat :=
  length (filter (fun f => t < Flight.arrive f) (flights_of g)).

(** The size of the tree of depth [k] whose nodes have [n] children. *)
Fixpoint tree_size (n k : nat) : nat :=
  match k with
  | O => 1
  | S k' => S (n * tree_size n k')
  end.

(** Fuel that is enough for either search on [g] whatever the prices
    are: the paths along which the time goes up form a tree. *)
Definition ample_fuel (g : Graph) : nat :=
  S (tree_size (length (flights_of g)) (length (flights_of g))).

Lemma graph_get_flights_of (g : Graph) (a : string) (f : Flight) :
  f ∈ graph_get g a → f ∈ flights_of g.
Proof.
  unfold graph_get, flights_of. destruct (g !! a) as [fs|] eqn:Hg; simpl.
  - intros Hf. apply list_elem_of_join. exists fs. split; [done|].
    apply list_elem_of_fmap. exists (a, fs). split; [done|].
    by apply elem_of_map_to_list.
  - intros Hf. by apply elem_of_nil in Hf.
Qed.

Lemma length_graph_get (g : Graph) (a : string) :
  (length (graph_get g a) ≤ length (flights_of g))%nat.
Proof.
  unfold graph_get, flights_of. destruct (g !! a) as [fs|] eqn:Hg; simpl; [|lia].
  rewrite length_join.
  apply (sum_list_with_in (length fs) id).
  apply list_elem_of_fmap. exists fs. split; [done|].
  apply list_elem_of_fmap. exists (a, fs). split; [done|].
  by apply elem_of_map_to_list.
Qed.

Lemma later_le (g : Graph) : ∀ t, (later g t ≤ length (flights_of g))%nat.
Proof. intros t. apply length_filter. Qed.

Lemma filter_later (l : list Flight) (t : Z) (f : Flight) :
  t < Flight.arrive f →
  (length (filter (fun f' => (Flight.arrive f < Flight.arrive f')%Z) l)
   ≤ length (filter (fun f' => (t < Flight.arrive f')%Z) l))%nat
  ∧ (f ∈ l →
     (length (filter (fun f' => (Flight.arrive f < Flight.arrive f')%Z) l)
      < length (filter (fun f' => (t < Flight.arrive f')%Z) l))%nat).
Proof.
  intros Ht. induction l as [|f' l [IH1 IH2]].
  - split; [done|]. intros Hf. by apply elem_of_nil in Hf.
  - rewrite !filter_cons.
    destruct (decide (Flight.arrive f < Flight.arrive f')) as [Hlt|Hge].
    + rewrite decide_True by lia. simpl. split; [lia|].
      intros [->|Hf]%elem_of_cons; [lia|]. specialize (IH2 Hf). lia.
    + destruct (decide (t < Flight.arrive f')) as [Hlt|Hge']; simpl.
      * split; [lia|]. intros _. lia.
      * split; [done|]. intros [->|Hf]%elem_of_cons; [lia|auto].
Qed.

Lemma later_lt (g : Graph) (t : Z) (f : Flight) :
  f ∈ flights_of g → t < Flight.arrive f →
  (later g (Flight.arrive f) < later g t)%nat.
Proof. intros Hf Ht. by apply filter_later. Qed.

Lemma tree_size_pos (n k : nat) : (1 ≤ tree_size n k)%nat.
Proof. destruct k; simpl; lia. Qed.

Lemma tree_size_mono (n j k : nat) :
  (j ≤ k)%nat → (tree_size n j ≤ tree_size n k)%nat.
Proof.
  revert j. induction k as [|k IH]; intros j Hj.
  - by replace j with O by lia.
  - destruct j as [|j]; simpl.
    + pose proof (tree_size_pos n k). lia.
    + specialize (IH j ltac:(lia)). apply le_n_S. by apply Nat.mul_le_mono_l.
Qed.

Lemma sum_list_with_bound {A : Type} (w : A → nat) (b : nat) (l : list A) :
  (∀ x, x ∈ l → (w x ≤ b)%nat) → (sum_list_with w l ≤ length l * b)%nat.
Proof.
  induction l as [|x l IH]; intros Hall; simpl; [done|].
  pose proof (Hall x ltac:(by left)).
  specialize (IH ltac:(intros y Hy; apply Hall; by right)). lia.
Qed.

Section time_measure.
Context {X : Type} (time : X → Z) (g : Graph).
Context (new : X → list X).
Context (body : list X * gmap string Z → res (round (list X * gmap string Z))).

(** An expansion pushes at most one entry for each flight of the
    airport, and each entry it pushes has a later time. *)
Hypothesis new_later : ∀ x y,
  y ∈ new x →
  ∃ f, f ∈ flights_of g ∧ time x < Flight.arrive f ∧ time y = Flight.arrive f.
Hypothesis new_length : ∀ x, (length (new x) ≤ length (flights_of g))%nat.

Hypothesis body_pops : ∀ heap visited,
  match body (heap, visited) with
  | Ok (Skipped (heap', _)) => ∃ x, heap ≡ₚ x :: heap'
  | Ok (Expanded _ (heap', _)) => ∃ x rest, heap ≡ₚ x :: rest ∧ heap' ≡ₚ new x ++ rest
  | _ => True
  end.

(** The number of the entries that may come of an entry. *)
Definition weight (x : X) : nat :=
  tree_size (length (flights_of g)) (later g (time x)).

Definition size (st : list X * gmap string Z) : nat := sum_list_with weight st.1.

Lemma weight_new (x : X) : (sum_list_with weight (new x) < weight x)%nat.
Proof.
  destruct (new x) as [|y0 l0] eqn:Hnew.
  { simpl. apply tree_size_pos. }
  rewrite <- Hnew.
  assert (Hpos : (0 < later g (time x))%nat).
  { destruct (new_later x y0) as (f & Hf & Hlt & _); [rewrite Hnew; by left|].
    pose proof (later_lt g (time x) f Hf Hlt). lia. }
  unfold weight at 2.
  destruct (later g (time x)) as [|k] eqn:Hk; [lia|]. simpl.
  apply Nat.lt_succ_r.
  transitivity (length (new x) * tree_size (length (flights_of g)) k)%nat.
  - apply sum_list_with_bound. intros y Hy.
    destruct (new_later x y Hy) as (f & Hf & Hlt & Hy').
    unfold weight. rewrite Hy'. apply tree_size_mono.
    pose proof (later_lt g (time x) f Hf Hlt). lia.
  - apply Nat.mul_le_mono_r, new_length.
Qed.

Lemma size_round (st : list X * gmap string Z) :
  match body st with
  | Ok (Skipped st') | Ok (Expanded _ st') => (size st' < size st)%nat
  | _ => True
  end.
Proof.
  destruct st as [heap visited].
  pose proof (body_pops heap visited) as Hspec.
  destruct (body (heap, visited)) as [[r|[heap' visited']|a [heap' visited']]|e];
    try done; unfold size; simpl.
  - destruct Hspec as (x & ->). simpl.
    pose proof (tree_size_pos (length (flights_of g)) (later g (time x))).
    unfold weight at 2. lia.
  - destruct Hspec as (x & rest & -> & ->). rewrite sum_list_with_app. simpl.
    pose proof (weight_new x). lia.
Qed.

Lemma timed_loop_ends (fuel : nat) :
  ∀ st, (size st < fuel)%nat → is_Some (while_loop body fuel st).
Proof.
  induction fuel as [|fuel IH]; intros st Hfuel; [lia|]. simpl.
  pose proof (size_round st) as Hround.
  destruct (body st) as [[r|st'|a st']|e]; [done| | |done]; apply IH; lia.
Qed.

End time_measure.

Lemma cheapest_ends_timed (g : Graph) (start dest : string) (ed : Z)
    (cabin : string) (n : nat) :
  timed_graph g →
  is_Some (find_cheapest_itinerary (ample_fuel g + n) g start dest ed cabin).
Proof.
  intros Htimed. unfold find_cheapest_itinerary, cheapest_loop.
  apply (timed_loop_ends (fun x : Z * Z * string * list Flight => x.1.1.2) g
           (fun x => cheapest_new cabin x.1.1.1 x.1.1.2 x.2 (graph_get g x.1.2))).
  - intros [[[c t] a] p] y. simpl.
    intros (f & price & -> & Hf & Hlay & _)%elem_of_cheapest_new. simpl.
    exists f. split; [by eapply graph_get_flights_of|]. split; [|done].
    apply layover_ok_spec in Hlay. pose proof (Htimed a f Hf).
    unfold MIN_LAYOVER_MINUTES in Hlay. destruct p; lia.
  - intros [[[c t] a] p]. simpl.
    etransitivity; [apply length_cheapest_new|apply length_graph_get].
  - intros heap visited.
    pose proof (cheapest_round_spec g dest cabin heap visited) as Hspec.
    destruct (cheapest_round g dest cabin (heap, visited))
      as [[r|[heap' visited']|a [heap' visited']]|e]; try done.
    + destruct Hspec as (c & t & a & p & [Hperm _] & _). by exists (c, t, a, p).
    + destruct Hspec as (c & t & p & rest & [Hperm _] & [Hperm' _] & _).
      by exists (c, t, a, p), rest.
  - unfold size, weight, ample_fuel. simpl.
    pose proof (tree_size_mono (length (flights_of g)) (later g ed)
                  (length (flights_of g)) (later_le g ed)).
    lia.
Qed.

(** C6, as the searches have it. On a graph whose flights arrive after
    they depart, as the flights of every loaded schedule do (cycles of
    connecting flights included), both searches end, with a result or
    with an exception, whatever the prices are: the earliest-arrival
    search within [enough_fuel] rounds, the cheapest search within
    [ample_fuel] rounds. The earliest-arrival search expands no
    airport twice. The cheapest search expands no airport twice, and
    ends within [enough_fuel] rounds, when no flight has a negative
    price. *)
Theorem searches_end_on_timed_graphs (g : Graph) (start dest : string)
    (earliest_departure : Z) (cabin : string) :
  timed_graph g →
  (∀ n, is_Some (find_earliest_itinerary (enough_fuel g + n) g start dest
                   earliest_departure))
  ∧ (∀ n, is_Some (find_cheapest_itinerary (ample_fuel g + n) g start dest
                     earliest_departure cabin))
  ∧ (∀ fuel, NoDup (earliest_expansions fuel g dest
                      ([(earliest_departure, start, [])], ∅)))
  ∧ ((∀ a f, f ∈ graph_get g a → prices_nonneg f) →
     (∀ n, is_Some (find_cheapest_itinerary (enough_fuel g + n) g start dest
                      earliest_departure cabin))
     ∧ (∀ fuel, NoDup (cheapest_expansions fuel g dest cabin
                         ([(0, earliest_departure, start, [])], ∅)))).
Proof.
  intros Htimed. split; [|split; [|split]].
  - intros n. by apply earliest_ends.
  - intros n. by apply cheapest_ends_timed.
  - intros fuel. by apply earliest_expands_once.
  - intros Hprices.
    assert (Hsound : sound_graph g).
    { intros a f Hf. split; [by apply (Htimed a)|by apply (Hprices a)]. }
    split.
    + intros n. by apply cheapest_ends.
    + intros fuel. by apply cheapest_expands_once.
Qed.

Lemma build_graph_sound (flights : list Flight) :
  Forall sound_flight flights → sound_graph (build_graph flights).
Proof.
  intros Hall a f [Hf _]%elem_of_build_graph.
  rewrite Forall_forall in Hall. auto.
Qed.

Lemma searches_end_on_timed_graphs_witness :
  timed_graph Ex.rebate
  ∧ (∀ n, is_Some (find_earliest_itinerary (enough_fuel Ex.rebate + n)
                     Ex.rebate "A" "Z" (hm 7 0)))
  ∧ (∀ n, is_Some (find_cheapest_itinerary (ample_fuel Ex.rebate + n)
                     Ex.rebate "A" "Z" (hm 7 0) "economy"))
  ∧ (∀ fuel, NoDup (earliest_expansions fuel Ex.rebate "Z" ([(hm 7 0, "A", [])], ∅)))
  ∧ (∀ a f, f ∈ graph_get (build_graph [Ex.ab; Ex.ba]) a → prices_nonneg f)
  ∧ (∀ fuel, NoDup (cheapest_expansions fuel (build_graph [Ex.ab; Ex.ba]) "Z"
                      "economy" ([(0, hm 7 0, "A", [])], ∅))).
Proof.
  assert (Htimed : timed_graph Ex.rebate).
  { intros a f [Hf _]%elem_of_build_graph.
    rewrite !elem_of_cons, elem_of_nil in Hf.
    destruct Hf as [->|[->|[->|[]]]]; vm_compute; reflexivity. }
  assert (Hsound : sound_graph (build_graph [Ex.ab; Ex.ba])).
  { apply build_graph_sound.
    repeat constructor; unfold prices_nonneg; simpl; lia. }
  pose proof (searches_end_on_timed_graphs Ex.rebate "A" "Z" (hm 7 0) "economy"
                Htimed) as (He & Hc & Hn & _).
  pose proof (searches_end_on_timed_graphs (build_graph [Ex.ab; Ex.ba])
                "A" "Z" (hm 7 0) "economy" (sound_timed _ Hsound)) as (_ & _ & _ & Hp).
  split; [exact Htimed|]. split; [exact He|]. split; [exact Hc|].
  split; [exact Hn|].
  assert (Hprices : ∀ a f, f ∈ graph_get (build_graph [Ex.ab; Ex.ba]) a →
                           prices_nonneg f).
  { intros a f Hf. by destruct (Hsound a f Hf). }
  split; [exact Hprices|]. exact (proj2 (Hp Hprices)).
Defined.

(* ------------------------------------------------------------------ *)
(** ** The earliest-arrival search is optimal when it does not raise *)
(* ------------------------------------------------------------------ *)

Definition end_airport (start : string) (pre : list Flight) : string :=
  from_option Flight.dest start (last pre).

Definition end_time (ed : Z) (pre : list Flight) : Z :=
  from_option Flight.arrive ed (last pre).

Lemma legs_chain_app (pre : list Flight) (f : Flight) (post : list Flight) :
  legs_chain (pre ++ f :: post) →
  legs_chain (f :: post)
  ∧ ∀ l, last pre = Some l →
         Flight.dest l = Flight.origin f
         ∧ Flight.arrive l + MIN_LAYOVER_MINUTES ≤ Flight.depart f.
Proof.
  induction pre as [|a [|b pre] IH]; intros Hchain.
  - split; [done|]. intros l Hl. discriminate Hl.
  - destruct Hchain as (? & ? & ?). split; [done|]. intros l [= <-]. done.
  - destruct Hchain as (_ & _ & Hchain). rewrite last_cons_cons. auto.
Qed.

Lemma chain_arrival_mono (post : list Flight) :
  ∀ f ed, legs_chain (f :: post) →
          Forall (fun f => Flight.depart f < Flight.arrive f) (f :: post) →
          Flight.arrive f ≤ end_time ed (f :: post).
Proof.
  unfold end_time.
  induction post as [|f' post IH]; intros f ed Hchain Hsound; [simpl; lia|].
  destruct Hchain as (_ & Hlay & Hchain).
  apply Forall_cons in Hsound as [_ Hsound].
  specialize (IH f' ed Hchain Hsound).
  apply Forall_cons in Hsound as [Hf' _].
  rewrite last_cons_cons. unfold MIN_LAYOVER_MINUTES in Hlay. lia.
Qed.

Lemma route_after_start (g : Graph) (start : string) (ed : Z)
    (path : list Flight) (airport : string) (time : Z) :
  sound_graph g →
  route g start ed path airport time →
  ed ≤ time ∧ (path ≠ [] → ed < time).
Proof.
  intros Hsound Hroute. induction Hroute as [|p a t f Hp [IH _] Hf Hlay].
  - split; [lia|done].
  - apply layover_ok_spec in Hlay. destruct (Hsound a f Hf) as [Htime _].
    unfold MIN_LAYOVER_MINUTES in Hlay.
    assert (ed < Flight.arrive f) by (destruct p; lia).
    split; [lia|done].
Qed.

Section earliest_optimal.
Context (g : Graph) (start dest : string) (ed : Z) (P : list Flight).
Hypothesis g_sound : sound_graph g.
Hypothesis P_in : in_graph g P.
Hypothesis P_ok : itinerary_ok start dest ed P.

Local Abbreviation entry := (Z * string * list Flight)%type.

Definition settled (visited : gmap string Z) (pre : list Flight) : Prop :=
  ∃ v, visited !! end_airport start pre = Some v ∧ v ≤ end_time ed pre.

(** The entry [x] stands for the leg [f] of [P]: it is in the airport
    where [f] lands, no later than [f]. *)
Definition covers (x : entry) (f : Flight) : Prop :=
  x.1.2 = Flight.dest f ∧ x.1.1 ≤ Flight.arrive f ∧ x.2 ≠ [].

(** Along [P] the search is never behind: once the airport before a
    leg has its label, the leg is in the queue or the airport after it
    has its label. *)
Definition on_track (st : list entry * gmap string Z) : Prop :=
  ((ed, start, []) ∈ st.1 ∨ settled st.2 [])
  ∧ ∀ pre f post,
      P = pre ++ f :: post →
      settled st.2 pre →
      (∃ x, x ∈ st.1 ∧ covers x f) ∨ (post ≠ [] ∧ settled st.2 (pre ++ [f])).

Lemma P_nonempty : ∃ f post, P = f :: post.
Proof.
  pose proof (ok_origin _ _ _ _ P_ok) as Ho.
  assert (Hgen : ∀ Q : list Flight,
            Flight.origin <$> head Q = Some start → ∃ f post, Q = f :: post).
  { intros [|f post] HQ; [discriminate HQ|eauto]. }
  by apply Hgen.
Qed.

Lemma P_leg (pre : list Flight) (f : Flight) (post : list Flight) :
  P = pre ++ f :: post →
  f ∈ graph_get g (end_airport start pre)
  ∧ (∀ (p : list Flight) t, t ≤ end_time ed pre → (p ≠ [] → ed < t) →
                            layover_ok p t f = true)
  ∧ Flight.arrive f ≤ end_time ed P
  ∧ (post = [] → Flight.dest f = dest).
Proof.
  intros HP. pose proof P_ok as [Ho Hd Hfirst Hchain].
  pose proof P_in as Hin. unfold in_graph in Hin.
  rewrite HP in Ho, Hd, Hfirst, Hchain, Hin |- *.
  apply legs_chain_app in Hchain as [Hchain Hjoin].
  assert (Hf : f ∈ graph_get g (Flight.origin f)).
  { rewrite Forall_forall in Hin. apply Hin, elem_of_app. right. by left. }
  assert (Hsound : Forall (fun f => Flight.depart f < Flight.arrive f) (f :: post)).
  { apply Forall_app in Hin as [_ Hin]. eapply Forall_impl; [exact Hin|].
    intros f' Hf'. simpl in Hf'. by destruct (g_sound _ _ Hf'). }
  split; [|split; [|split]].
  - unfold end_airport. destruct (last pre) as [l|] eqn:Hlast; simpl.
    + destruct (Hjoin l eq_refl) as [Hl _]. by rewrite Hl.
    + apply last_None in Hlast. subst pre. simpl in Ho. by simplify_eq.
  - intros p t Ht Hp. apply layover_ok_spec.
    unfold end_time in Ht. destruct (last pre) as [l|] eqn:Hlast; simpl in Ht.
    + destruct (Hjoin l eq_refl) as [_ Hlay].
      unfold MIN_LAYOVER_MINUTES in *. destruct p; lia.
    + apply last_None in Hlast. subst pre. simpl in Hfirst.
      specialize (Hfirst f eq_refl). destruct p as [|f0 p]; [lia|].
      specialize (Hp ltac:(done)). lia.
  - unfold end_time at 1. rewrite last_app_cons.
    by apply chain_arrival_mono.
  - intros ->. rewrite last_snoc in Hd. simpl in Hd. by simplify_eq.
Qed.

Lemma start_before_end : ed ≤ end_time ed P.
Proof.
  destruct P_nonempty as (f & post & HP).
  destruct (P_leg [] f post HP) as (Hf & Hlay & Hmono & _).
  specialize (Hlay [] ed ltac:(unfold end_time; simpl; lia) ltac:(done)).
  apply layover_ok_spec in Hlay. destruct (g_sound _ _ Hf). lia.
Qed.

(** On track, some entry of the queue is no later than [P]. *)
Lemma on_track_entry (st : list entry * gmap string Z) :
  on_track st → ∃ x, x ∈ st.1 ∧ x.1.1 ≤ end_time ed P.
Proof.
  intros [Hstart Hlegs].
  destruct Hstart as [Hinit|Hsettled].
  { exists (ed, start, []). split; [done|]. apply start_before_end. }
  assert (Hgo : ∀ post pre f, P = pre ++ f :: post → settled st.2 pre →
                              ∃ x, x ∈ st.1 ∧ x.1.1 ≤ end_time ed P).
  { induction post as [|f' post IH]; intros pre f HP Hpre.
    - destruct (Hlegs pre f [] HP Hpre) as [(x & Hx & _ & Hle & _)|[? _]]; [|done].
      exists x. split; [done|]. destruct (P_leg pre f [] HP) as (_ & _ & ? & _). lia.
    - destruct (Hlegs pre f (f' :: post) HP Hpre)
        as [(x & Hx & _ & Hle & _)|[_ Hnext]].
      + exists x. split; [done|].
        destruct (P_leg pre f (f' :: post) HP) as (_ & _ & ? & _). lia.
      + apply (IH (pre ++ [f]) f'); [|done]. by rewrite <- app_assoc. }
  destruct P_nonempty as (f & post & HP). by apply (Hgo post [] f).
Qed.

Lemma settled_insert (visited : gmap string Z) (a : string) (t : Z)
    (pre : list Flight) :
  (∀ v, visited !! a = Some v → t < v) →
  settled visited pre → settled (<[a := t]> visited) pre.
Proof.
  intros Hlt (v & Hv & Hle). unfold settled.
  destruct (decide (a = end_airport start pre)) as [->|Hne].
  - exists t. rewrite lookup_insert_eq. split; [done|].
    specialize (Hlt v Hv). lia.
  - exists v. by rewrite lookup_insert_ne.
Qed.

Definition optimal_inv (st : list entry * gmap string Z) : Prop :=
  heap_ordered time_le st.1 ∧ earliest_routes g start ed st ∧ on_track st.

(** What the loop may end with. *)
Definition optimal_result (r : res (option Itinerary)) : Prop :=
  match r with
  | Ok (Some it) =>
      ∃ t, Itinerary.arrive_time it = Some t ∧ t ≤ end_time ed P
  | Ok None => False
  | Raise e => e = Flight.no_order
  end.

Lemma optimal_inv_round (st : list entry * gmap string Z) :
  optimal_inv st →
  match earliest_round g dest st with
  | Raise e => optimal_result (Raise e)
  | Ok (Finished r) => optimal_result (Ok r)
  | Ok (Skipped st') | Ok (Expanded _ st') => optimal_inv st'
  end.
Proof.
  destruct st as [heap visited]. intros (Hord & Hroutes & Htrack).
  pose proof (earliest_routes_round g start dest ed _ Hroutes) as Hroutes'.
  pose proof (on_track_entry _ Htrack) as (w & Hw & Hwle).
  simpl in Hord, Hw, Hwle.
  pose proof (earliest_round_spec g dest heap visited) as Hspec.
  destruct (earliest_round g dest (heap, visited))
    as [[[it|]|[heap' visited']|a [heap' visited']]|e]; simpl.
  - (* return *)
    destruct Hspec as (t & rest & [Hperm Hpop] & _).
    destruct (Hpop Hord) as [_ Hmin]. destruct Hroutes' as [Hne [t' Hroute]].
    assert (Hin : (t, dest, Itinerary.flights it) ∈ heap)
      by (rewrite Hperm; by left).
    specialize (Hroutes _ _ _ Hin). apply route_end in Hroutes.
    unfold Itinerary.arrive_time.
    destruct (last (Itinerary.flights it)) as [l|] eqn:Hlast.
    + exists t. destruct Hroutes as [_ Harr]. simpl. rewrite Harr. split; [done|].
      specialize (Hmin w Hw). unfold time_le in Hmin. simpl in Hmin. lia.
    + apply last_None in Hlast. done.
  - (* the heap is empty *)
    subst heap. by apply elem_of_nil in Hw.
  - (* continue *)
    destruct Hspec as (t & a & p & [Hperm Hpop] & -> & Hnot & v & Hv & Hvt).
    destruct (Hpop Hord) as [Hord' _]. split; [done|]. split; [done|].
    destruct Htrack as [Hstart Hlegs]. split.
    + destruct Hstart as [Hinit|Hsettled]; [|by right].
      rewrite Hperm in Hinit. apply elem_of_cons in Hinit as [Heq|Hinit]; [|by left].
      simplify_eq. right. exists v. unfold end_airport, end_time. simpl. done.
    + intros pre f post HP Hpre. simpl in *.
      destruct (Hlegs pre f post HP Hpre) as [(x & Hx & Hcov)|Hnext]; [|by right].
      rewrite Hperm in Hx. apply elem_of_cons in Hx as [->|Hx]; [|left; eauto].
      destruct Hcov as (Ha & Ht & Hp). simpl in *. right. split.
      * intros ->. apply Hnot. split; [|done].
        destruct (P_leg pre f [] HP) as (_ & _ & _ & Hd). rewrite Ha. by apply Hd.
      * exists v. unfold end_airport, end_time. rewrite last_snoc. simpl.
        rewrite <- Ha. split; [done|lia].
  - (* expand *)
    destruct Hspec as (t & p & rest & [Hperm Hpop] & [Hperm' Hpush] & -> & Hnot & Hlt).
    destruct (Hpop Hord) as [Hord' _]. split; [auto|]. split; [done|].
    assert (Hin : (t, a, p) ∈ heap) by (rewrite Hperm; by left).
    pose proof (route_after_start _ _ _ _ _ _ g_sound (Hroutes _ _ _ Hin))
      as [_ Hafter].
    destruct Htrack as [Hstart Hlegs]. split; simpl.
    + destruct Hstart as [Hinit|Hsettled]; [|right; by apply settled_insert].
      rewrite Hperm in Hinit. apply elem_of_cons in Hinit as [Heq|Hinit].
      * simplify_eq. right. exists ed. unfold end_airport, end_time. simpl.
        rewrite lookup_insert_eq. split; [done|lia].
      * left. rewrite Hperm'. apply elem_of_app. by right.
    + intros pre f post HP Hpre.
      destruct (P_leg pre f post HP) as (Hf & Hlay & _ & Hd).
      destruct (decide (a = end_airport start pre ∧ t ≤ end_time ed pre))
        as [[-> Hle]|Hother].
      * (* the leg is pushed now *)
        left. exists (Flight.arrive f, Flight.dest f, p ++ [f]). split.
        -- rewrite Hperm'. apply elem_of_app. left.
           apply elem_of_earliest_new. exists f. auto.
        -- split; [done|]. split; [simpl; lia|]. simpl. by destruct p.
      * (* the airport before the leg had its label already *)
        assert (Hpre' : settled visited pre).
        { destruct Hpre as (v & Hv & Hle).
          apply lookup_insert_Some in Hv as [[-> <-]|[_ Hv]]; [|by exists v].
          exfalso. apply Hother. done. }
        destruct (Hlegs pre f post HP Hpre') as [(x & Hx & Hcov)|[Hpost Hnext]].
        -- rewrite Hperm in Hx. apply elem_of_cons in Hx as [->|Hx].
           ++ destruct Hcov as (Ha & Ht & Hp). simpl in *. right. split.
              ** intros ->. apply Hnot. split; [|done]. rewrite Ha. by apply Hd.
              ** exists t. unfold end_airport, end_time. rewrite last_snoc. simpl.
                 rewrite <- Ha, lookup_insert_eq. done.
           ++ left. exists x. split; [|done]. rewrite Hperm'.
              apply elem_of_app. by right.
        -- right. split; [done|]. by apply settled_insert.
  - done.
Qed.

Lemma optimal_inv_init : optimal_inv ([(ed, start, [])], ∅).
Proof.
  split; [apply heap_ordered_singleton|].
  split; [apply earliest_routes_init|]. split; simpl.
  - left. by apply list_elem_of_singleton.
  - intros pre f post _ (v & Hv & _). by rewrite lookup_empty in Hv.
Qed.

Lemma earliest_optimal (n : nat) :
  ∃ r, find_earliest_itinerary (enough_fuel g + n) g start dest ed = Some r
       ∧ optimal_result r.
Proof.
  destruct (earliest_ends g dest (sound_timed _ g_sound) start ed n) as [r Hr].
  exists r. split; [done|].
  pose proof (while_loop_ind (earliest_round g dest) optimal_inv optimal_result
                optimal_inv_round (enough_fuel g + n)%nat _ optimal_inv_init) as H.
  unfold find_earliest_itinerary, earliest_loop in Hr. by rewrite Hr in H.
Qed.

End earliest_optimal.

(* ------------------------------------------------------------------ *)
(** ** The only exceptions, and absence when nothing is reachable *)
(* ------------------------------------------------------------------ *)

Lemma earliest_raises_only (fuel : nat) (g : Graph) (start dest : string) (ed : Z)
    (e : exn) :
  find_earliest_itinerary fuel g start dest ed = Some (Raise e) →
  e = Flight.no_order.
Proof.
  intros Hfind. unfold find_earliest_itinerary, earliest_loop in Hfind.
  pose proof (while_loop_ind (earliest_round g dest) (fun _ => True)
    (fun r => match r with Raise e => e = Flight.no_order | Ok _ => True end))
    as Hind.
  specialize (Hind ltac:(
    intros [heap visited] _;
    pose proof (earliest_round_spec g dest heap visited) as H;
    destruct (earliest_round g dest (heap, visited)) as [[?|?|? ?]|?]; done)
    fuel ([(ed, start, [])], ∅) I).
  simpl in Hind. by rewrite Hfind in Hind.
Qed.

Lemma cheapest_raises_only (fuel : nat) (g : Graph) (start dest : string) (ed : Z)
    (cabin : string) (e : exn) :
  find_cheapest_itinerary fuel g start dest ed cabin = Some (Raise e) →
  e = Flight.no_order ∨ e = unknown_cabin cabin.
Proof.
  intros Hfind. unfold find_cheapest_itinerary, cheapest_loop in Hfind.
  pose proof (while_loop_ind (cheapest_round g dest cabin) (fun _ => True)
    (fun r => match r with
              | Raise e => e = Flight.no_order ∨ e = unknown_cabin cabin
              | Ok _ => True
              end)) as Hind.
  specialize (Hind ltac:(
    intros [heap visited] _;
    pose proof (cheapest_round_spec g dest cabin heap visited) as H;
    destruct (cheapest_round g dest cabin (heap, visited)) as [[?|?|? ?]|?]; done)
    fuel ([(0, ed, start, [])], ∅) I).
  simpl in Hind. by rewrite Hfind in Hind.
Qed.

(** X12. Where no itinerary exists, a search on a sound graph ends
    with absence unless a comparison raises (or the cabin is unknown). *)
Lemma absence_unless_raised (g : Graph) (start dest : string) (ed : Z)
    (cabin : string) (n : nat) :
  well_keyed g →
  sound_graph g →
  (∀ fs, in_graph g fs → ¬ itinerary_ok start dest ed fs) →
  (find_earliest_itinerary (enough_fuel g + n) g start dest ed = Some (Ok None)
   ∨ find_earliest_itinerary (enough_fuel g + n) g start dest ed
     = Some (Raise Flight.no_order))
  ∧ (find_cheapest_itinerary (enough_fuel g + n) g start dest ed cabin = Some (Ok None)
     ∨ find_cheapest_itinerary (enough_fuel g + n) g start dest ed cabin
       = Some (Raise Flight.no_order)
     ∨ find_cheapest_itinerary (enough_fuel g + n) g start dest ed cabin
       = Some (Raise (unknown_cabin cabin))).
Proof.
  intros Hkeyed Hsound Hnone. split.
  - destruct (earliest_ends g dest (sound_timed _ Hsound) start ed n) as [[[it|]|e] Hr].
    + exfalso.
      destruct (returned_itinerary_ok g start dest ed cabin _ it Hkeyed
                  (or_introl Hr)) as [Hok Hin].
      by eapply Hnone.
    + by left.
    + right. apply earliest_raises_only in Hr as Hr'. by subst e.
  - destruct (cheapest_ends g dest Hsound cabin start ed n) as [[[it|]|e] Hr].
    + exfalso.
      destruct (returned_itinerary_ok g start dest ed cabin _ it Hkeyed
                  (or_intror Hr)) as [Hok Hin].
      by eapply Hnone.
    + by left.
    + right. apply cheapest_raises_only in Hr as Hr'.
      destruct Hr' as [->| ->]; auto.
Qed.

(** X11. Where an itinerary exists, the earliest-arrival search on a
    sound graph ends with an itinerary that satisfies the constraints
    and arrives no later, unless a comparison raises. *)
Lemma earliest_optimal_unless_raised (flights : list Flight)
    (start dest : string) (ed : Z) (P : list Flight) (n : nat) :
  Forall sound_flight flights →
  Forall (fun f => f ∈ flights) P →
  itinerary_ok start dest ed P →
  find_earliest_itinerary (enough_fuel (build_graph flights) + n)
    (build_graph flights) start dest ed
  = Some (Raise Flight.no_order)
  ∨ ∃ it t,
      find_earliest_itinerary (enough_fuel (build_graph flights) + n)
        (build_graph flights) start dest ed
      = Some (Ok (Some it))
      ∧ itinerary_ok start dest ed (Itinerary.flights it)
      ∧ Itinerary.arrive_time it = Some t
      ∧ t ≤ end_time ed P.
Proof.
  intros Hsound HP Hok.
  assert (Hin : in_graph (build_graph flights) P).
  { eapply Forall_impl; [exact HP|]. intros f Hf. simpl.
    by apply elem_of_build_graph. }
  destruct (earliest_optimal (build_graph flights) start dest ed P
              (build_graph_sound _ Hsound) Hin Hok n) as ([[it|]|e] & Hr & Hres);
    simpl in Hres.
  - right. destruct Hres as (t & Harr & Hle). exists it, t.
    split; [done|]. split; [|done].
    by destruct (returned_itinerary_ok _ _ _ _ "economy" _ _
                   (build_graph_well_keyed flights) (or_introl Hr)).
  - done.
  - left. by subst e.
Qed.

(* ------------------------------------------------------------------ *)
(** ** More about graph construction *)
(* ------------------------------------------------------------------ *)

Lemma graph_get_fold (flights : list Flight) :
  ∀ (g : Graph) (a : string),
    graph_get
      (foldl (fun g f => <[Flight.origin f := graph_get g (Flight.origin f) ++ [f]]> g)
             g flights) a
    = graph_get g a ++ filter (fun f => Flight.origin f = a) flights.
Proof.
  induction flights as [|f flights IH]; intros g a; simpl.
  - by rewrite app_nil_r.
  - rewrite IH, graph_get_insert, filter_cons.
    destruct (decide (Flight.origin f = a)) as [<-|Hne].
    + by rewrite <- app_assoc.
    + done.
Qed.

Lemma lookup_fold_None (flights : list Flight) :
  ∀ (g : Graph) (a : string),
    foldl (fun g f => <[Flight.origin f := graph_get g (Flight.origin f) ++ [f]]> g)
          g flights !! a = None
    ↔ g !! a = None ∧ filter (fun f => Flight.origin f = a) flights = [].
Proof.
  induction flights as [|f flights IH]; intros g a; simpl.
  - tauto.
  - rewrite IH, filter_cons, lookup_insert_None.
    destruct (decide (Flight.origin f = a)) as [<-|Hne]; [|tauto].
    split; [tauto|]. intros [_ Habs]. discriminate Habs.
Qed.

(** X1. The graph lists under each airport exactly the flights that
    leave it, in the order of the schedule and as often as the schedule
    has them; an airport has no entry exactly when no flight leaves
    it, so no entry is an empty list. *)
Theorem build_graph_groups_by_origin (flights : list Flight) (a : string) :
  graph_get (build_graph flights) a = filter (fun f => Flight.origin f = a) flights
  ∧ (build_graph flights !! a = None
     ↔ filter (fun f => Flight.origin f = a) flights = [])
  ∧ (∀ fs, build_graph flights !! a = Some fs → fs ≠ []).
Proof.
  assert (Hget : graph_get (build_graph flights) a
                 = filter (fun f => Flight.origin f = a) flights).
  { unfold build_graph. rewrite graph_get_fold.
    unfold graph_get. by rewrite lookup_empty. }
  assert (Hnone : build_graph flights !! a = None
                  ↔ filter (fun f => Flight.origin f = a) flights = []).
  { unfold build_graph. rewrite lookup_fold_None, lookup_empty. tauto. }
  split; [done|]. split; [done|].
  intros fs Hfs ->. unfold graph_get in Hget. rewrite Hfs in Hget. simpl in Hget.
  symmetry in Hget. apply Hnone in Hget. congruence.
Qed.

(** The number of flights a graph lists. *)
Definition flight_count (g : Graph) : nat := unseen_flights g ∅.

Lemma unseen_in_empty (l : list (string * list Flight)) :
  unseen_in ∅ l = sum_list ((fun kv => length kv.2) <$> l).
Proof.
  induction l as [|kv l IH]; [done|].
  rewrite unseen_in_cons, fmap_cons, IH. unfold unseen_at.
  by rewrite lookup_empty.
Qed.

Lemma flight_count_insert (g : Graph) (a : string) (f : Flight) :
  flight_count (<[a := graph_get g a ++ [f]]> g) = S (flight_count g).
Proof.
  unfold flight_count, unseen_flights, graph_get. rewrite !unseen_in_empty.
  destruct (g !! a) as [fs|] eqn:Hg; simpl.
  - rewrite <- (insert_delete_eq g a (fs ++ [f])).
    rewrite map_to_list_insert by apply lookup_delete_eq.
    rewrite <- (insert_delete_id g a fs Hg) at 2.
    rewrite (map_to_list_insert (delete a g) a fs) by apply lookup_delete_eq.
    rewrite !fmap_cons. simpl. rewrite length_app. simpl. lia.
  - rewrite map_to_list_insert by done. by rewrite fmap_cons.
Qed.

Lemma flight_count_fold (flights : list Flight) :
  ∀ g : Graph,
    flight_count
      (foldl (fun g f => <[Flight.origin f := graph_get g (Flight.origin f) ++ [f]]> g)
             g flights)
    = (flight_count g + length flights)%nat.
Proof.
  induction flights as [|f flights IH]; intros g; simpl; [lia|].
  rewrite IH, flight_count_insert. lia.
Qed.

Lemma flight_count_build_graph (flights : list Flight) :
  flight_count (build_graph flights) = length flights.
Proof.
  unfold build_graph. rewrite flight_count_fold.
  unfold flight_count, unseen_flights. by rewrite map_to_list_empty.
Qed.

(** X2. On a schedule of flights that arrive after they depart and
    have no negative price, each search is over after at most as many
    rounds of its loop as there are flights, and two. *)
Theorem searches_end_within_flights_plus_two (flights : list Flight)
    (start dest : string) (earliest_departure : Z) (cabin : string) :
  Forall sound_flight flights →
  is_Some (find_earliest_itinerary (2 + length flights) (build_graph flights)
             start dest earliest_departure)
  ∧ is_Some (find_cheapest_itinerary (2 + length flights) (build_graph flights)
               start dest earliest_departure cabin).
Proof.
  intros Hsound. apply build_graph_sound in Hsound.
  pose proof (earliest_ends _ dest (sound_timed _ Hsound) start earliest_departure 0) as He.
  pose proof (cheapest_ends _ dest Hsound cabin start earliest_departure 0) as Hc.
  unfold enough_fuel in He, Hc.
  change (unseen_flights (build_graph flights) ∅)
    with (flight_count (build_graph flights)) in He, Hc.
  rewrite flight_count_build_graph, Nat.add_0_r in He, Hc. done.
Qed.

Lemma searches_end_within_flights_plus_two_witness :
  Forall sound_flight [Ex.ab; Ex.bc; Ex.ac]
  ∧ is_Some (find_earliest_itinerary 5 (build_graph [Ex.ab; Ex.bc; Ex.ac])
               "A" "Z" (hm 7 0))
  ∧ is_Some (find_cheapest_itinerary 5 (build_graph [Ex.ab; Ex.bc; Ex.ac])
               "A" "Z" (hm 7 0) "first").
Proof.
  assert (Hsound : Forall sound_flight [Ex.ab; Ex.bc; Ex.ac]).
  { repeat constructor; unfold prices_nonneg; simpl; lia. }
  split; [exact Hsound|].
  exact (searches_end_within_flights_plus_two _ "A" "Z" (hm 7 0) "first" Hsound).
Defined.

(* ------------------------------------------------------------------ *)
(** ** The derived properties of an itinerary *)
(* ------------------------------------------------------------------ *)

Lemma sum_prices_known (cabin : string) (fs : list Flight) :
  known_cabin cabin →
  ∃ c, Itinerary.sum_prices cabin fs = Ok c
       ∧ (Forall prices_nonneg fs → 0 ≤ c).
Proof.
  intros Hknown. induction fs as [|f fs (c & Hc & Hpos)]; simpl.
  - exists 0. split; [done|]. intros _. lia.
  - assert (Hprice : ∃ p, Flight.price_for f cabin = Ok p).
    { destruct Hknown as [->|[->| ->]]; eexists; reflexivity. }
    destruct Hprice as [p Hp]. rewrite Hp, Hc. unfold_bind.
    exists (p + c). split; [done|].
    intros [Hf Hfs]%Forall_cons.
    pose proof (price_for_nonneg f cabin p Hf Hp). specialize (Hpos Hfs). lia.
Qed.

(** X3. [total_price] for one of the three cabins never raises, and on
    legs without negative prices the total is not negative. For any
    other cabin value it raises [ValueError] on an itinerary with a
    leg, but answers 0 on an itinerary without legs: the cabin is
    looked at once per leg. *)
Theorem total_price_by_cabin (it : Itinerary) (cabin : string) :
  (known_cabin cabin →
   ∃ c, Itinerary.total_price it cabin = Ok c
        ∧ (Forall prices_nonneg (Itinerary.flights it) → 0 ≤ c))
  ∧ (¬ known_cabin cabin →
     Itinerary.total_price it cabin
     = match Itinerary.flights it with
       | [] => Ok 0
       | _ :: _ => Raise (unknown_cabin cabin)
       end).
Proof.
  unfold Itinerary.total_price. split.
  - intros Hknown. by apply sum_prices_known.
  - intros Hunknown. destruct (Itinerary.flights it) as [|f fs]; [done|].
    simpl. rewrite (price_for_unknown f cabin Hunknown). reflexivity.
Qed.

Lemma total_price_by_cabin_witness :
  known_cabin "business"
  ∧ ¬ known_cabin "Economy"
  ∧ Itinerary.total_price (Itinerary.mk [Ex.ab; Ex.bc]) "business" = Ok 300
  ∧ Itinerary.total_price (Itinerary.mk [Ex.ab; Ex.bc]) "Economy"
    = Raise (unknown_cabin "Economy")
  ∧ Itinerary.total_price (Itinerary.mk []) "Economy" = Ok 0.
Proof.
  assert (Hknown : known_cabin "business") by (right; left; reflexivity).
  assert (Hunknown : ¬ known_cabin "Economy").
  { intros [H|[H|H]]; discriminate H. }
  split; [exact Hknown|]. split; [exact Hunknown|].
  split; [reflexivity|]. split.
  - exact (proj2 (total_price_by_cabin (Itinerary.mk [Ex.ab; Ex.bc]) "Economy")
             Hunknown).
  - exact (proj2 (total_price_by_cabin (Itinerary.mk []) "Economy") Hunknown).
Defined.


Lemma chain_departs_before_arrival (fs : list Flight) (d a : Z) :
  legs_chain fs →
  Forall (fun f => Flight.depart f < Flight.arrive f) fs →
  Flight.depart <$> head fs = Some d →
  Flight.arrive <$> last fs = Some a →
  d < a.
Proof.
  destruct fs as [|f post]; [discriminate|].
  intros Hchain Hsound [= <-] Ha.
  pose proof (chain_arrival_mono post f 0 Hchain Hsound) as Hmono.
  unfold end_time in Hmono. destruct (last (f :: post)) as [l|]; [|discriminate].
  simpl in *. simplify_eq. apply Forall_cons in Hsound as [Hf _]. lia.
Qed.

(** X4. What the accessors of a returned itinerary show, on a schedule
    of flights that arrive after they depart: it is not empty, its
    origin is [start] and its destination [dest], its departure time is
    at or after the earliest departure, its arrival time is after its
    departure time (so the duration in the table is positive), and its
    number of stops is the number of legs less one. *)
Theorem returned_itinerary_accessors (flights : list Flight)
    (start dest : string) (earliest_departure : Z) (cabin : string)
    (fuel : nat) (it : Itinerary) :
  Forall (fun f => Flight.depart f < Flight.arrive f) flights →
  find_earliest_itinerary fuel (build_graph flights) start dest earliest_departure
  = Some (Ok (Some it))
  ∨ find_cheapest_itinerary fuel (build_graph flights) start dest
      earliest_departure cabin
    = Some (Ok (Some it)) →
  Itinerary.is_empty it = false
  ∧ Itinerary.origin it = Some start
  ∧ Itinerary.dest it = Some dest
  ∧ (∃ d a, Itinerary.depart_time it = Some d
            ∧ Itinerary.arrive_time it = Some a
            ∧ earliest_departure ≤ d ∧ d < a)
  ∧ Itinerary.num_stops it = Z.of_nat (length (Itinerary.flights it)) - 1.
Proof.
  intros Htimes Hfind.
  apply returned_itinerary_ok in Hfind as [[Ho Hd Hfirst Hchain] Hin];
    [|apply build_graph_well_keyed].
  unfold Itinerary.is_empty, Itinerary.origin, Itinerary.dest,
    Itinerary.depart_time, Itinerary.arrive_time, Itinerary.num_stops.
  destruct (Itinerary.flights it) as [|f fs] eqn:Hfs; [discriminate Ho|].
  split; [done|]. split; [done|]. split; [done|]. split.
  - destruct (last (f :: fs)) as [l|] eqn:Hlast; [|discriminate Hd].
    exists (Flight.depart f), (Flight.arrive l).
    split; [done|]. split; [done|]. split; [by apply Hfirst|].
    eapply (chain_departs_before_arrival (f :: fs)); [done| |done|by rewrite Hlast].
    eapply Forall_impl; [exact Hin|]. intros f' Hf'. simpl in Hf'.
    apply elem_of_build_graph in Hf' as [Hf' _].
    rewrite Forall_forall in Htimes. auto.
  - simpl length. lia.
Qed.

Lemma returned_itinerary_accessors_witness :
  Forall (fun f => Flight.depart f < Flight.arrive f) [Ex.ab; Ex.bc; Ex.ac]
  ∧ Itinerary.is_empty (Itinerary.mk [Ex.ab; Ex.bc]) = false
  ∧ Itinerary.origin (Itinerary.mk [Ex.ab; Ex.bc]) = Some "A"
  ∧ Itinerary.dest (Itinerary.mk [Ex.ab; Ex.bc]) = Some "C"
  ∧ (∃ d a, Itinerary.depart_time (Itinerary.mk [Ex.ab; Ex.bc]) = Some d
            ∧ Itinerary.arrive_time (Itinerary.mk [Ex.ab; Ex.bc]) = Some a
            ∧ hm 7 0 ≤ d ∧ d < a)
  ∧ Itinerary.num_stops (Itinerary.mk [Ex.ab; Ex.bc])
    = Z.of_nat (length [Ex.ab; Ex.bc]) - 1.
Proof.
  assert (Htimes : Forall (fun f => Flight.depart f < Flight.arrive f)
                     [Ex.ab; Ex.bc; Ex.ac]) by (repeat constructor; simpl; lia).
  assert (Hfind :
    find_cheapest_itinerary 5 (build_graph [Ex.ab; Ex.bc; Ex.ac]) "A" "C" (hm 7 0)
      "economy"
    = Some (Ok (Some (Itinerary.mk [Ex.ab; Ex.bc])))) by (vm_compute; reflexivity).
  split; [exact Htimes|].
  exact (returned_itinerary_accessors _ _ _ _ _ _ _ Htimes (or_intror Hfind)).
Defined.

(* ------------------------------------------------------------------ *)
(** ** More about the time helpers *)
(* ------------------------------------------------------------------ *)

Fixpoint count_char (c : ascii) (s : string) : nat :=
  match s with
  | EmptyString => O
  | String c' s' => ((if Ascii.eqb c' c then 1 else 0) + count_char c s')%nat
  end.

Lemma length_split (sep : ascii) (s : string) :
  length (Py.split sep s) = S (count_char sep s).
Proof.
  induction s as [|c s IH]; simpl; [done|].
  destruct (Ascii.eqb c sep); simpl; [by rewrite IH|].
  destruct (Py.split sep s) as [|p ps]; simpl in *; lia.
Qed.

(** X5. [parse_time] reports an invalid time format exactly for the
    texts that, once stripped, do not hold one colon. *)
Theorem parse_time_format_error (hhmm : string) :
  parse_time hhmm = Raise (ValueError ("Invalid time format: " +:+ hhmm))
  ↔ count_char ":" (Py.strip hhmm) ≠ 1%nat.
Proof.
  unfold parse_time.
  pose proof (length_split ":" (Py.strip hhmm)) as Hlen.
  destruct (Py.split ":" (Py.strip hhmm)) as [|h [|m [|x parts]]];
    simpl in Hlen.
  - lia.
  - split; [lia|done].
  - split; [|lia]. intros Hraise. exfalso.
    destruct (Py.int h); destruct (Py.int m);
      try destruct (_ && _); simplify_eq.
  - split; [lia|done].
Qed.

Definition well_shaped (s : string) : bool :=
  match s with
  | String h1 (String h2 (String c (String m1 (String m2 EmptyString)))) =>
      Ascii.eqb c ":"
      && forallb (fun d => bool_decide (is_Some (Py.digit d))) [h1; h2; m1; m2]
  | _ => false
  end.

Lemma format_time_shapes :
  forallb (fun n => well_shaped (format_time (Z.of_nat n))) (seq 0 1440) = true.
Proof. vm_compute. reflexivity. Qed.

(** X6. For a minute of the day [format_time] answers five characters:
    two digits, a colon, two digits. *)
Theorem format_time_is_HH_MM (m : Z) :
  0 ≤ m < 1440 →
  ∃ h1 h2 m1 m2,
    format_time m = String h1 (String h2 (String ":" (String m1 (String m2 ""))))
    ∧ Forall (fun d => is_Some (Py.digit d)) [h1; h2; m1; m2].
Proof.
  intros Hm. pose proof format_time_shapes as Hall.
  rewrite forallb_forall in Hall. specialize (Hall (Z.to_nat m)).
  rewrite Z2Nat.id in Hall by lia.
  specialize (Hall ltac:(apply in_seq; lia)).
  unfold well_shaped in Hall.
  destruct (format_time m) as [|h1 [|h2 [|c [|m1 [|m2 [|x s]]]]]]; try discriminate.
  apply andb_true_iff in Hall as [Hc Hdigits].
  apply Ascii.eqb_eq in Hc. subst c.
  exists h1, h2, m1, m2. split; [done|].
  rewrite forallb_forall in Hdigits. apply Forall_forall. intros d Hd.
  apply list_elem_of_In in Hd. apply Hdigits in Hd.
  by apply bool_decide_eq_true in Hd.
Qed.

Lemma format_time_is_HH_MM_witness :
  0 ≤ 65 < 1440
  ∧ ∃ h1 h2 m1 m2,
      format_time 65 = String h1 (String h2 (String ":" (String m1 (String m2 ""))))
      ∧ Forall (fun d => is_Some (Py.digit d)) [h1; h2; m1; m2].
Proof. split; [lia | apply (format_time_is_HH_MM 65); lia]. Defined.

(* ------------------------------------------------------------------ *)
(** ** More about loading *)
(* ------------------------------------------------------------------ *)

(** X7. A line of a text schedule that is blank or starts with [#]
    (after stripping) gives no flight and no error. Any other line
    that does not split into exactly eight fields raises a
    [ValueError] that tells the number of fields found and the line. *)
Theorem txt_line_skipped_or_miscounted (line : string) :
  (Py.strip line = "" ∨ Py.startswith "#" (Py.strip line) = true →
   parse_flight_line_txt line = Ok None)
  ∧ (Py.strip line ≠ "" → Py.startswith "#" (Py.strip line) = false →
     length (Py.split_ws (Py.strip line)) ≠ 8%nat →
     parse_flight_line_txt line
     = Raise (ValueError
                ("Expected 8 fields, got "
                 +:+ Py.str (Z.of_nat (length (Py.split_ws (Py.strip line))))
                 +:+ ": " +:+ Py.strip line))).
Proof.
  unfold parse_flight_line_txt. split.
  - intros [->|Hhash]; [done|]. rewrite Hhash. by rewrite orb_true_r.
  - intros Hne Hhash Hlen. rewrite Hhash.
    destruct (String.eqb_spec (Py.strip line) "") as [|_]; [done|]. simpl.
    destruct (Py.split_ws (Py.strip line))
      as [|f1 [|f2 [|f3 [|f4 [|f5 [|f6 [|f7 [|f8 [|f9 rest]]]]]]]]];
      try reflexivity.
    simpl in Hlen. lia.
Qed.

Lemma txt_line_skipped_or_miscounted_witness :
  parse_flight_line_txt "   # ICN SFO KE23 08:00 19:30 500 1500 3000" = Ok None
  ∧ parse_flight_line_txt "ICN SFO 08:00 19:30 500 1500 3000"
    = Raise (ValueError "Expected 8 fields, got 7: ICN SFO 08:00 19:30 500 1500 3000").
Proof.
  split.
  - apply (proj1 (txt_line_skipped_or_miscounted _)). right. reflexivity.
  - apply (proj2 (txt_line_skipped_or_miscounted
                    "ICN SFO 08:00 19:30 500 1500 3000"));
      [discriminate | reflexivity | vm_compute; intros H; discriminate H].
Defined.

(** The flights of the lines that hold one. *)
Definition flights_of_lines (lines : list string) : list Flight :=
  omap (fun line => match parse_flight_line_txt line with
                    | Ok (Some flight) => Some flight
                    | _ => None
                    end) lines.

Lemma load_lines_all_ok (path : string) (lines : list string) :
  ∀ (lineno : Z) (acc : list Flight),
    Forall (fun line => is_ok (parse_flight_line_txt line) = true) lines →
    load_lines path lineno lines acc = Ok (acc ++ flights_of_lines lines).
Proof.
  induction lines as [|l lines IH]; intros lineno acc Hall; simpl.
  - by rewrite app_nil_r.
  - apply Forall_cons in Hall as [Hl Hall]. unfold flights_of_lines. simpl.
    destruct (parse_flight_line_txt l) as [[f|]|e]; [| |discriminate Hl].
    + rewrite (IH _ _ Hall). by rewrite <- app_assoc.
    + by rewrite (IH _ _ Hall).
Qed.

(** X8. A text schedule loads exactly when every one of its lines
    parses, and the result is then the flights of its lines in the
    order of the file, whatever the path; blank lines and comments add
    nothing. *)
Theorem load_flights_txt_in_file_order (path : string) (lines : list string)
    (flights : list Flight) :
  load_flights_txt path lines = Ok flights
  ↔ Forall (fun line => is_ok (parse_flight_line_txt line) = true) lines
    ∧ flights = flights_of_lines lines.
Proof.
  unfold load_flights_txt. split.
  - intros Hload.
    assert (Hall : Forall (fun line => is_ok (parse_flight_line_txt line) = true)
                     lines).
    { apply Forall_forall. by eapply (load_lines_ok path lines 1 [] flights). }
    split; [done|]. rewrite (load_lines_all_ok path lines 1 [] Hall) in Hload.
    by simplify_eq.
  - intros [Hall ->]. by rewrite (load_lines_all_ok path lines 1 [] Hall).
Qed.

(** X9. When a line of a text schedule fails to parse, the load
    raises the error of the first such line, with the path and the
    number of that line (counted from 1, blank lines and comments
    included) in front of its message. *)
Theorem load_flights_txt_reports_line (path : string) (pre : list string)
    (bad : string) (post : list string) (msg : string) :
  Forall (fun line => is_ok (parse_flight_line_txt line) = true) pre →
  parse_flight_line_txt bad = Raise (ValueError msg) →
  load_flights_txt path (pre ++ bad :: post)
  = Raise (ValueError (path +:+ ":" +:+ Py.str (Z.of_nat (length pre) + 1)
                       +:+ ": " +:+ msg)).
Proof.
  intros Hall Hbad. unfold load_flights_txt.
  rewrite (load_lines_first_error path pre 1 [] bad post msg Hall Hbad).
  by rewrite Z.add_comm.
Qed.

Lemma load_flights_txt_reports_line_witness :
  load_flights_txt "flights.txt"
    (["# schedule"; ""; "ICN SFO KE23 08:00 19:30 500 1500 3000"]
     ++ "ICN SFO KE24 25:00 19:30 500 1500 3000" :: ["not read"])
  = Raise (ValueError "flights.txt:4: Hour or minute out of range: 25:00").
Proof.
  apply (load_flights_txt_reports_line "flights.txt"
           ["# schedule"; ""; "ICN SFO KE23 08:00 19:30 500 1500 3000"]
           "ICN SFO KE24 25:00 19:30 500 1500 3000" ["not read"]
           "Hour or minute out of range: 25:00").
  - repeat constructor.
  - vm_compute. reflexivity.
Defined.

(** X10. The CSV loader looks at the header first: when one of the
    eight columns is missing it raises [ValueError] before any row is
    read, so even a file without rows, or without a header, is
    refused; the message shows the set of the required columns. With
    the columns present, the rows give their flights in order, and the
    first row that fails makes the load raise that row's own
    exception: unlike the text loader it adds no position. *)
Theorem load_flights_csv_header_then_rows (set_order fieldnames : list string) :
  load_flights_csv set_order []
  = Some (Raise (ValueError ("Missing required CSV columns: "
                             +:+ csv.repr_set set_order)))
  ∧ (¬ has_required_cols fieldnames →
     ∀ records,
       load_flights_csv set_order (fieldnames :: records)
       = Some (Raise (ValueError ("Missing required CSV columns: "
                                  +:+ csv.repr_set set_order))))
  ∧ (has_required_cols fieldnames →
     (∀ records flights,
        Forall2 (fun row flight => flight_of_row row = Some (Ok flight))
          (csv.rows fieldnames records) flights →
        load_flights_csv set_order (fieldnames :: records) = Some (Ok flights))
     ∧ (∀ records pre bad post e,
          csv.rows fieldnames records = pre ++ bad :: post →
          Forall (fun row => ∃ flight, flight_of_row row = Some (Ok flight)) pre →
          flight_of_row bad = Some (Raise e) →
          load_flights_csv set_order (fieldnames :: records) = Some (Raise e))).
Proof.
  split; [reflexivity|]. unfold load_flights_csv. split.
  - intros Hmissing records.
    destruct (forallb _ required_cols) eqn:Hcheck; [|done].
    apply required_cols_check in Hcheck. done.
  - intros Hcols. apply required_cols_check in Hcols. rewrite Hcols. cbn [tail].
    split.
    + intros records flights Hall. by rewrite (load_rows_all_ok _ [] flights Hall).
    + intros records pre bad post e -> Hall Hbad. by apply load_rows_first_error.
Qed.

Lemma load_flights_csv_header_then_rows_witness :
  ¬ has_required_cols ["origin"; "dest"; "depart"; "arrive"]
  ∧ load_flights_csv ExLoad.set_order [["origin"; "dest"; "depart"; "arrive"]]
    = Some (Raise (ValueError
         ("Missing required CSV columns: {'first', 'origin', 'arrive', 'dest', "
          +:+ "'economy', 'depart', 'flight_number', 'business'}")))
  ∧ has_required_cols ("note" :: required_cols)
  ∧ load_flights_csv ExLoad.set_order
      (("note" :: required_cols)
       :: [("on time" :: ExLoad.good_record);
           ("late" :: ExLoad.out_of_range_record);
           ("not read" :: ExLoad.late_record)])
    = Some (Raise (ValueError "Hour or minute out of range: 25:00")).
Proof.
  assert (Hmissing : ¬ has_required_cols ["origin"; "dest"; "depart"; "arrive"]).
  { intros H.
    assert (Hin : "first" ∈ required_cols).
    { unfold required_cols. rewrite !elem_of_cons. tauto. }
    specialize (H "first" Hin).
    repeat (apply elem_of_cons in H as [H|H]; [discriminate H|]).
    by apply elem_of_nil in H. }
  assert (Hcols : has_required_cols ("note" :: required_cols)).
  { intros c Hc. by right. }
  split; [exact Hmissing|]. split.
  - exact (proj1 (proj2 (load_flights_csv_header_then_rows ExLoad.set_order _))
             Hmissing []).
  - split; [exact Hcols|].
    apply (proj2 (proj2 (proj2 (load_flights_csv_header_then_rows
                                  ExLoad.set_order _)) Hcols)
             _ [csv.row_dict ("note" :: required_cols) ("on time" :: ExLoad.good_record)]
             (csv.row_dict ("note" :: required_cols)
                ("late" :: ExLoad.out_of_range_record))
             [csv.row_dict ("note" :: required_cols)
                ("not read" :: ExLoad.late_record)]).
    + vm_compute. reflexivity.
    + apply Forall_singleton. eexists. vm_compute. reflexivity.
    + vm_compute. reflexivity.
Defined.

(* ------------------------------------------------------------------ *)
(** ** More about the searches *)
(* ------------------------------------------------------------------ *)

Lemma earliest_optimal_unless_raised_witness :
  Forall sound_flight [Ex.ab; Ex.bc; Ex.ac]
  ∧ (find_earliest_itinerary (enough_fuel (build_graph [Ex.ab; Ex.bc; Ex.ac]) + 0)
       (build_graph [Ex.ab; Ex.bc; Ex.ac]) "A" "C" (hm 7 0)
     = Some (Raise Flight.no_order)
     ∨ ∃ it t,
         find_earliest_itinerary (enough_fuel (build_graph [Ex.ab; Ex.bc; Ex.ac]) + 0)
           (build_graph [Ex.ab; Ex.bc; Ex.ac]) "A" "C" (hm 7 0)
         = Some (Ok (Some it))
         ∧ itinerary_ok "A" "C" (hm 7 0) (Itinerary.flights it)
         ∧ Itinerary.arrive_time it = Some t
         ∧ t ≤ end_time (hm 7 0) [Ex.ac]).
Proof.
  assert (Hsound : Forall sound_flight [Ex.ab; Ex.bc; Ex.ac]).
  { repeat constructor; unfold prices_nonneg; simpl; lia. }
  split; [exact Hsound|].
  apply (earliest_optimal_unless_raised [Ex.ab; Ex.bc; Ex.ac] "A" "C" (hm 7 0)
           [Ex.ac] 0 Hsound).
  - repeat constructor.
  - solve_itinerary_ok.
Defined.

Lemma absence_unless_raised_witness :
  (find_earliest_itinerary (enough_fuel (build_graph [Ex.ab; Ex.bc; Ex.ac]) + 0)
     (build_graph [Ex.ab; Ex.bc; Ex.ac]) "C" "A" (hm 7 0) = Some (Ok None)
   ∨ find_earliest_itinerary (enough_fuel (build_graph [Ex.ab; Ex.bc; Ex.ac]) + 0)
       (build_graph [Ex.ab; Ex.bc; Ex.ac]) "C" "A" (hm 7 0)
     = Some (Raise Flight.no_order))
  ∧ (find_cheapest_itinerary (enough_fuel (build_graph [Ex.ab; Ex.bc; Ex.ac]) + 0)
       (build_graph [Ex.ab; Ex.bc; Ex.ac]) "C" "A" (hm 7 0) "first" = Some (Ok None)
     ∨ find_cheapest_itinerary (enough_fuel (build_graph [Ex.ab; Ex.bc; Ex.ac]) + 0)
         (build_graph [Ex.ab; Ex.bc; Ex.ac]) "C" "A" (hm 7 0) "first"
       = Some (Raise Flight.no_order)
     ∨ find_cheapest_itinerary (enough_fuel (build_graph [Ex.ab; Ex.bc; Ex.ac]) + 0)
         (build_graph [Ex.ab; Ex.bc; Ex.ac]) "C" "A" (hm 7 0) "first"
       = Some (Raise (unknown_cabin "first"))).
Proof.
  apply (absence_unless_raised (build_graph [Ex.ab; Ex.bc; Ex.ac]) "C" "A" (hm 7 0)
           "first" 0).
  - apply build_graph_well_keyed.
  - apply build_graph_sound.
    repeat constructor; unfold prices_nonneg; simpl; lia.
  - intros fs Hin [Ho _ _ _].
    destruct fs as [|f fs]; [discriminate Ho|].
    apply Forall_cons in Hin as [Hf _]. apply elem_of_build_graph in Hf as [Hf _].
    simpl in Ho. injection Ho as Ho.
    rewrite !elem_of_cons in Hf.
    destruct Hf as [->|[->|[->|Hf]]]; try discriminate Ho.
    by apply elem_of_nil in Hf.
Defined.

Lemma earliest_push_none (heap : list (Z * string * list Flight)) (time : Z)
    (path : list Flight) (fs : list Flight) :
  Forall (fun f => layover_ok path time f = false) fs →
  earliest_push heap time path fs = Ok heap.
Proof.
  induction fs as [|f fs IH]; intros Hall; [done|].
  apply Forall_cons in Hall as [Hf Hall]. simpl. rewrite Hf. auto.
Qed.

Lemma cheapest_push_none (cabin : string) (heap : list (Z * Z * string * list Flight))
    (total_price time : Z) (path : list Flight) (fs : list Flight) :
  Forall (fun f => layover_ok path time f = false) fs →
  cheapest_push cabin heap total_price time path fs = Ok heap.
Proof.
  induction fs as [|f fs IH]; intros Hall; [done|].
  apply Forall_cons in Hall as [Hf Hall]. simpl. rewrite Hf. auto.
Qed.

(** X13. When no flight leaves [start] at or after the earliest
    departure (in particular when the graph has no entry for [start]),
    both searches return absence in their second round, whatever the
    destination and whatever the cabin value, known or not. *)
Theorem no_departure_gives_absence (g : Graph) (start dest : string)
    (earliest_departure : Z) (cabin : string) (n : nat) :
  (∀ f, f ∈ graph_get g start → Flight.depart f < earliest_departure) →
  find_earliest_itinerary (2 + n) g start dest earliest_departure = Some (Ok None)
  ∧ find_cheapest_itinerary (2 + n) g start dest earliest_departure cabin
    = Some (Ok None).
Proof.
  intros Hnone.
  assert (Hall : Forall (fun f => layover_ok [] earliest_departure f = false)
                   (graph_get g start)).
  { apply Forall_forall. intros f Hf. apply Hnone in Hf.
    unfold layover_ok. apply Z.leb_gt. lia. }
  split.
  - unfold find_earliest_itinerary, earliest_loop. cbn [while_loop plus].
    unfold earliest_round at 1. cbn [heapq.heappop last removelast].
    unfold_bind. rewrite andb_false_r. unfold seen_no_worse.
    rewrite lookup_empty, (earliest_push_none _ _ _ _ Hall). reflexivity.
  - unfold find_cheapest_itinerary, cheapest_loop. cbn [while_loop plus].
    unfold cheapest_round at 1. cbn [heapq.heappop last removelast].
    unfold_bind. rewrite andb_false_r. unfold seen_no_worse.
    rewrite lookup_empty, (cheapest_push_none _ _ _ _ _ _ Hall). reflexivity.
Qed.

Lemma no_departure_gives_absence_witness :
  find_earliest_itinerary (2 + 0) (build_graph [Ex.ab; Ex.bc; Ex.ac]) "A" "A" (hm 9 30)
  = Some (Ok None)
  ∧ find_cheapest_itinerary (2 + 0) (build_graph [Ex.ab; Ex.bc; Ex.ac]) "A" "A"
      (hm 9 30) "no such cabin"
    = Some (Ok None).
Proof.
  apply no_departure_gives_absence.
  intros f [Hf Ho]%elem_of_build_graph. rewrite !elem_of_cons in Hf.
  destruct Hf as [->|[->|[->|Hf]]];
    [reflexivity|discriminate Ho|reflexivity|].
  by apply elem_of_nil in Hf.
Defined.

Lemma cheapest_push_unknown (cabin : string) (heap : list (Z * Z * string * list Flight))
    (total_price time : Z) (path : list Flight) (fs : list Flight) :
  ¬ known_cabin cabin →
  Exists (fun f => layover_ok path time f = true) fs →
  cheapest_push cabin heap total_price time path fs = Raise (unknown_cabin cabin).
Proof.
  intros Hunknown. induction fs as [|f fs IH]; intros Hex.
  - by apply Exists_nil in Hex.
  - simpl. destruct (layover_ok path time f) eqn:Hlay.
    + rewrite (price_for_unknown f cabin Hunknown). reflexivity.
    + apply Exists_cons in Hex as [Hf|Hex]; [congruence|auto].
Qed.

(** X14. A cabin value outside the three is found out only when a
    price is needed: if a flight leaves [start] at or after the
    earliest departure, the cheapest search raises [ValueError] in its
    first round. (With no such flight it returns absence, by X13.) *)
Theorem unknown_cabin_raises_at_first_departure (g : Graph) (start dest : string)
    (earliest_departure : Z) (cabin : string) (f : Flight) (n : nat) :
  ¬ known_cabin cabin →
  f ∈ graph_get g start →
  earliest_departure ≤ Flight.depart f →
  find_cheapest_itinerary (1 + n) g start dest earliest_departure cabin
  = Some (Raise (unknown_cabin cabin)).
Proof.
  intros Hunknown Hf Hdep.
  unfold find_cheapest_itinerary, cheapest_loop. cbn [while_loop plus].
  unfold cheapest_round. cbn [heapq.heappop last removelast].
  unfold_bind. rewrite andb_false_r. unfold seen_no_worse. rewrite lookup_empty.
  rewrite (cheapest_push_unknown cabin [] 0 earliest_departure [] _ Hunknown);
    [done|].
  apply Exists_exists. exists f. split; [done|].
  unfold layover_ok. by apply Z.leb_le.
Qed.

Lemma unknown_cabin_raises_at_first_departure_witness :
  ¬ known_cabin "Economy"
  ∧ find_cheapest_itinerary (1 + 0) (build_graph [Ex.ab; Ex.bc; Ex.ac]) "A" "C"
      (hm 7 0) "Economy"
    = Some (Raise (unknown_cabin "Economy")).
Proof.
  assert (Hunknown : ¬ known_cabin "Economy").
  { intros [H|[H|H]]; discriminate H. }
  split; [exact Hunknown|].
  apply (unknown_cabin_raises_at_first_departure _ "A" "C" (hm 7 0) "Economy"
           Ex.ab 0 Hunknown).
  - apply elem_of_build_graph. split; [|reflexivity]. by left.
  - vm_compute. discriminate.
Defined.

Lemma price_for_known_cabin (f : Flight) (cabin : string) (price : Z) :
  Flight.price_for f cabin = Ok price → known_cabin cabin.
Proof.
  unfold Flight.price_for, known_cabin.
  destruct (String.eqb_spec cabin "economy"); [auto|].
  destruct (String.eqb_spec cabin "business"); [auto|].
  destruct (String.eqb_spec cabin "first"); [auto|]. discriminate.
Qed.

Lemma cheapest_push_known (cabin : string) (total_price time : Z)
    (path : list Flight) (fs : list Flight) :
  known_cabin cabin →
  ∀ heap, match cheapest_push cabin heap total_price time path fs with
          | Raise e => e = Flight.no_order
          | Ok _ => True
          end.
Proof.
  intros Hknown. induction fs as [|f fs IH]; intros heap; simpl; [done|].
  destruct (layover_ok path time f); [|apply IH].
  assert (Hprice : ∃ p, Flight.price_for f cabin = Ok p).
  { destruct Hknown as [->|[->| ->]]; eexists; reflexivity. }
  destruct Hprice as [p ->]. unfold_bind.
  pose proof (cheapest_heappush heap
    (total_price + p, Flight.arrive f, Flight.dest f, path ++ [f])) as Hpush.
  destruct (heapq.heappush _ _ _) as [heap1|e]; [apply IH|done].
Qed.

Lemma cheapest_round_known (g : Graph) (dest cabin : string)
    (heap : list (Z * Z * string * list Flight)) (visited : gmap string Z) :
  known_cabin cabin →
  match cheapest_round g dest cabin (heap, visited) with
  | Raise e => e = Flight.no_order
  | Ok _ => True
  end.
Proof.
  intros Hknown. unfold cheapest_round. destruct heap as [|x heap]; [done|].
  pose proof (cheapest_heappop (x :: heap) ltac:(done)) as Hpop.
  unfold_bind. destruct (heapq.heappop _ _) as [[[[[c t] a] p] rest]|e]; [|done].
  destruct (_ && _); [done|]. destruct (seen_no_worse _ _ _); [done|].
  pose proof (cheapest_push_known cabin c t p (graph_get g a) Hknown rest) as Hpush.
  by destruct (cheapest_push _ _ _ _ _ _).
Qed.

Section cheapest_direct.
Context (g : Graph) (start : string) (ed : Z) (cabin : string).
Context (direct : Flight) (price : Z).
Hypothesis direct_in : direct ∈ graph_get g start.
Hypothesis direct_departs : ed ≤ Flight.depart direct.
Hypothesis direct_price : Flight.price_for direct cabin = Ok price.

Local Abbreviation centry := (Z * Z * string * list Flight)%type.

(** The direct flight is waiting in the queue, or nothing has been
    popped yet. *)
Definition direct_waits (st : list centry * gmap string Z) : Prop :=
  st = ([(0, ed, start, [])], ∅)
  ∨ (price, Flight.arrive direct, Flight.dest direct, [direct]) ∈ st.1.

Definition direct_inv (st : list centry * gmap string Z) : Prop :=
  heap_ordered price_le st.1 ∧ cheapest_routes g start ed cabin st ∧ direct_waits st.

Definition direct_result (r : res (option Itinerary)) : Prop :=
  match r with
  | Ok (Some it) => ∃ c, Itinerary.total_price it cabin = Ok c ∧ c ≤ price
  | Ok None => False
  | Raise e => e = Flight.no_order
  end.

Lemma singleton_popped (x y : centry) (rest : list centry) :
  [x] ≡ₚ y :: rest → y = x ∧ rest = [].
Proof.
  intros Hperm. apply Permutation_length in Hperm as Hlen.
  destruct rest; [|discriminate Hlen].
  apply Permutation_singleton_r in Hperm. by simplify_eq.
Qed.

Lemma direct_inv_round (st : list centry * gmap string Z) :
  direct_inv st →
  match cheapest_round g (Flight.dest direct) cabin st with
  | Raise e => direct_result (Raise e)
  | Ok (Finished r) => direct_result (Ok r)
  | Ok (Skipped st') | Ok (Expanded _ st') => direct_inv st'
  end.
Proof.
  destruct st as [heap visited]. intros (Hord & Hroutes & Hwaits).
  pose proof (cheapest_routes_round g start (Flight.dest direct) ed cabin _ Hroutes) as Hroutes'.
  pose proof (cheapest_round_known g (Flight.dest direct) cabin heap visited
                (price_for_known_cabin _ _ _ direct_price)) as Hknown.
  pose proof (cheapest_round_spec g (Flight.dest direct) cabin heap visited) as Hspec.
  simpl in Hord.
  destruct (cheapest_round g (Flight.dest direct) cabin (heap, visited))
    as [[[it|]|[heap' visited']|a [heap' visited']]|e]; simpl.
  - (* return *)
    destruct Hspec as (c & t & rest & [Hperm Hpop] & Hne).
    destruct (Hpop Hord) as [_ Hmin].
    assert (Hin : (c, t, Flight.dest direct, Itinerary.flights it) ∈ heap)
      by (rewrite Hperm; by left).
    destruct (Hroutes _ _ _ _ Hin) as [_ Hsum]. exists c. split; [done|].
    destruct Hwaits as [Hinit|Hdirect].
    + injection Hinit as -> ->.
      apply singleton_popped in Hperm as [Heq _]. by simplify_eq.
    + specialize (Hmin _ Hdirect). unfold price_le in Hmin. simpl in Hmin. lia.
  - (* the heap is empty *)
    subst heap. destruct Hwaits as [Hinit|Hdirect]; [discriminate Hinit|].
    by apply elem_of_nil in Hdirect.
  - (* continue *)
    destruct Hspec as (c & t & a & p & [Hperm Hpop] & -> & Hnot & v & Hv & _).
    destruct (Hpop Hord) as [Hord' _]. split; [done|]. split; [done|].
    destruct Hwaits as [Hinit|Hdirect].
    + injection Hinit as -> ->. by rewrite lookup_empty in Hv.
    + right. simpl. rewrite Hperm in Hdirect.
      apply elem_of_cons in Hdirect as [Heq|Hdirect]; [|done].
      simplify_eq. exfalso. by apply Hnot.
  - (* expand *)
    destruct Hspec
      as (c & t & p & rest & [Hperm Hpop] & [Hperm' Hpush] & -> & Hnot & _).
    destruct (Hpop Hord) as [Hord' _]. split; [auto|]. split; [done|].
    right. simpl. rewrite Hperm'. apply elem_of_app.
    destruct Hwaits as [Hinit|Hdirect].
    + injection Hinit as -> ->.
      apply singleton_popped in Hperm as [Heq ->]. simplify_eq.
      left. apply elem_of_cheapest_new. exists direct, price.
      split; [done|]. split; [done|]. split; [|done].
      unfold layover_ok. by apply Z.leb_le.
    + rewrite Hperm in Hdirect.
      apply elem_of_cons in Hdirect as [Heq|Hdirect]; [|by right].
      simplify_eq. exfalso. by apply Hnot.
  - done.
Qed.

Lemma direct_inv_init : direct_inv ([(0, ed, start, [])], ∅).
Proof.
  split; [apply heap_ordered_singleton|].
  split; [apply cheapest_routes_init|]. by left.
Qed.

Lemma cheapest_direct_bound (fuel : nat) (r : res (option Itinerary)) :
  find_cheapest_itinerary fuel g start (Flight.dest direct) ed cabin = Some r →
  direct_result r.
Proof.
  intros Hr.
  pose proof (while_loop_ind (cheapest_round g (Flight.dest direct) cabin) direct_inv direct_result
                direct_inv_round fuel _ direct_inv_init) as H.
  unfold find_cheapest_itinerary, cheapest_loop in Hr. by rewrite Hr in H.
Qed.

End cheapest_direct.

(** X15. What the cheapest search does guarantee. If the schedule has
    a direct flight from [start] to [dest] that leaves at or after the
    earliest departure, then on sound flights the search ends with an
    itinerary (never with absence) that costs no more than the direct
    flight, unless a comparison of queue entries raises. *)
Theorem cheapest_no_dearer_than_direct (flights : list Flight) (start dest : string)
    (earliest_departure : Z) (cabin : string) (direct : Flight) (price : Z) :
  Forall sound_flight flights →
  direct ∈ flights →
  Flight.origin direct = start →
  Flight.dest direct = dest →
  earliest_departure ≤ Flight.depart direct →
  Flight.price_for direct cabin = Ok price →
  find_cheapest_itinerary (2 + length flights) (build_graph flights) start dest
    earliest_departure cabin
  = Some (Raise Flight.no_order)
  ∨ ∃ it c,
      find_cheapest_itinerary (2 + length flights) (build_graph flights) start dest
        earliest_departure cabin
      = Some (Ok (Some it))
      ∧ itinerary_ok start dest earliest_departure (Itinerary.flights it)
      ∧ Itinerary.total_price it cabin = Ok c
      ∧ c ≤ price.
Proof.
  intros Hsound Hin Ho <- Hdep Hprice.
  pose proof (cheapest_ends _ (Flight.dest direct) (build_graph_sound _ Hsound)
                cabin start earliest_departure 0) as [r Hr].
  unfold enough_fuel in Hr.
  change (unseen_flights (build_graph flights) ∅)
    with (flight_count (build_graph flights)) in Hr.
  rewrite flight_count_build_graph, Nat.add_0_r in Hr.
  assert (Hg : direct ∈ graph_get (build_graph flights) start)
    by (by apply elem_of_build_graph).
  pose proof (cheapest_direct_bound _ _ _ _ direct price Hg Hdep Hprice _ _ Hr)
    as Hres.
  destruct r as [[it|]|e]; simpl in Hres.
  - right. destruct Hres as (c & Hc & Hle). exists it, c.
    split; [done|]. split; [|done].
    by destruct (returned_itinerary_ok _ _ _ _ cabin _ _
                   (build_graph_well_keyed flights) (or_intror Hr)).
  - done.
  - left. by subst e.
Qed.

Lemma cheapest_no_dearer_than_direct_witness :
  Forall sound_flight [Ex.ab_cheap; Ex.ab_early; Ex.bc_early; Ex.ac_dear]
  ∧ (find_cheapest_itinerary (2 + 4)
       (build_graph [Ex.ab_cheap; Ex.ab_early; Ex.bc_early; Ex.ac_dear])
       "A" "C" (hm 7 0) "economy"
     = Some (Raise Flight.no_order)
     ∨ ∃ it c,
         find_cheapest_itinerary (2 + 4)
           (build_graph [Ex.ab_cheap; Ex.ab_early; Ex.bc_early; Ex.ac_dear])
           "A" "C" (hm 7 0) "economy"
         = Some (Ok (Some it))
         ∧ itinerary_ok "A" "C" (hm 7 0) (Itinerary.flights it)
         ∧ Itinerary.total_price it "economy" = Ok c
         ∧ c ≤ 100).
Proof.
  assert (Hsound : Forall sound_flight
                     [Ex.ab_cheap; Ex.ab_early; Ex.bc_early; Ex.ac_dear]).
  { repeat constructor; unfold prices_nonneg; simpl; lia. }
  split; [exact Hsound|].
  apply (cheapest_no_dearer_than_direct _ "A" "C" (hm 7 0) "economy" Ex.ac_dear 100
           Hsound); try reflexivity.
  - rewrite !elem_of_cons. tauto.
  - vm_compute. discriminate.
Defined.

(* ------------------------------------------------------------------ *)
(** ** When no comparison raises *)
(* ------------------------------------------------------------------ *)

Section heap_no_raise.
Context {A : Type} (lt : A → A → res bool).

(** Any two items of the list can be compared. *)
Definition comparable (l : list A) : Prop :=
  ∀ a b, a ∈ l → b ∈ l → is_ok (lt a b) = true.

Lemma comparable_subseteq (l k : list A) :
  (∀ x, x ∈ l → x ∈ k) → comparable k → comparable l.
Proof. intros Hsub Hk a b Ha Hb. apply Hk; auto. Qed.

Lemma elem_of_insert_inv (l : list A) (i : nat) (x y : A) :
  y ∈ <[i := x]> l → y = x ∨ y ∈ l.
Proof.
  intros [j Hj]%list_elem_of_lookup.
  apply list_lookup_insert_Some in Hj as [(_ & -> & _)|[_ Hj]]; [by left|].
  right. by eapply list_elem_of_lookup_2.
Qed.

Lemma siftdown_loop_ok (fuel : nat) :
  ∀ (heap : list A) (startpos pos : nat) (item : A),
    comparable (item :: heap) →
    (pos < length heap)%nat →
    ∃ h', heapq.siftdown_loop lt fuel heap startpos pos item = Ok h'
          ∧ ∀ x, x ∈ h' → x ∈ item :: heap.
Proof.
  induction fuel as [|fuel IH]; intros heap startpos pos item Hcmp Hlen;
    cbn [heapq.siftdown_loop].
  - eexists. split; [done|]. intros x [->|Hx]%elem_of_insert_inv; [by left|by right].
  - destruct (decide (startpos < pos)%nat) as [Hpos|Hpos]; last first.
    { eexists. split; [done|].
      intros x [->|Hx]%elem_of_insert_inv; [by left|by right]. }
    pose proof (parent_child pos ltac:(lia)) as Hchild.
    set (p := ((pos - 1) / 2)%nat) in *.
    assert (Hp : (p < pos)%nat) by (unfold child_of in Hchild; lia).
    destruct (lookup_lt_is_Some_2 heap p) as [parent Hparent]; [lia|].
    unfold heapq.getitem. rewrite Hparent. unfold_bind.
    assert (Hin : parent ∈ heap) by (by eapply list_elem_of_lookup_2).
    pose proof (Hcmp item parent ltac:(by left) ltac:(by right)) as Hok.
    destruct (lt item parent) as [[|]|e]; [| |discriminate Hok].
    + destruct (IH (<[pos := parent]> heap) startpos p item) as (h' & Hh' & Hsub).
      * eapply comparable_subseteq; [|exact Hcmp].
        intros x [->|[->|Hx]%elem_of_insert_inv]%elem_of_cons;
          [by left|by right|by right].
      * rewrite length_insert. lia.
      * exists h'. split; [done|]. intros x Hx. apply Hsub in Hx.
        apply elem_of_cons in Hx as [->|[->|Hx]%elem_of_insert_inv];
          [by left|by right|by right].
    + eexists. split; [done|].
      intros x [->|Hx]%elem_of_insert_inv; [by left|by right].
Qed.

Lemma siftdown_ok (heap : list A) (startpos pos : nat) :
  comparable heap →
  (pos < length heap)%nat →
  ∃ h', heapq.siftdown lt heap startpos pos = Ok h' ∧ ∀ x, x ∈ h' → x ∈ heap.
Proof.
  intros Hcmp Hlen. unfold heapq.siftdown, heapq.getitem.
  destruct (lookup_lt_is_Some_2 heap pos Hlen) as [item Hitem].
  rewrite Hitem. unfold_bind.
  assert (Hin : item ∈ heap) by (by eapply list_elem_of_lookup_2).
  destruct (siftdown_loop_ok pos heap startpos pos item) as (h' & Hh' & Hsub);
    [|done|].
  - eapply comparable_subseteq; [|exact Hcmp]. by intros x [->|Hx]%elem_of_cons.
  - exists h'. split; [done|]. intros x Hx. apply Hsub in Hx.
    by apply elem_of_cons in Hx as [->|Hx].
Qed.

Lemma siftup_loop_ok (fuel : nat) :
  ∀ (heap : list A) (pos : nat),
    comparable heap →
    (pos < length heap)%nat →
    ∃ h' pos', heapq.siftup_loop lt fuel heap (length heap) pos = Ok (h', pos')
               ∧ (pos' < length h')%nat
               ∧ ∀ x, x ∈ h' → x ∈ heap.
Proof.
  induction fuel as [|fuel IH]; intros heap pos Hcmp Hlen;
    cbn [heapq.siftup_loop].
  - by exists heap, pos.
  - destruct (decide (2 * pos + 1 < length heap)%nat) as [Hleft|Hleft];
      [|by exists heap, pos].
    destruct (lookup_lt_is_Some_2 heap (2 * pos + 1)) as [l Hl]; [lia|].
    unfold_bind.
    assert (Hpick : ∃ cpos c,
      (if decide (2 * pos + 1 + 1 < length heap)%nat
       then match heapq.getitem heap (2 * pos + 1) with
            | Ok l => match heapq.getitem heap (2 * pos + 1 + 1) with
                      | Ok r => match lt l r with
                                | Ok b => Ok (if b : bool then (2 * pos + 1)%nat
                                              else (2 * pos + 1 + 1)%nat)
                                | Raise e => Raise e
                                end
                      | Raise e => Raise e
                      end
            | Raise e => Raise e
            end
       else Ok (2 * pos + 1)%nat) = Ok cpos
      ∧ heap !! cpos = Some c).
    { destruct (decide (2 * pos + 1 + 1 < length heap)%nat) as [Hright|Hright];
        [|by exists (2 * pos + 1)%nat, l].
      destruct (lookup_lt_is_Some_2 heap (2 * pos + 1 + 1)) as [r Hr]; [lia|].
      unfold heapq.getitem. rewrite Hl, Hr.
      pose proof (Hcmp l r ltac:(by eapply list_elem_of_lookup_2)
                    ltac:(by eapply list_elem_of_lookup_2)) as Hok.
      destruct (lt l r) as [[|]|e]; [| |discriminate Hok].
      - by exists (2 * pos + 1)%nat, l.
      - by exists (2 * pos + 1 + 1)%nat, r. }
    destruct Hpick as (cpos & c & -> & Hc).
    unfold heapq.getitem. rewrite Hc.
    apply lookup_lt_Some in Hc as Hclen.
    assert (Hcin : c ∈ heap) by (by eapply list_elem_of_lookup_2).
    destruct (IH (<[pos := c]> heap) cpos) as (h' & pos' & Hloop & Hpos' & Hsub).
    + eapply comparable_subseteq; [|exact Hcmp].
      by intros x [->|Hx]%elem_of_insert_inv.
    + by rewrite length_insert.
    + rewrite length_insert in Hloop. exists h', pos'.
      split; [done|]. split; [done|]. intros x Hx. apply Hsub in Hx.
      by apply elem_of_insert_inv in Hx as [->|Hx].
Qed.

Lemma heappush_ok (heap : list A) (item : A) :
  comparable (item :: heap) → is_ok (heapq.heappush lt heap item) = true.
Proof.
  intros Hcmp. unfold heapq.heappush.
  destruct (siftdown_ok (heap ++ [item]) 0 (length heap)) as (h' & -> & _);
    [|rewrite length_app; simpl; lia|done].
  eapply comparable_subseteq; [|exact Hcmp].
  intros x [Hx|Hx%list_elem_of_singleton]%elem_of_app; [by right|subst; by left].
Qed.

Lemma heappop_ok (heap : list A) :
  comparable heap → heap ≠ [] → is_ok (heapq.heappop lt heap) = true.
Proof.
  intros Hcmp Hne. unfold heapq.heappop.
  destruct (exists_last Hne) as (front & lastelt & ->).
  rewrite last_snoc, removelast_last.
  destruct front as [|returnitem rest]; [done|]. unfold_bind.
  assert (Hcmp' : comparable (lastelt :: rest)).
  { eapply comparable_subseteq; [|exact Hcmp].
    intros x [->|Hx]%elem_of_cons; apply elem_of_app; [right|left].
    - by apply list_elem_of_singleton.
    - by right. }
  unfold heapq.siftup. cbn [heapq.getitem lookup list_lookup]. unfold_bind.
  destruct (siftup_loop_ok (length (lastelt :: rest) - 0) (lastelt :: rest) 0 Hcmp')
    as (h1 & p1 & -> & Hp1 & Hsub); [simpl; lia|].
  destruct (siftdown_ok (<[p1 := lastelt]> h1) 0 p1) as (h' & -> & _);
    [|by rewrite length_insert|done].
  eapply comparable_subseteq; [|exact Hcmp'].
  intros x [->|Hx]%elem_of_insert_inv; [by left|auto].
Qed.

End heap_no_raise.

Lemma NoDup_fmap_member_inj {X Y : Type} (f : X → Y) (l : list X) (a b : X) :
  NoDup (f <$> l) → a ∈ l → b ∈ l → f a = f b → a = b.
Proof.
  induction l as [|x l IH]; intros Hnodup Ha Hb Heq.
  - by apply elem_of_nil in Ha.
  - rewrite fmap_cons in Hnodup. apply NoDup_cons in Hnodup as [Hx Hl].
    apply elem_of_cons in Ha as [->|Ha]; apply elem_of_cons in Hb as [->|Hb].
    + done.
    + exfalso. apply Hx. rewrite Heq. by apply list_elem_of_fmap_2.
    + exfalso. apply Hx. rewrite <- Heq. by apply list_elem_of_fmap_2.
    + auto.
Qed.

Lemma path_lt_same (p : list Flight) : path_lt p p = Ok false.
Proof.
  induction p as [|f p IH]; [done|]. simpl.
  by destruct (decide (f = f)).
Qed.

Lemma earliest_comparable (l : list (Z * string * list Flight)) :
  NoDup ((fun x => x.1.1) <$> l) → comparable earliest_lt l.
Proof.
  intros Hnodup [[t1 a1] p1] [[t2 a2] p2] Ha Hb. unfold earliest_lt.
  destruct (t1 =? t2) eqn:Ht; [|done]. apply Z.eqb_eq in Ht.
  pose proof (NoDup_fmap_member_inj _ _ _ _ Hnodup Ha Hb Ht) as Heq.
  simplify_eq. simpl. rewrite String.eqb_refl. simpl. by rewrite path_lt_same.
Qed.

Lemma cheapest_comparable (l : list (Z * Z * string * list Flight)) :
  NoDup ((fun x => x.1.1.2) <$> l) → comparable cheapest_lt l.
Proof.
  intros Hnodup [[[c1 t1] a1] p1] [[[c2 t2] a2] p2] Ha Hb. unfold cheapest_lt.
  destruct (c1 =? c2); [|done]. simpl. unfold earliest_lt.
  destruct (t1 =? t2) eqn:Ht; [|done]. apply Z.eqb_eq in Ht.
  pose proof (NoDup_fmap_member_inj _ _ _ _ Hnodup Ha Hb Ht) as Heq.
  simplify_eq. simpl. rewrite String.eqb_refl. simpl. by rewrite path_lt_same.
Qed.

Lemma bool_filter_sublist {X : Type} (p : X → bool) (l : list X) :
  List.filter p l `sublist_of` l.
Proof.
  induction l as [|x l IH]; simpl; [done|].
  destruct (p x); [by apply sublist_skip|by apply sublist_cons].
Qed.

Lemma graph_get_build_graph (flights : list Flight) (a : string) :
  graph_get (build_graph flights) a = filter (fun f => Flight.origin f = a) flights.
Proof.
  unfold build_graph. rewrite graph_get_fold.
  unfold graph_get. by rewrite lookup_empty.
Qed.

Lemma earliest_new_times (time : Z) (path fs : list Flight) :
  (fun x => x.1.1) <$> earliest_new time path fs `sublist_of` Flight.arrive <$> fs.
Proof.
  unfold earliest_new. rewrite <- list_fmap_compose.
  apply (fmap_sublist Flight.arrive), bool_filter_sublist.
Qed.

Lemma cheapest_new_times (cabin : string) (total_price time : Z)
    (path fs : list Flight) :
  (fun x => x.1.1.2) <$> cheapest_new cabin total_price time path fs
  `sublist_of` Flight.arrive <$> fs.
Proof.
  unfold cheapest_new, omap. induction fs as [|f fs IH]; simpl; [done|].
  destruct (layover_ok path time f); [|by apply sublist_cons].
  destruct (Flight.price_for f cabin); [by apply sublist_skip|by apply sublist_cons].
Qed.

(** [k] is the arrival time of a flight that leaves a visited airport. *)
Definition lands (flights : list Flight) (visited : gmap string Z) (k : Z) : Prop :=
  ∃ f, f ∈ flights ∧ is_Some (visited !! Flight.origin f) ∧ k = Flight.arrive f.

Lemma times_stay_distinct {X : Type} (time_of : X → Z) (flights : list Flight)
    (visited : gmap string Z) (a : string) (t : Z) (new rest : list X) :
  NoDup (Flight.arrive <$> flights) →
  visited !! a = None →
  time_of <$> new
    `sublist_of` Flight.arrive <$> filter (fun f => Flight.origin f = a) flights →
  NoDup (time_of <$> rest) →
  (∀ x, x ∈ rest → lands flights visited (time_of x)) →
  NoDup (time_of <$> (new ++ rest))
  ∧ ∀ x, x ∈ new ++ rest → lands flights (<[a := t]> visited) (time_of x).
Proof.
  intros Hdistinct Ha Hnew Hrest Hlands.
  assert (Hfrom : ∀ x, x ∈ new →
            ∃ f, f ∈ flights ∧ Flight.origin f = a ∧ time_of x = Flight.arrive f).
  { intros x Hx.
    assert (Hk : time_of x ∈ time_of <$> new) by (by apply list_elem_of_fmap_2).
    eapply elem_of_sublist in Hk; [|exact Hnew].
    apply list_elem_of_fmap in Hk as (f & Hk & Hf).
    apply list_elem_of_filter in Hf as [Ho Hf]. eauto. }
  split.
  - rewrite fmap_app. apply NoDup_app. split; [|split; [|done]].
    + eapply sublist_NoDup; [|exact Hnew].
      eapply sublist_NoDup; [exact Hdistinct|].
      apply (fmap_sublist Flight.arrive), sublist_filter.
    + intros k Hk Hk'.
      apply list_elem_of_fmap in Hk as (x & -> & Hx).
      apply list_elem_of_fmap in Hk' as (y & Hxy & Hy).
      destruct (Hfrom x Hx) as (f & Hf & Ho & Hfx).
      destruct (Hlands y Hy) as (f' & Hf' & [v Hv] & Hfy).
      assert (f = f').
      { eapply (NoDup_fmap_member_inj Flight.arrive flights); eauto. congruence. }
      subst f'. congruence.
  - intros x [Hx|Hx]%elem_of_app.
    + destruct (Hfrom x Hx) as (f & Hf & Ho & Hfx). exists f.
      split; [done|]. split; [|done]. rewrite Ho, lookup_insert_eq. by eexists.
    + destruct (Hlands x Hx) as (f & Hf & [v Hv] & Hfx). exists f.
      split; [done|]. split; [|done].
      destruct (decide (a = Flight.origin f)) as [->|Hne].
      * rewrite lookup_insert_eq. by eexists.
      * rewrite lookup_insert_ne by done. by eexists.
Qed.

Lemma earliest_push_ok (time : Z) (path : list Flight) (fs : list Flight) :
  ∀ heap,
    comparable earliest_lt (earliest_new time path fs ++ heap) →
    is_ok (earliest_push heap time path fs) = true.
Proof.
  induction fs as [|f fs IH]; intros heap Hcmp; simpl; [done|].
  unfold earliest_new in Hcmp. simpl in Hcmp.
  destruct (layover_ok path time f); [|by apply IH].
  simpl in Hcmp. unfold_bind.
  pose proof (earliest_heappush heap (Flight.arrive f, Flight.dest f, path ++ [f]))
    as Hpush.
  pose proof (heappush_ok earliest_lt heap
                (Flight.arrive f, Flight.dest f, path ++ [f])) as Hok.
  destruct (heapq.heappush _ _ _) as [heap1|e].
  - apply IH. destruct Hpush as [Hperm _].
    eapply comparable_subseteq; [|exact Hcmp].
    intros x [Hx|Hx]%elem_of_app.
    + right. apply elem_of_app. by left.
    + rewrite Hperm in Hx. simpl in Hx.
      apply elem_of_cons in Hx as [->|Hx]; [by left|].
      right. apply elem_of_app. by right.
  - apply Hok. eapply comparable_subseteq; [|exact Hcmp].
    intros x [->|Hx]%elem_of_cons; [by left|].
    right. apply elem_of_app. by right.
Qed.

Lemma cheapest_push_ok (cabin : string) (total_price time : Z)
    (path : list Flight) (fs : list Flight) :
  known_cabin cabin →
  ∀ heap,
    comparable cheapest_lt (cheapest_new cabin total_price time path fs ++ heap) →
    is_ok (cheapest_push cabin heap total_price time path fs) = true.
Proof.
  intros Hknown. induction fs as [|f fs IH]; intros heap Hcmp; simpl; [done|].
  unfold cheapest_new in Hcmp. simpl in Hcmp.
  destruct (layover_ok path time f); [|by apply IH].
  assert (Hprice : ∃ p, Flight.price_for f cabin = Ok p).
  { destruct Hknown as [->|[->| ->]]; eexists; reflexivity. }
  destruct Hprice as [p Hp]. rewrite Hp in Hcmp |- *. simpl in Hcmp. unfold_bind.
  pose proof (cheapest_heappush heap
    (total_price + p, Flight.arrive f, Flight.dest f, path ++ [f])) as Hpush.
  pose proof (heappush_ok cheapest_lt heap
    (total_price + p, Flight.arrive f, Flight.dest f, path ++ [f])) as Hok.
  destruct (heapq.heappush _ _ _) as [heap1|e].
  - apply IH. destruct Hpush as [Hperm _].
    eapply comparable_subseteq; [|exact Hcmp].
    intros x [Hx|Hx]%elem_of_app.
    + right. apply elem_of_app. by left.
    + rewrite Hperm in Hx. simpl in Hx.
      apply elem_of_cons in Hx as [->|Hx]; [by left|].
      right. apply elem_of_app. by right.
  - apply Hok. eapply comparable_subseteq; [|exact Hcmp].
    intros x [->|Hx]%elem_of_cons; [by left|].
    right. apply elem_of_app. by right.
Qed.

Lemma perm_singleton_cons {X : Type} (x y : X) (rest : list X) :
  [x] ≡ₚ y :: rest → y = x ∧ rest = [].
Proof.
  intros Hperm. apply Permutation_length in Hperm as Hlen.
  destruct rest; [|discriminate Hlen].
  apply Permutation_singleton_r in Hperm. by simplify_eq.
Qed.

Section no_ties.
Context {X : Type} (time_of key : X → Z) (airport : X → string).
Context (flights : list Flight) (new : X → list X) (init : X).
Context (body : list X * gmap string Z → res (round (list X * gmap string Z))).

Hypothesis arrivals_distinct : NoDup (Flight.arrive <$> flights).
Hypothesis new_times : ∀ x,
  time_of <$> new x
    `sublist_of` Flight.arrive <$> filter (fun f => Flight.origin f = airport x) flights.
Hypothesis new_key : ∀ x y, y ∈ new x → key x ≤ key y.
Hypothesis new_length :
  ∀ x, (length (new x) ≤ length (graph_get (build_graph flights) (airport x)))%nat.
Hypothesis body_spec : ∀ heap visited,
  match body (heap, visited) with
  | Ok (Skipped (heap', visited')) =>
      ∃ x, popped (key_le key) heap x heap' ∧ visited' = visited
  | Ok (Expanded a (heap', visited')) =>
      ∃ x rest, airport x = a
                ∧ popped (key_le key) heap x rest
                ∧ pushed (key_le key) rest (new x) heap'
                ∧ visited' = <[a := key x]> visited
                ∧ ∀ v, visited !! a = Some v → key x < v
  | _ => True
  end.
Hypothesis body_ok : ∀ heap visited,
  NoDup (time_of <$> heap) →
  (∀ x rest, heap ≡ₚ x :: rest →
             (∀ v, visited !! airport x = Some v → key x < v) →
             NoDup (time_of <$> (new x ++ rest))) →
  is_ok (body (heap, visited)) = true.

(** No two entries of the queue have the same time. *)
Definition no_ties (st : list X * gmap string Z) : Prop :=
  label_inv key st
  ∧ NoDup (time_of <$> st.1)
  ∧ (st = ([init], ∅) ∨ ∀ x, x ∈ st.1 → lands flights st.2 (time_of x)).

Lemma expansion_distinct (st : list X * gmap string Z) (x : X) (rest : list X) :
  no_ties st →
  st.1 ≡ₚ x :: rest →
  (∀ v, st.2 !! airport x = Some v → key x < v) →
  NoDup (time_of <$> (new x ++ rest))
  ∧ ∀ y, y ∈ new x ++ rest →
         lands flights (<[airport x := key x]> st.2) (time_of y).
Proof.
  destruct st as [heap visited]. intros ([_ Hmono] & Hnodup & Hlands) Hperm Hlt.
  simpl in *.
  assert (Hfresh : visited !! airport x = None).
  { destruct (visited !! airport x) as [v|] eqn:Hv; [|done].
    specialize (Hlt v eq_refl).
    specialize (Hmono _ _ Hv x ltac:(rewrite Hperm; by left)). lia. }
  apply times_stay_distinct; try done.
  - rewrite Hperm, fmap_cons in Hnodup. by apply NoDup_cons in Hnodup as [_ ?].
  - intros y Hy. destruct Hlands as [Hinit|Hlands].
    + injection Hinit as -> ->.
      apply perm_singleton_cons in Hperm as [_ ->]. by apply elem_of_nil in Hy.
    + apply Hlands. rewrite Hperm. by right.
Qed.

Lemma no_ties_round (st : list X * gmap string Z) :
  no_ties st →
  match body st with
  | Raise e => False
  | Ok (Finished r) => True
  | Ok (Skipped st') | Ok (Expanded _ st') => no_ties st'
  end.
Proof.
  intros Hst. pose proof Hst as (Hinv & Hnodup & Hlands).
  pose proof (label_inv_round key airport (build_graph flights) new body
                new_key new_length body_spec st Hinv) as Hround.
  destruct st as [heap visited]. simpl in Hnodup.
  pose proof (body_ok heap visited Hnodup) as Hok.
  pose proof (body_spec heap visited) as Hspec.
  destruct (body (heap, visited)) as [[r|[heap' visited']|a [heap' visited']]|e].
  - done.
  - destruct Hround as (Hinv' & _ & _).
    destruct Hspec as (x & [Hperm _] & ->).
    split; [done|]. simpl.
    rewrite Hperm, fmap_cons in Hnodup. apply NoDup_cons in Hnodup as [_ Hnodup].
    split; [done|]. right. intros y Hy. destruct Hlands as [Hinit|Hlands].
    + injection Hinit as -> ->.
      apply perm_singleton_cons in Hperm as [_ ->]. by apply elem_of_nil in Hy.
    + apply Hlands. simpl. rewrite Hperm. by right.
  - destruct Hround as (Hinv' & _ & _ & _).
    destruct Hspec as (x & rest & <- & [Hperm _] & [Hperm' _] & -> & Hlt).
    destruct (expansion_distinct (heap, visited) x rest Hst Hperm Hlt)
      as [Hnodup' Hlands'].
    split; [done|]. simpl. split; [by rewrite Hperm'|]. right.
    intros y Hy. apply Hlands'. by rewrite <- Hperm'.
  - exfalso. assert (is_ok (Raise e : res (round (list X * gmap string Z))) = true);
      [|done].
    apply Hok. intros x rest Hperm Hlt.
    by destruct (expansion_distinct (heap, visited) x rest Hst Hperm Hlt).
Qed.

Lemma no_ties_loop (fuel : nat) (r : res (option Itinerary)) :
  while_loop body fuel ([init], ∅) = Some r → is_ok r = true.
Proof.
  intros Hr.
  pose proof (while_loop_ind body no_ties (fun r => is_ok r = true)) as Hind.
  specialize (Hind ltac:(
    intros st Hst; pose proof (no_ties_round st Hst) as H;
    destruct (body st) as [[?|?|? ?]|?]; done) fuel ([init], ∅)).
  rewrite Hr in Hind. apply Hind. split; [|split].
  - split; [apply heap_ordered_singleton|]. intros a v Hv. done.
  - simpl. apply NoDup_singleton.
  - by left.
Qed.

End no_ties.

Lemma earliest_round_ok (g : Graph) (dest : string)
    (heap : list (Z * string * list Flight)) (visited : gmap string Z) :
  NoDup (earliest_key <$> heap) →
  (∀ x rest, heap ≡ₚ x :: rest →
             (∀ v, visited !! earliest_airport x = Some v → earliest_key x < v) →
             NoDup (earliest_key <$> (earliest_successors g x ++ rest))) →
  is_ok (earliest_round g dest (heap, visited)) = true.
Proof.
  intros Hnodup Hnext. unfold earliest_round. destruct heap as [|x0 heap]; [done|].
  pose proof (earliest_heappop (x0 :: heap) ltac:(done)) as Hpop.
  pose proof (heappop_ok earliest_lt (x0 :: heap)
                (earliest_comparable _ Hnodup) ltac:(done)) as Hok.
  unfold_bind.
  destruct (heapq.heappop _ _) as [[[[t a] p] rest]|e]; [|discriminate Hok].
  destruct Hpop as [Hperm _].
  destruct (_ && _); [done|].
  unfold seen_no_worse.
  assert (Hpush : (∀ v, visited !! a = Some v → t < v) →
                  is_ok (earliest_push rest t p (graph_get g a)) = true).
  { intros Hlt. apply earliest_push_ok, earliest_comparable.
    apply (Hnext (t, a, p) rest Hperm Hlt). }
  destruct (visited !! a) as [v|] eqn:Hv.
  - destruct (v <=? t) eqn:Hle; [done|].
    specialize (Hpush ltac:(intros v' ?; simplify_eq; lia)).
    by destruct (earliest_push _ _ _ _).
  - specialize (Hpush ltac:(intros v' ?; simplify_eq)).
    by destruct (earliest_push _ _ _ _).
Qed.

Definition cheapest_time (x : Z * Z * string * list Flight) : Z := x.1.1.2.

Lemma cheapest_round_ok (g : Graph) (dest cabin : string)
    (heap : list (Z * Z * string * list Flight)) (visited : gmap string Z) :
  known_cabin cabin →
  NoDup (cheapest_time <$> heap) →
  (∀ x rest, heap ≡ₚ x :: rest →
             (∀ v, visited !! cheapest_airport x = Some v → cheapest_key x < v) →
             NoDup (cheapest_time <$> (cheapest_successors g cabin x ++ rest))) →
  is_ok (cheapest_round g dest cabin (heap, visited)) = true.
Proof.
  intros Hknown Hnodup Hnext. unfold cheapest_round.
  destruct heap as [|x0 heap]; [done|].
  pose proof (cheapest_heappop (x0 :: heap) ltac:(done)) as Hpop.
  pose proof (heappop_ok cheapest_lt (x0 :: heap)
                (cheapest_comparable _ Hnodup) ltac:(done)) as Hok.
  unfold_bind.
  destruct (heapq.heappop _ _) as [[[[[c t] a] p] rest]|e]; [|discriminate Hok].
  destruct Hpop as [Hperm _].
  destruct (_ && _); [done|].
  unfold seen_no_worse.
  assert (Hpush : (∀ v, visited !! a = Some v → c < v) →
                  is_ok (cheapest_push cabin rest c t p (graph_get g a)) = true).
  { intros Hlt. apply cheapest_push_ok; [done|]. apply cheapest_comparable.
    apply (Hnext (c, t, a, p) rest Hperm Hlt). }
  destruct (visited !! a) as [v|] eqn:Hv.
  - destruct (v <=? c) eqn:Hle; [done|].
    specialize (Hpush ltac:(intros v' ?; simplify_eq; lia)).
    by destruct (cheapest_push _ _ _ _ _ _).
  - specialize (Hpush ltac:(intros v' ?; simplify_eq)).
    by destruct (cheapest_push _ _ _ _ _ _).
Qed.

Lemma earliest_never_raises (flights : list Flight) (start dest : string) (ed : Z)
    (fuel : nat) (r : res (option Itinerary)) :
  Forall sound_flight flights →
  NoDup (Flight.arrive <$> flights) →
  find_earliest_itinerary fuel (build_graph flights) start dest ed = Some r →
  is_ok r = true.
Proof.
  intros Hsound Hdistinct Hr. apply build_graph_sound in Hsound.
  unfold find_earliest_itinerary, earliest_loop in Hr.
  eapply (no_ties_loop earliest_key earliest_key earliest_airport flights
            (earliest_successors (build_graph flights)) (ed, start, [])
            (earliest_round (build_graph flights) dest)); try done.
  - intros [[t a] p]. unfold earliest_successors, earliest_airport. simpl.
    rewrite graph_get_build_graph. apply earliest_new_times.
  - apply earliest_successors_key. by apply sound_timed.
  - intros [[t a] p]. apply length_earliest_new.
  - apply earliest_round_labels.
  - apply earliest_round_ok.
Qed.

Lemma cheapest_never_raises (flights : list Flight) (start dest : string) (ed : Z)
    (cabin : string) (fuel : nat) (r : res (option Itinerary)) :
  Forall sound_flight flights →
  NoDup (Flight.arrive <$> flights) →
  known_cabin cabin →
  find_cheapest_itinerary fuel (build_graph flights) start dest ed cabin = Some r →
  is_ok r = true.
Proof.
  intros Hsound Hdistinct Hknown Hr. apply build_graph_sound in Hsound.
  unfold find_cheapest_itinerary, cheapest_loop in Hr.
  eapply (no_ties_loop cheapest_time cheapest_key cheapest_airport flights
            (cheapest_successors (build_graph flights) cabin) (0, ed, start, [])
            (cheapest_round (build_graph flights) dest cabin)); try done.
  - intros [[[c t] a] p]. unfold cheapest_successors, cheapest_airport. simpl.
    rewrite graph_get_build_graph. apply cheapest_new_times.
  - by apply cheapest_successors_key.
  - intros [[[c t] a] p]. apply length_cheapest_new.
  - apply cheapest_round_labels.
  - intros heap visited. by apply cheapest_round_ok.
Qed.

Lemma fuel_for_flights (flights : list Flight) :
  (enough_fuel (build_graph flights) + 0)%nat = (2 + length flights)%nat.
Proof.
  unfold enough_fuel.
  change (unseen_flights (build_graph flights) ∅)
    with (flight_count (build_graph flights)).
  rewrite flight_count_build_graph. lia.
Qed.

(** X16. On a schedule of sound flights no two of which land at the
    same minute, the earliest-arrival search is correct without
    reservation: it raises nothing; it returns absence exactly when no
    itinerary satisfies the constraints; and the itinerary it returns
    satisfies them and arrives no later than any other. *)
Theorem earliest_correct_without_ties (flights : list Flight) (start dest : string)
    (earliest_departure : Z) :
  Forall sound_flight flights →
  NoDup (Flight.arrive <$> flights) →
  ∃ r,
    find_earliest_itinerary (2 + length flights) (build_graph flights) start dest
      earliest_departure
    = Some (Ok r)
    ∧ match r with
      | Some it =>
          itinerary_ok start dest earliest_departure (Itinerary.flights it)
          ∧ Forall (fun f => f ∈ flights) (Itinerary.flights it)
          ∧ ∀ P, Forall (fun f => f ∈ flights) P →
                 itinerary_ok start dest earliest_departure P →
                 ∃ t t', Itinerary.arrive_time it = Some t
                         ∧ Itinerary.arrive_time (Itinerary.mk P) = Some t'
                         ∧ t ≤ t'
      | None =>
          ∀ P, Forall (fun f => f ∈ flights) P →
               ¬ itinerary_ok start dest earliest_departure P
      end.
Proof.
  intros Hsound Hdistinct.
  pose proof (build_graph_sound _ Hsound) as Hg.
  destruct (earliest_ends _ dest (sound_timed _ Hg) start earliest_departure 0) as [r0 Hr0].
  pose proof (earliest_never_raises _ _ _ _ _ _ Hsound Hdistinct Hr0) as Hok.
  destruct r0 as [r|e]; [|discriminate Hok].
  rewrite fuel_for_flights in Hr0. exists r. split; [done|].
  assert (Hopt : ∀ P, Forall (fun f => f ∈ flights) P →
                      itinerary_ok start dest earliest_departure P →
                      optimal_result earliest_departure P (Ok r)).
  { intros P HP HPok.
    assert (Hin : in_graph (build_graph flights) P).
    { eapply Forall_impl; [exact HP|]. intros f Hf. simpl.
      by apply elem_of_build_graph. }
    destruct (earliest_optimal _ start dest earliest_departure P Hg Hin HPok 0)
      as (r' & Hr' & Hres).
    rewrite fuel_for_flights in Hr'. by simplify_eq. }
  destruct r as [it|].
  - destruct (returned_itinerary_ok _ _ _ _ "economy" _ _
                (build_graph_well_keyed flights) (or_introl Hr0)) as [Hitok Hitin].
    split; [done|]. split.
    + eapply Forall_impl; [exact Hitin|]. intros f Hf. simpl in Hf.
      by apply elem_of_build_graph in Hf as [? _].
    + intros P HP HPok. destruct (Hopt P HP HPok) as (t & Ht & Hle).
      exists t. unfold Itinerary.arrive_time, end_time in *. simpl.
      pose proof (ok_dest _ _ _ _ HPok) as Hd.
      destruct (last P) as [l|]; [|discriminate Hd].
      exists (Flight.arrive l). done.
  - intros P HP HPok. exact (Hopt P HP HPok).
Qed.

Lemma earliest_correct_without_ties_witness :
  Forall sound_flight [Ex.ab; Ex.bc; Ex.ac]
  ∧ NoDup (Flight.arrive <$> [Ex.ab; Ex.bc; Ex.ac])
  ∧ ∃ r,
      find_earliest_itinerary (2 + length [Ex.ab; Ex.bc; Ex.ac])
        (build_graph [Ex.ab; Ex.bc; Ex.ac]) "A" "C" (hm 7 0)
      = Some (Ok r)
      ∧ match r with
        | Some it =>
            itinerary_ok "A" "C" (hm 7 0) (Itinerary.flights it)
            ∧ Forall (fun f => f ∈ [Ex.ab; Ex.bc; Ex.ac]) (Itinerary.flights it)
            ∧ ∀ P, Forall (fun f => f ∈ [Ex.ab; Ex.bc; Ex.ac]) P →
                   itinerary_ok "A" "C" (hm 7 0) P →
                   ∃ t t', Itinerary.arrive_time it = Some t
                           ∧ Itinerary.arrive_time (Itinerary.mk P) = Some t'
                           ∧ t ≤ t'
        | None =>
            ∀ P, Forall (fun f => f ∈ [Ex.ab; Ex.bc; Ex.ac]) P →
                 ¬ itinerary_ok "A" "C" (hm 7 0) P
        end.
Proof.
  assert (Hsound : Forall sound_flight [Ex.ab; Ex.bc; Ex.ac]).
  { repeat constructor; unfold prices_nonneg; simpl; lia. }
  assert (Hdistinct : NoDup (Flight.arrive <$> [Ex.ab; Ex.bc; Ex.ac])).
  { simpl. repeat (apply NoDup_cons; split);
      rewrite ?elem_of_cons, ?elem_of_nil; try apply NoDup_nil_2;
      vm_compute; intuition discriminate. }
  split; [exact Hsound|]. split; [exact Hdistinct|].
  exact (earliest_correct_without_ties _ "A" "C" (hm 7 0) Hsound Hdistinct).
Defined.

(** X17. On such a schedule the cheapest search, asked for one of the
    three cabins, raises nothing either: it ends with absence or with
    an itinerary that satisfies the constraints and has a price. *)
Theorem cheapest_ends_without_ties (flights : list Flight) (start dest : string)
    (earliest_departure : Z) (cabin : string) :
  Forall sound_flight flights →
  NoDup (Flight.arrive <$> flights) →
  known_cabin cabin →
  ∃ r,
    find_cheapest_itinerary (2 + length flights) (build_graph flights) start dest
      earliest_departure cabin
    = Some (Ok r)
    ∧ match r with
      | Some it =>
          itinerary_ok start dest earliest_departure (Itinerary.flights it)
          ∧ Forall (fun f => f ∈ flights) (Itinerary.flights it)
          ∧ ∃ c, Itinerary.total_price it cabin = Ok c ∧ 0 ≤ c
      | None => True
      end.
Proof.
  intros Hsound Hdistinct Hknown.
  pose proof (build_graph_sound _ Hsound) as Hg.
  destruct (cheapest_ends _ dest Hg cabin start earliest_departure 0) as [r0 Hr0].
  pose proof (cheapest_never_raises _ _ _ _ _ _ _ Hsound Hdistinct Hknown Hr0) as Hok.
  destruct r0 as [r|e]; [|discriminate Hok].
  rewrite fuel_for_flights in Hr0. exists r. split; [done|].
  destruct r as [it|]; [|done].
  destruct (returned_itinerary_ok _ _ _ _ cabin _ _
              (build_graph_well_keyed flights) (or_intror Hr0)) as [Hitok Hitin].
  assert (Hmem : Forall (fun f => f ∈ flights) (Itinerary.flights it)).
  { eapply Forall_impl; [exact Hitin|]. intros f Hf. simpl in Hf.
    by apply elem_of_build_graph in Hf as [? _]. }
  split; [done|]. split; [done|].
  destruct (sum_prices_known cabin (Itinerary.flights it) Hknown) as (c & Hc & Hpos).
  exists c. split; [done|]. apply Hpos.
  eapply Forall_impl; [exact Hmem|]. intros f Hf. simpl in Hf.
  rewrite Forall_forall in Hsound. by destruct (Hsound f Hf).
Qed.

Lemma cheapest_ends_without_ties_witness :
  Forall sound_flight [Ex.ab; Ex.bc; Ex.ac]
  ∧ NoDup (Flight.arrive <$> [Ex.ab; Ex.bc; Ex.ac])
  ∧ known_cabin "business"
  ∧ ∃ r,
      find_cheapest_itinerary (2 + length [Ex.ab; Ex.bc; Ex.ac])
        (build_graph [Ex.ab; Ex.bc; Ex.ac]) "A" "C" (hm 7 0) "business"
      = Some (Ok r)
      ∧ match r with
        | Some it =>
            itinerary_ok "A" "C" (hm 7 0) (Itinerary.flights it)
            ∧ Forall (fun f => f ∈ [Ex.ab; Ex.bc; Ex.ac]) (Itinerary.flights it)
            ∧ ∃ c, Itinerary.total_price it "business" = Ok c ∧ 0 ≤ c
        | None => True
        end.
Proof.
  assert (Hsound : Forall sound_flight [Ex.ab; Ex.bc; Ex.ac]).
  { repeat constructor; unfold prices_nonneg; simpl; lia. }
  assert (Hdistinct : NoDup (Flight.arrive <$> [Ex.ab; Ex.bc; Ex.ac])).
  { simpl. repeat (apply NoDup_cons; split);
      rewrite ?elem_of_cons, ?elem_of_nil; try apply NoDup_nil_2;
      vm_compute; intuition discriminate. }
  assert (Hknown : known_cabin "business") by (right; left; reflexivity).
  split; [exact Hsound|]. split; [exact Hdistinct|]. split; [exact Hknown|].
  exact (cheapest_ends_without_ties _ "A" "C" (hm 7 0) "business"
           Hsound Hdistinct Hknown).
Defined.

(* ------------------------------------------------------------------ *)
(** ** The comparison table *)
(* ------------------------------------------------------------------ *)

Lemma table_line_absent (mode : string) (cabin : option string) (note : string) :
  is_ok (table_line (ComparisonRow.mk mode cabin None note)) = true.
Proof. reflexivity. Qed.













Lemma table_lines_first_error (pre : list ComparisonRow) :
  ∀ (row : ComparisonRow) (post : list ComparisonRow) (e : exn),
    Forall (fun row => is_ok (table_line row) = true) pre →
    table_line row = Raise e →
    table_lines (pre ++ row :: post) = Raise e.
Proof.
  induction pre as [|r pre IH]; intros row post e Hall Hrow; simpl.
  - by rewrite Hrow.
  - apply Forall_cons in Hall as [Hr Hall].
    destruct (table_line r); [|discriminate Hr]. unfold_bind.
    by rewrite (IH _ _ _ Hall Hrow).
Qed.

(** X20. The table does not guard against rows of other making. A row
    that holds an itinerary without flights makes
    [format_comparison_table] raise [TypeError], since the itinerary
    has no departure time to format; a row that holds an itinerary
    with flights and a cabin value outside the three makes it raise
    [ValueError]. The rows after the first such row are not looked at. *)
Theorem table_raises_on_foreign_rows (origin dest : string) (earliest_departure : Z)
    (pre : list ComparisonRow) (row : ComparisonRow) (post : list ComparisonRow)
    (it : Itinerary) :
  Forall (fun row => is_ok (table_line row) = true) pre →
  ComparisonRow.itinerary row = Some it →
  (Itinerary.flights it = [] →
   format_comparison_table origin dest earliest_departure (pre ++ row :: post)
   = Raise (TypeError "unsupported operand type(s) for //: 'NoneType' and 'int'"))
  ∧ (∀ cabin, Itinerary.flights it ≠ [] →
              cabin_given (ComparisonRow.cabin row) = Some cabin →
              ¬ known_cabin cabin →
              format_comparison_table origin dest earliest_departure
                (pre ++ row :: post)
              = Raise (unknown_cabin cabin)).
Proof.
  intros Hpre Hit. unfold format_comparison_table, comparison_lines. split.
  - intros Hempty.
    rewrite (table_lines_first_error pre row post
               (TypeError "unsupported operand type(s) for //: 'NoneType' and 'int'")
               Hpre); [done|].
    unfold table_line. rewrite Hit. unfold Itinerary.depart_time. by rewrite Hempty.
  - intros cabin Hne Hcabin Hunknown.
    rewrite (table_lines_first_error pre row post (unknown_cabin cabin) Hpre);
      [done|].
    unfold table_line. rewrite Hit, Hcabin.
    unfold Itinerary.depart_time, Itinerary.arrive_time.
    unfold Itinerary.total_price.
    destruct (Itinerary.flights it) as [|f fs] eqn:Hfs; [done|].
    destruct (last (f :: fs)) as [l|] eqn:Hlast.
    2:{ apply last_None in Hlast. discriminate Hlast. }
    simpl. unfold_bind. by rewrite (price_for_unknown f cabin Hunknown).
Qed.

Lemma table_raises_on_foreign_rows_witness :
  format_comparison_table "A" "C" (hm 7 0)
    [ComparisonRow.mk "Earliest arrival" None None "(no valid itinerary)";
     ComparisonRow.mk "Cheapest (Economy)" (Some "economy") (Some (Itinerary.mk [])) ""]
  = Raise (TypeError "unsupported operand type(s) for //: 'NoneType' and 'int'")
  ∧ format_comparison_table "A" "C" (hm 7 0)
      [ComparisonRow.mk "Earliest arrival" None None "(no valid itinerary)";
       ComparisonRow.mk "Cheapest (Premium)" (Some "premium")
         (Some (Itinerary.mk [Ex.ac])) ""]
    = Raise (unknown_cabin "premium").
Proof.
  assert (Hpre : Forall (fun row => is_ok (table_line row) = true)
                   [ComparisonRow.mk "Earliest arrival" None None
                      "(no valid itinerary)"]).
  { apply Forall_singleton. reflexivity. }
  split.
  - exact (proj1 (table_raises_on_foreign_rows "A" "C" (hm 7 0) _
                    (ComparisonRow.mk "Cheapest (Economy)" (Some "economy")
                       (Some (Itinerary.mk [])) "")
                    [] (Itinerary.mk []) Hpre eq_refl) eq_refl).
  - refine (proj2 (table_raises_on_foreign_rows "A" "C" (hm 7 0) _
                     (ComparisonRow.mk "Cheapest (Premium)" (Some "premium")
                        (Some (Itinerary.mk [Ex.ac])) "")
                     [] (Itinerary.mk [Ex.ac]) Hpre eq_refl) "premium" _ eq_refl _).
    + discriminate.
    + intros [H|[H|H]]; discriminate H.
Defined.
